(** * power/cray: the power-capping control loop of [power_cray.c]

    A shallow embedding of the allocator ([_rebalance_node_power],
    [_level_power_by_job]), the energy ingest ([_get_node_energy_counter]),
    the cap applier ([_set_power_caps]), the configuration loader
    ([_load_config]) and the nid helpers ([_node_name2nid], the
    ["nid%5.5d"] formatting of [_parse_nids]).

    Unsigned C integers are integers of [Z] with the wrap-around written
    out; the node table is a list of node records whose power sub-record
    may be absent ([node_ptr->power == NULL]). *)

From Stdlib Require Import ZArith List Bool String Ascii Lia.
Import ListNotations.

Local Open Scope Z_scope.

(* ------------------------------------------------------------------ *)
(** ** Machine arithmetic *)

(** [uint32_t] and [uint64_t] results: reduction modulo the word size.
    The macros [MIN] and [MAX] are [Z.min] and [Z.max]. *)
Definition u32 (x : Z) : Z := x mod 4294967296.
Definition u64 (x : Z) : Z := x mod 18446744073709551616.

Definition in_u32 (x : Z) : Prop := 0 <= x < 4294967296.
Definition in_u64 (x : Z) : Prop := 0 <= x < 18446744073709551616.

(** The conversion of a [long] to [int]: the low 32 bits, read in two's
    complement. *)
Definition to_int (x : Z) : Z :=
  (x + 2147483648) mod 4294967296 - 2147483648.

(** The range of a 64-bit [long], and the value [strtol] returns for a
    number outside it: [LONG_MAX] or [LONG_MIN]. *)
Definition LONG_MAX : Z := 9223372036854775807.
Definition LONG_MIN : Z := -9223372036854775808.

Definition clamp_long (x : Z) : Z := Z.max LONG_MIN (Z.min x LONG_MAX).

(** Modelled from the spec: [NO_VAL], [INFINITE] and
    [SLURM_POWER_FLAGS_LEVEL] are macros of slurm.h, which is not among
    the sources; [NO_VAL] is the "per-job" value of the tri-state
    [job_level], [INFINITE] the largest 32-bit value, and the level flag
    is one bit of a job's [power_flags]. *)
Definition NO_VAL : Z := 4294967294.
Definition INFINITE : Z := 4294967295.
Definition SLURM_POWER_FLAGS_LEVEL : Z := 1.

Definition DEFAULT_BALANCE_INTERVAL : Z := 30.
Definition DEFAULT_CAPMC_PATH : string := "/opt/cray/capmc/default/bin/capmc".
Definition DEFAULT_CAP_WATTS : Z := 0.
Definition DEFAULT_DECREASE_RATE : Z := 50.
Definition DEFAULT_INCREASE_RATE : Z := 20.
Definition DEFAULT_LOWER_THRESHOLD : Z := 90.
Definition DEFAULT_UPPER_THRESHOLD : Z := 95.
Definition DEFAULT_RECENT_JOB : Z := 300.

(* ------------------------------------------------------------------ *)
(** ** Data model *)

(** The plugin's static configuration variables. *)
Module Conf.
Record t : Type := mk {
  balance_interval : Z;   (* int *)
  capmc_path : string;
  cap_watts : Z;          (* uint32_t *)
  decrease_rate : Z;      (* uint32_t *)
  increase_rate : Z;      (* uint32_t *)
  job_level : Z;          (* uint32_t: 1, 0 or NO_VAL *)
  lower_threshold : Z;    (* uint32_t *)
  recent_job : Z;         (* uint32_t *)
  upper_threshold : Z     (* uint32_t *)
}.

(** The static initialisers. *)
Definition initial : t :=
  mk DEFAULT_BALANCE_INTERVAL DEFAULT_CAPMC_PATH DEFAULT_CAP_WATTS
     DEFAULT_DECREASE_RATE DEFAULT_INCREASE_RATE NO_VAL
     DEFAULT_LOWER_THRESHOLD DEFAULT_RECENT_JOB DEFAULT_UPPER_THRESHOLD.

Definition with_cap_watts (c : t) (w : Z) : t :=
  mk (balance_interval c) (capmc_path c) w (decrease_rate c)
     (increase_rate c) (job_level c) (lower_threshold c) (recent_job c)
     (upper_threshold c).
End Conf.

(** Modelled from the spec: [power_mgmt_data_t], the power sub-record of
    a node, is declared in slurm.h, which is not among the sources.  The
    fields are those of the spec's node power record, under the names the
    plugin uses.  The plugin reads and writes the watts fields and [state]
    through 32-bit unsigned expressions, the energy fields through 64-bit
    unsigned ones, and [new_job_time] as a [time_t]. *)
Record power_mgmt_data_t : Type := mk_power {
  cap_watts : Z;
  current_watts : Z;
  joule_counter : Z;
  new_cap_watts : Z;
  max_watts : Z;
  min_watts : Z;
  new_job_time : Z;
  state : Z;
  time_usec : Z
}.

(** [xmalloc(sizeof(power_mgmt_data_t))]: a zero-filled record. *)
Definition power_zero : power_mgmt_data_t := mk_power 0 0 0 0 0 0 0 0 0.

Definition set_new_cap_watts (p : power_mgmt_data_t) (w : Z) :=
  mk_power (cap_watts p) (current_watts p) (joule_counter p) w
           (max_watts p) (min_watts p) (new_job_time p) (state p)
           (time_usec p).

Definition set_cap_watts (p : power_mgmt_data_t) (w : Z) :=
  mk_power w (current_watts p) (joule_counter p) (new_cap_watts p)
           (max_watts p) (min_watts p) (new_job_time p) (state p)
           (time_usec p).

Definition set_current_watts (p : power_mgmt_data_t) (w : Z) :=
  mk_power (cap_watts p) w (joule_counter p) (new_cap_watts p)
           (max_watts p) (min_watts p) (new_job_time p) (state p)
           (time_usec p).

Definition set_energy (p : power_mgmt_data_t) (j t : Z) :=
  mk_power (cap_watts p) (current_watts p) j (new_cap_watts p)
           (max_watts p) (min_watts p) (new_job_time p) (state p) t.

(** Modelled from the spec: [struct node_record] is declared in
    slurmctld.h, which is not among the sources.  Of a node of
    [node_record_table_ptr] the plugin uses the name and the power
    pointer ([None] is NULL). *)
Record node_record : Type := mk_node {
  name : string;
  power : option power_mgmt_data_t
}.

Definition set_power (n : node_record) (p : power_mgmt_data_t) : node_record :=
  mk_node (name n) (Some p).

Definition node_table := list node_record.

(* ------------------------------------------------------------------ *)
(** ** Allocator, first loop of [_rebalance_node_power]: classification *)

(** The five [uint32_t] accumulators of the first loop. *)
Record tally : Type := mk_tally {
  alloc_power : Z;
  node_power_lower_cnt : Z;
  node_power_same_cnt : Z;
  node_power_raise_cnt : Z;
  node_power_needed : Z
}.

Definition tally0 : tally := mk_tally 0 0 0 0 0.

(** Body of the first loop for a node that has a power record. *)
Definition classify_node (c : Conf.t) (p : power_mgmt_data_t) (t : tally)
  : power_mgmt_data_t * tally :=
  if negb (state p =? 1) then
    (* Not ready -> no change *)
    let w := if cap_watts p =? 0 then max_watts p else cap_watts p in
    (set_new_cap_watts p w,
     mk_tally (u32 (alloc_power t + w)) (node_power_lower_cnt t)
              (node_power_same_cnt t) (node_power_raise_cnt t)
              (node_power_needed t))
  else if (cap_watts p =? 0) || (current_watts p =? 0) then
    (* Not initialized *)
    (set_new_cap_watts p 0, t)
  else if current_watts p <? u32 (cap_watts p * Conf.lower_threshold c) then
    let ave_power := u32 (cap_watts p - current_watts p) / 2 in
    let tmp_u32 := u32 (max_watts p - min_watts p) in
    let tmp_u32 := u32 (tmp_u32 * Conf.decrease_rate c) / 100 in
    let new_cap := u32 (cap_watts p - Z.min tmp_u32 ave_power) in
    let w := Z.max new_cap (min_watts p) in
    (set_new_cap_watts p w,
     mk_tally (u32 (alloc_power t + w)) (u32 (node_power_lower_cnt t + 1))
              (node_power_same_cnt t) (node_power_raise_cnt t)
              (node_power_needed t))
  else if current_watts p <? u32 (cap_watts p * Conf.upper_threshold c) then
    (* In desired range. Retain previous cap *)
    let w := Z.max (cap_watts p) (min_watts p) in
    (set_new_cap_watts p w,
     mk_tally (u32 (alloc_power t + w)) (node_power_lower_cnt t)
              (u32 (node_power_same_cnt t + 1)) (node_power_raise_cnt t)
              (node_power_needed t))
  else
    (* Node should get more power *)
    (set_new_cap_watts p 0,
     mk_tally (alloc_power t) (node_power_lower_cnt t)
              (node_power_same_cnt t) (u32 (node_power_raise_cnt t + 1))
              (u32 (node_power_needed t + min_watts p))).

(** The first loop over the node table. *)
Fixpoint phase_a (c : Conf.t) (tbl : node_table) (t : tally)
  : node_table * tally :=
  match tbl with
  | [] => ([], t)
  | n :: rest =>
      match power n with
      | None =>
          let '(rest', t') := phase_a c rest t in (n :: rest', t')
      | Some p =>
          let '(p', t1) := classify_node c p t in
          let '(rest', t') := phase_a c rest t1 in
          (set_power n p' :: rest', t')
      end
  end.

(* ------------------------------------------------------------------ *)
(** ** Allocator: budget clawback *)

(** The loop that takes [red1] watts back from every node whose
    [new_cap_watts] is nonzero, never below the node's [min_watts]. *)
Fixpoint clawback (red1 : Z) (tbl : node_table) (alloc : Z)
  : node_table * Z :=
  match tbl with
  | [] => ([], alloc)
  | n :: rest =>
      match power n with
      | None =>
          let '(rest', a) := clawback red1 rest alloc in (n :: rest', a)
      | Some p =>
          if new_cap_watts p =? 0 then
            let '(rest', a) := clawback red1 rest alloc in (n :: rest', a)
          else
            let tmp_u32 := u32 (new_cap_watts p - min_watts p) in
            let tmp_u32 := Z.min tmp_u32 red1 in
            let p' := set_new_cap_watts p (u32 (new_cap_watts p - tmp_u32)) in
            let '(rest', a) := clawback red1 rest (u32 (alloc - tmp_u32)) in
            (set_power n p' :: rest', a)
      end
  end.

(** Result of the budget step: the table, [alloc_power], [avail_power]. *)
Record budget : Type := mk_budget {
  b_table : node_table;
  b_alloc_power : Z;
  b_avail_power : Z
}.

(** Does the clawback branch run?  [avail_power] as computed before it. *)
Definition avail_before (c : Conf.t) (t : tally) : Z :=
  if alloc_power t <? Conf.cap_watts c
  then u32 (Conf.cap_watts c - alloc_power t) else 0.

Definition clawback_runs (c : Conf.t) (t : tally) : bool :=
  (Conf.cap_watts c <? alloc_power t)
  || (avail_before c t <? node_power_needed t).

(** The numerator [MAX(red1, red2)] and the divisor of [red1 /= ...]. *)
Definition clawback_excess (c : Conf.t) (t : tally) : Z :=
  let red1 := if Conf.cap_watts c <? alloc_power t
              then u32 (alloc_power t - Conf.cap_watts c) else 0 in
  let red2 := if avail_before c t <? node_power_needed t
              then u32 (node_power_needed t - avail_before c t) else 0 in
  Z.max red1 red2.

Definition clawback_divisor (t : tally) : Z :=
  u32 (node_power_lower_cnt t + node_power_same_cnt t).

(** The budget step.  [None] is the integer division by zero of
    [red1 /= (node_power_lower_cnt + node_power_same_cnt)]. *)
Definition phase_b (c : Conf.t) (tbl : node_table) (t : tally)
  : option budget :=
  if clawback_runs c t then
    if clawback_divisor t =? 0 then None
    else
      let red1 := clawback_excess c t / clawback_divisor t in
      let '(tbl', alloc') := clawback red1 tbl (alloc_power t) in
      Some (mk_budget tbl' alloc' (u32 (Conf.cap_watts c - alloc')))
  else Some (mk_budget tbl (alloc_power t) (avail_before c t)).

(* ------------------------------------------------------------------ *)
(** ** Allocator: distribution to the remaining nodes *)

(** Cap granted to one remaining node, given the current share
    [ave_power]; [recent] is [time(NULL) - recent_job]. *)
Definition raise_cap (c : Conf.t) (recent : Z) (p : power_mgmt_data_t)
  (ave_power : Z) : Z :=
  let new_cap :=
    if (new_job_time p =? 0) || (recent <? new_job_time p)
       || (cap_watts p =? 0)
    then ave_power  (* Recent change in workload, do full reset *)
    else
      let tmp_u32 := u32 (max_watts p - min_watts p) in
      let tmp_u32 := u32 (tmp_u32 * Conf.increase_rate c) / 100 in
      Z.min (u32 (cap_watts p + tmp_u32)) ave_power in
  Z.min (Z.max new_cap (min_watts p)) (max_watts p).

Fixpoint raise_loop (c : Conf.t) (recent : Z) (tbl : node_table)
  (avail_power raise_cnt ave_power : Z) : node_table :=
  match tbl with
  | [] => []
  | n :: rest =>
      match power n with
      | None => n :: raise_loop c recent rest avail_power raise_cnt ave_power
      | Some p =>
          if negb (new_cap_watts p =? 0) then  (* Already set *)
            n :: raise_loop c recent rest avail_power raise_cnt ave_power
          else
            let w := raise_cap c recent p ave_power in
            let n' := set_power n (set_new_cap_watts p w) in
            let avail' := if w <? avail_power then avail_power - w else 0 in
            let cnt' := u32 (raise_cnt - 1) in
            if cnt' =? 0 then n' :: rest  (* No more nodes to modify *)
            else
              let ave' := if negb (w =? ave_power)
                          then avail' / cnt' else ave_power in
              n' :: raise_loop c recent rest avail' cnt' ave'
      end
  end.

Definition phase_c (c : Conf.t) (recent : Z) (tbl : node_table)
  (avail_power raise_cnt : Z) : node_table :=
  if raise_cnt =? 0 then tbl
  else raise_loop c recent tbl avail_power raise_cnt
                  (avail_power / raise_cnt).

(* ------------------------------------------------------------------ *)
(** ** Allocator: levelling by job, [_level_power_by_job] *)

(** Modelled from the spec: [struct job_record] and [IS_JOB_RUNNING] are
    declared in slurmctld.h, which is not among the sources.  Of a job of
    [job_list] the plugin uses the liveness predicate, the node bitmap
    (bit [i] is node [i] of the table; [None] is a NULL bitmap) and
    [power_flags]. *)
Record job_record : Type := mk_job {
  job_running : bool;
  node_bitmap : option (list bool);
  power_flags : Z
}.

(** The four accumulators of the summing loop. *)
Record level_sum : Type := mk_level_sum {
  total_watts : Z;
  total_nodes : Z;
  lv_max_watts : Z;
  lv_min_watts : Z
}.

Definition level_sum0 : level_sum := mk_level_sum 0 0 0 INFINITE.

Definition level_add (s : level_sum) (w : Z) : level_sum :=
  mk_level_sum (u32 (total_watts s + w)) (u32 (total_nodes s + 1))
               (if lv_max_watts s <? w then w else lv_max_watts s)
               (if w <? lv_min_watts s then w else lv_min_watts s).

(** Is node [n] a member the job's loops act on: its bit is set, it has
    a power record and it is ready. *)
Definition level_member (bit : bool) (n : node_record) : bool :=
  bit && match power n with
         | Some p => state p =? 1
         | None => false
         end.

Definition node_new_cap (n : node_record) : Z :=
  match power n with
  | Some p => new_cap_watts p
  | None => 0
  end.

Fixpoint level_scan (bitmap : list bool) (tbl : node_table) (s : level_sum)
  : level_sum :=
  match bitmap, tbl with
  | bit :: bitmap', n :: rest =>
      level_scan bitmap' rest
        (if level_member bit n then level_add s (node_new_cap n) else s)
  | _, _ => s
  end.

Fixpoint level_set (bitmap : list bool) (tbl : node_table) (ave_watts : Z)
  : node_table :=
  match bitmap, tbl with
  | bit :: bitmap', n :: rest =>
      (if level_member bit n
       then match power n with
            | Some p => set_power n (set_new_cap_watts p ave_watts)
            | None => n
            end
       else n) :: level_set bitmap' rest ave_watts
  | _, _ => tbl
  end.

(** Is the job one the loop levels under the [job_level] setting. *)
Definition level_selected (c : Conf.t) (job : job_record) : bool :=
  job_running job
  && negb ((Conf.job_level c =? NO_VAL)
           && (Z.land (power_flags job) SLURM_POWER_FLAGS_LEVEL =? 0)).

(** Body of the job loop. *)
Definition level_job (c : Conf.t) (job : job_record) (tbl : node_table)
  : node_table :=
  match node_bitmap job with
  | None => tbl
  | Some bitmap =>
      if negb (level_selected c job) then tbl
      else
        let s := level_scan bitmap tbl level_sum0 in
        if total_nodes s <? 2 then tbl
        else if lv_min_watts s =? lv_max_watts s then tbl
        else level_set bitmap tbl (total_watts s / total_nodes s)
  end.

Definition _level_power_by_job (c : Conf.t) (job_list : list job_record)
  (tbl : node_table) : node_table :=
  fold_left (fun t job => level_job c job t) job_list tbl.

(** Phase D as [_rebalance_node_power] calls it. *)
Definition phase_d (c : Conf.t) (job_list : list job_record)
  (tbl : node_table) : node_table :=
  if Conf.job_level c =? 0 then tbl
  else _level_power_by_job c job_list tbl.

(* ------------------------------------------------------------------ *)
(** ** Node names and nids *)

(** The loop [for (j = 3; j < 7; j++) if (node_name[j] != '0') break;]
    run on the text after the three-letter prefix: at most [fuel] zeros
    are skipped, and the terminating NUL stops it. *)
Fixpoint skip_zeros (fuel : nat) (s : string) : string :=
  match fuel, s with
  | S k, String c s' => if Ascii.eqb c "0" then skip_zeros k s' else s
  | _, _ => s
  end.

(** [_node_name2nid]: the suffix of [node_name] it points into. *)
Definition _node_name2nid (node_name : string) : string :=
  match node_name with
  | String "n" (String "i" (String "d" rest)) => skip_zeros 4 rest
  | _ => node_name  (* Invalid node name *)
  end.

Definition digit_char (d : Z) : ascii := ascii_of_N (Z.to_N (48 + d)).

(** Decimal digits of a non-negative integer, most significant first. *)
Fixpoint dec_digits (fuel : nat) (n : Z) (acc : string) : string :=
  match fuel with
  | O => acc
  | S k =>
      let acc' := String (digit_char (n mod 10)) acc in
      if n / 10 =? 0 then acc' else dec_digits k (n / 10) acc'
  end.

Definition fmt_u (n : Z) : string :=
  dec_digits (S (Z.to_nat (Z.log2 n))) n EmptyString.

Fixpoint zeros (k : nat) : string :=
  match k with
  | O => EmptyString
  | S k' => String "0" (zeros k')
  end.

(** The conversion [%5.5d]: at least five digits, zero padded, with a
    minus sign in front for a negative argument. *)
Definition fmt_5_5d (n : Z) : string :=
  if n <? 0
  then String "-" (zeros (5 - String.length (fmt_u (- n))) ++ fmt_u (- n))%string
  else (zeros (5 - String.length (fmt_u n)) ++ fmt_u n)%string.

(** The node name [_parse_nids] builds: [xstrfmtcat(.., "nid%5.5d", nid)]. *)
Definition nid_node_name (nid : Z) : string := ("nid" ++ fmt_5_5d nid)%string.

(* ------------------------------------------------------------------ *)
(** ** C library text functions used by [_load_config] *)

Definition is_digit (c : ascii) : bool :=
  let k := N_of_ascii c in ((48 <=? k) && (k <=? 57))%N.

Definition digit_val (c : ascii) : Z := Z.of_N (N_of_ascii c) - 48.

Definition is_space (c : ascii) : bool :=
  let k := N_of_ascii c in ((k =? 32) || ((9 <=? k) && (k <=? 13)))%N.

Fixpoint skip_space (s : string) : string :=
  match s with
  | String c s' => if is_space c then skip_space s' else s
  | EmptyString => s
  end.

(** Reads a run of decimal digits; returns the value and the rest. *)
Fixpoint read_digits (s : string) (acc : Z) : Z * string :=
  match s with
  | String c s' =>
      if is_digit c then read_digits s' (acc * 10 + digit_val c) else (acc, s)
  | EmptyString => (acc, s)
  end.

Definition starts_with_digit (s : string) : bool :=
  match s with
  | String c _ => is_digit c
  | EmptyString => false
  end.

(** [strtol(s, &end_ptr, 10)]: value and end pointer.  All the digits
    are consumed; a number outside the range of [long] is returned as
    [LONG_MAX] or [LONG_MIN]. *)
Definition strtol (s : string) : Z * string :=
  let s1 := skip_space s in
  let '(neg, s2) :=
    match s1 with
    | String "-" r => (true, r)
    | String "+" r => (false, r)
    | _ => (false, s1)
    end in
  if starts_with_digit s2 then
    let '(v, e) := read_digits s2 0 in
    (clamp_long (if neg then - v else v), e)
  else (0, s).

(** [atoi(s)] is [(int) strtol(s, NULL, 10)]. *)
Definition atoi (s : string) : Z := to_int (fst (strtol s)).

(** [strstr]: the suffix of [haystack] at the first occurrence. *)
Fixpoint strstr (haystack needle : string) : option string :=
  if String.prefix needle haystack then Some haystack
  else match haystack with
       | EmptyString => None
       | String _ h => strstr h needle
       end.

(** Pointer addition [s + k] inside a string. *)
Fixpoint str_drop (k : nat) (s : string) : string :=
  match k, s with
  | S k', String _ s' => str_drop k' s'
  | _, _ => s
  end.

(** Text up to the first [stop] character ([strchr] and a NUL store). *)
Fixpoint str_until (stop : ascii) (s : string) : string :=
  match s with
  | String c s' =>
      if Ascii.eqb c stop then EmptyString else String c (str_until stop s')
  | EmptyString => EmptyString
  end.

Definition is_found (o : option string) : bool :=
  match o with Some _ => true | None => false end.

(* ------------------------------------------------------------------ *)
(** ** [_load_config] *)

(** Each block of [_load_config] as a step on the configuration. *)
Definition load_balance_interval (sched_params : string) (c : Conf.t) : Conf.t :=
  match strstr sched_params "balance_interval=" with
  | Some tmp_ptr =>
      let v := atoi (str_drop 17 tmp_ptr) in
      Conf.mk (if v <? 1 then DEFAULT_BALANCE_INTERVAL else v)
              (Conf.capmc_path c) (Conf.cap_watts c) (Conf.decrease_rate c)
              (Conf.increase_rate c) (Conf.job_level c)
              (Conf.lower_threshold c) (Conf.recent_job c)
              (Conf.upper_threshold c)
  | None => c
  end.

Definition load_capmc_path (sched_params : string) (c : Conf.t) : Conf.t :=
  let path :=
    match strstr sched_params "capmc_path=" with
    | Some tmp_ptr => str_until "," (str_drop 11 tmp_ptr)
    | None => DEFAULT_CAPMC_PATH
    end in
  Conf.mk (Conf.balance_interval c) path (Conf.cap_watts c)
          (Conf.decrease_rate c) (Conf.increase_rate c) (Conf.job_level c)
          (Conf.lower_threshold c) (Conf.recent_job c)
          (Conf.upper_threshold c).

Definition load_cap_watts (sched_params : string) (c : Conf.t) : Conf.t :=
  match strstr sched_params "cap_watts=" with
  | Some tmp_ptr =>
      let '(v, end_ptr) := strtol (str_drop 10 tmp_ptr) in
      let w := u32 v in
      let w :=
        if w <? 1 then DEFAULT_CAP_WATTS
        else match end_ptr with
             | String "k" _ | String "K" _ => u32 (w * 1000)
             | String "m" _ | String "M" _ => u32 (w * 1000000)
             | _ => w
             end in
      Conf.with_cap_watts c w
  | None => c
  end.

Definition load_decrease_rate (sched_params : string) (c : Conf.t) : Conf.t :=
  match strstr sched_params "decrease_rate=" with
  | Some tmp_ptr =>
      let v := u32 (atoi (str_drop 14 tmp_ptr)) in
      Conf.mk (Conf.balance_interval c) (Conf.capmc_path c) (Conf.cap_watts c)
              v (Conf.increase_rate c) (Conf.job_level c)
              (if v <? 1 then DEFAULT_DECREASE_RATE else Conf.lower_threshold c)
              (Conf.recent_job c) (Conf.upper_threshold c)
  | None => c
  end.

Definition load_increase_rate (sched_params : string) (c : Conf.t) : Conf.t :=
  match strstr sched_params "increase_rate=" with
  | Some tmp_ptr =>
      let v := u32 (atoi (str_drop 14 tmp_ptr)) in
      Conf.mk (Conf.balance_interval c) (Conf.capmc_path c) (Conf.cap_watts c)
              (Conf.decrease_rate c) v (Conf.job_level c)
              (if v <? 1 then DEFAULT_INCREASE_RATE else Conf.lower_threshold c)
              (Conf.recent_job c) (Conf.upper_threshold c)
  | None => c
  end.

Definition load_job_level (sched_params : string) (c : Conf.t) : Conf.t :=
  let v := if is_found (strstr sched_params "job_level") then 1
           else if is_found (strstr sched_params "job_no_level") then 0
           else NO_VAL in
  Conf.mk (Conf.balance_interval c) (Conf.capmc_path c) (Conf.cap_watts c)
          (Conf.decrease_rate c) (Conf.increase_rate c) v
          (Conf.lower_threshold c) (Conf.recent_job c)
          (Conf.upper_threshold c).

Definition load_lower_threshold (sched_params : string) (c : Conf.t) : Conf.t :=
  match strstr sched_params "lower_threshold=" with
  | Some tmp_ptr =>
      let v := u32 (atoi (str_drop 16 tmp_ptr)) in
      Conf.mk (Conf.balance_interval c) (Conf.capmc_path c) (Conf.cap_watts c)
              (Conf.decrease_rate c) (Conf.increase_rate c) (Conf.job_level c)
              (if v <? 1 then DEFAULT_LOWER_THRESHOLD else v)
              (Conf.recent_job c) (Conf.upper_threshold c)
  | None => c
  end.

Definition load_recent_job (sched_params : string) (c : Conf.t) : Conf.t :=
  match strstr sched_params "recent_job=" with
  | Some tmp_ptr =>
      let v := u32 (atoi (str_drop 11 tmp_ptr)) in
      Conf.mk (Conf.balance_interval c) (Conf.capmc_path c) (Conf.cap_watts c)
              (Conf.decrease_rate c) (Conf.increase_rate c) (Conf.job_level c)
              (Conf.lower_threshold c)
              (if v <? 1 then DEFAULT_RECENT_JOB else v)
              (Conf.upper_threshold c)
  | None => c
  end.

Definition load_upper_threshold (sched_params : string) (c : Conf.t) : Conf.t :=
  match strstr sched_params "upper_threshold=" with
  | Some tmp_ptr =>
      let v := u32 (atoi (str_drop 16 tmp_ptr)) in
      Conf.mk (Conf.balance_interval c) (Conf.capmc_path c) (Conf.cap_watts c)
              (Conf.decrease_rate c) (Conf.increase_rate c) (Conf.job_level c)
              (Conf.lower_threshold c) (Conf.recent_job c)
              (if v <? 1 then DEFAULT_UPPER_THRESHOLD else v)
  | None => c
  end.

(** [_load_config], from the current values of the static variables and
    the [PowerParameters] string ([None]: no string, defaults kept). *)
Definition _load_config (c : Conf.t) (power_parameters : option string)
  : Conf.t :=
  let sched_params := match power_parameters with
                      | Some s => s
                      | None => EmptyString
                      end in
  load_upper_threshold sched_params
    (load_recent_job sched_params
      (load_lower_threshold sched_params
        (load_job_level sched_params
          (load_increase_rate sched_params
            (load_decrease_rate sched_params
              (load_cap_watts sched_params
                (load_capmc_path sched_params
                  (load_balance_interval sched_params c)))))))).


(* ------------------------------------------------------------------ *)
(** ** Allocator: the table of required updates *)

(** Modelled from the spec: [power_by_nodes_t], one change record, is
    declared in power_common.h, which is not among the sources; it
    carries the new watts value, the direction and the nid list.
    [nodes] is the comma separated list as the walk builds it, before
    the final range compression. *)
Record power_by_nodes_t : Type := mk_power_by_nodes {
  alloc_watts : Z;
  increase_power : bool;
  nodes : string
}.

(** The inner loop "Look for other nodes with same change", run on the
    nodes that follow [node_ptr] in the table: returns the extended nid
    list and those nodes, with [cap_watts] overwritten on every node it
    added.  (The C loop makes [node_record_count] steps from
    [node_ptr + 1] and so runs past the last node; the table is all the
    model has, and the walk stops at its end.) *)
Fixpoint fold_same_change (increase : bool) (nids : string)
  (tbl : node_table) : string * node_table :=
  match tbl with
  | [] => (nids, [])
  | n2 :: rest =>
      match power n2 with
      | None =>
          let '(s, rest') := fold_same_change increase nids rest in
          (s, n2 :: rest')
      | Some p2 =>
          if cap_watts p2 =? new_cap_watts p2 then  (* No change *)
            let '(s, rest') := fold_same_change increase nids rest in
            (s, n2 :: rest')
          else if (new_cap_watts p2 <? cap_watts p2) && increase then
            let '(s, rest') := fold_same_change increase nids rest in
            (s, n2 :: rest')
          else
            (* Add NID to this update record *)
            let nids' :=
              (nids ++ "," ++ _node_name2nid (name n2))%string in
            (* Avoid adding this node record again *)
            let n2' := set_power n2 (set_cap_watts p2 (new_cap_watts p2)) in
            let '(s, rest') := fold_same_change increase nids' rest in
            (s, n2' :: rest')
      end
  end.

(** The outer loop "Build table required updates to power caps";
    [count] is the number of nodes left to visit.  Returns the update
    list in append order and the table as the walk leaves it. *)
Fixpoint build_updates (count : nat) (tbl : node_table)
  : list power_by_nodes_t * node_table :=
  match count, tbl with
  | S k, n :: rest =>
      match power n with
      | None =>
          let '(l, rest') := build_updates k rest in (l, n :: rest')
      | Some p =>
          if cap_watts p =? new_cap_watts p then  (* No change *)
            let '(l, rest') := build_updates k rest in (l, n :: rest')
          else
            let increase := cap_watts p <? new_cap_watts p in
            let '(nids, rest1) :=
              fold_same_change increase (_node_name2nid (name n)) rest in
            let '(l, rest') := build_updates k rest1 in
            (mk_power_by_nodes (new_cap_watts p) increase nids :: l,
             n :: rest')
      end
  | _, _ => ([], tbl)
  end.

(** The first three phases of [_rebalance_node_power]: classification,
    budget clawback, distribution.  [now] is [time(NULL)]; [None] is the
    division by zero of the budget step. *)
Definition rebalance_caps (c : Conf.t) (now : Z) (tbl : node_table)
  : option node_table :=
  let '(tbl_a, t) := phase_a c tbl tally0 in
  match phase_b c tbl_a t with
  | None => None
  | Some b =>
      Some (phase_c c (now - Conf.recent_job c) (b_table b)
                    (b_avail_power b) (node_power_raise_cnt t))
  end.

(** The proposed caps when the allocator has run: after the levelling. *)
Definition allocate_caps (c : Conf.t) (now : Z) (job_list : list job_record)
  (tbl : node_table) : option node_table :=
  option_map (phase_d c job_list) (rebalance_caps c now tbl).

(** [_rebalance_node_power] up to the update list: the list, and the
    node table as the walk leaves it. *)
Definition _rebalance_node_power (c : Conf.t) (now : Z)
  (job_list : list job_record) (tbl : node_table)
  : option (list power_by_nodes_t * node_table) :=
  option_map (fun tbl_d => build_updates (List.length tbl_d) tbl_d)
             (allocate_caps c now job_list tbl).

(* ------------------------------------------------------------------ *)
(** ** Cap applier, [_set_power_caps] *)

Section Applier.

(** [power_run_script] for [set_power_cap]: the exit status of the child
    process, which may depend on what was dispatched before. *)
Variable power_run_script :
  list power_by_nodes_t -> power_by_nodes_t -> Z.

(** Pass 1; the flag is false when the pass returned on a failure. *)
Fixpoint decrease_pass (l trace : list power_by_nodes_t)
  : list power_by_nodes_t * bool :=
  match l with
  | [] => (trace, true)
  | node_power :: l' =>
      if increase_power node_power then decrease_pass l' trace
      else
        let status := power_run_script trace node_power in
        let trace' := trace ++ [node_power] in
        if negb (status =? 0) then (trace', false)
        else decrease_pass l' trace'
  end.

(** Pass 2: a failure is logged and the walk goes on. *)
Fixpoint increase_pass (l trace : list power_by_nodes_t)
  : list power_by_nodes_t :=
  match l with
  | [] => trace
  | node_power :: l' =>
      if negb (increase_power node_power) then increase_pass l' trace
      else increase_pass l' (trace ++ [node_power])
  end.

(** The records dispatched to [set_power_cap], in dispatch order. *)
Definition _set_power_caps (node_power_list : option (list power_by_nodes_t))
  : list power_by_nodes_t :=
  match node_power_list with
  | None => []
  | Some l =>
      let '(trace, completed) := decrease_pass l [] in
      if completed then increase_pass l trace else trace
  end.

End Applier.

(* ------------------------------------------------------------------ *)
(** ** Energy ingest, [_get_node_energy_counter] *)

(** [power_config_nodes_t]: one parsed telemetry entry. *)
Module Ent.
Record t : Type := mk {
  accel_max_watts : Z;
  accel_min_watts : Z;
  cap_watts : Z;
  joule_counter : Z;
  node_max_watts : Z;
  node_min_watts : Z;
  node_name : list string;   (* node_cnt is its length *)
  state : Z;
  time_usec : Z
}.
End Ent.

(** [usecs_day = 24 * 60 * 60; usecs_day *= 1000000;] *)
Definition usecs_day : Z := u64 (24 * 60 * 60 * 1000000).

(** [delta_time] between the entry and the stored sample. *)
Definition energy_delta_time (e_time p_time : Z) : Z :=
  if (e_time =? 0) || (p_time =? 0) then 0
  else if p_time <? e_time then u64 (e_time - p_time)
  else if (e_time <? p_time) && (p_time <? u64 (e_time + usecs_day))
  then u64 (u64 (e_time + usecs_day) - p_time)
  else 0.

(** What the loop body does to the power record of a node it found. *)
Definition energy_sample (e : Ent.t) (p : power_mgmt_data_t)
  : power_mgmt_data_t :=
  let delta_time := energy_delta_time (Ent.time_usec e) (time_usec p) in
  let p1 :=
    if negb (delta_time =? 0) && (joule_counter p <? Ent.joule_counter e)
    then
      let delta_joules := u64 (Ent.joule_counter e - joule_counter p) in
      let delta_joules := u64 (delta_joules * 1000000) in
      set_current_watts p (u32 (delta_joules / delta_time))
    else p in
  set_energy p1 (Ent.joule_counter e) (Ent.time_usec e).

(** The sweep before the entries are applied: a missing power record is
    allocated (zero filled), an existing one has [current_watts] reset. *)
Definition energy_sweep (n : node_record) : node_record :=
  match power n with
  | None => set_power n power_zero
  | Some p => set_power n (set_current_watts p 0)
  end.

(** [find_node_record2] followed by the update of the node found.
    Modelled from the spec: [find_node_record2] belongs to the node
    inventory, which is not among the sources; it looks a node up by
    name, here the first node of the table with that name; no node, no
    change. *)
Fixpoint energy_apply (e : Ent.t) (node_name : string) (tbl : node_table)
  : node_table :=
  match tbl with
  | [] => []
  | n :: rest =>
      if String.eqb (name n) node_name then
        match power n with
        | Some p => set_power n (energy_sample e p) :: rest
        | None => n :: rest
        end
      else n :: energy_apply e node_name rest
  end.

Definition energy_entry (tbl : node_table) (e : Ent.t) : node_table :=
  fold_left (fun t nm => energy_apply e nm t) (Ent.node_name e) tbl.

(** The locked part of [_get_node_energy_counter] on the parsed
    entries. *)
Definition _get_node_energy_counter (ents : list Ent.t) (tbl : node_table)
  : node_table :=
  fold_left energy_entry ents (map energy_sweep tbl).

(* ------------------------------------------------------------------ *)
(** ** The classification as the specification words it *)

Inductive node_class : Type := Lowered | Kept | Pressing.

(** Thresholds read as percentages of the installed cap. *)
Definition spec_class (c : Conf.t) (p : power_mgmt_data_t) : node_class :=
  if current_watts p * 100 <? cap_watts p * Conf.lower_threshold c
  then Lowered
  else if current_watts p * 100 <? cap_watts p * Conf.upper_threshold c
  then Kept
  else Pressing.

(** The branch the first loop takes for a ready, initialised node. *)
Definition code_class (c : Conf.t) (p : power_mgmt_data_t) : node_class :=
  if current_watts p <? u32 (cap_watts p * Conf.lower_threshold c)
  then Lowered
  else if current_watts p <? u32 (cap_watts p * Conf.upper_threshold c)
  then Kept
  else Pressing.

(* ------------------------------------------------------------------ *)
(** ** Auxiliary notions used by the statements *)

(** A dispatched record that lowers a cap. *)
Definition is_decrease (r : power_by_nodes_t) : bool :=
  negb (increase_power r).

(** A text made of decimal digits only, and the number it denotes when
    read after a prefix worth [acc]. *)
Fixpoint all_digits (s : string) : bool :=
  match s with
  | String c s' => is_digit c && all_digits s'
  | EmptyString => true
  end.

Fixpoint digits_value (s : string) (acc : Z) : Z :=
  match s with
  | String c s' => digits_value s' (acc * 10 + digit_val c)
  | EmptyString => acc
  end.

(** The proposed caps of the nodes a job's levelling acts on, in table
    order, and the sum of a list of watt values. *)
Fixpoint level_members (bitmap : list bool) (tbl : node_table) : list Z :=
  match bitmap, tbl with
  | bit :: bitmap', n :: rest =>
      if level_member bit n
      then node_new_cap n :: level_members bitmap' rest
      else level_members bitmap' rest
  | _, _ => []
  end.

Definition sum_watts (l : list Z) : Z := fold_right Z.add 0 l.

(** Does the job's bitmap hold node [i]. *)
Definition job_has_node (job : job_record) (i : nat) : bool :=
  match node_bitmap job with
  | Some bitmap => nth i bitmap false
  | None => false
  end.

(** Is the node one the levelling loops act on (ready, with a power
    record), and the number of such nodes under the set bits of a
    bitmap, read off the readiness of the table's nodes. *)
Definition node_ready (n : node_record) : bool :=
  match power n with
  | Some p => state p =? 1
  | None => false
  end.

Fixpoint count_members (bitmap ready : list bool) : nat :=
  match bitmap, ready with
  | bit :: bitmap', r :: ready' =>
      ((if bit && r then 1 else 0) + count_members bitmap' ready')%nat
  | _, _ => 0%nat
  end.

Definition job_members (job : job_record) (tbl : node_table) : nat :=
  match node_bitmap job with
  | Some bitmap => count_members bitmap (map node_ready tbl)
  | None => 0%nat
  end.

(** Can the job's levelling write node [i]: the job is running and
    selected by the setting, its bitmap holds the node, and it has at
    least two ready nodes with a power record. *)
Definition job_levels (c : Conf.t) (tbl : node_table) (i : nat)
  (job : job_record) : bool :=
  level_selected c job && job_has_node job i
  && (2 <=? job_members job tbl)%nat.

(** Levelling passes node [i] by: the node is not ready, levelling is
    forced off, or no job of the list can write it. *)
Definition levelling_passes (c : Conf.t) (jobs : list job_record)
  (tbl : node_table) (i : nat) (p : power_mgmt_data_t) : Prop :=
  state p <> 1 \/ Conf.job_level c = 0
  \/ Forall (fun job => job_levels c tbl i job = false) jobs.

(** A ready node that the first loop leaves without a proposed cap: it
    has no installed cap or no power reading, or it takes neither the
    "lower" nor the "retain" branch of the loop's tests. *)
Definition deferred (c : Conf.t) (p : power_mgmt_data_t) : bool :=
  (cap_watts p =? 0) || (current_watts p =? 0)
  || (negb (current_watts p <? u32 (cap_watts p * Conf.lower_threshold c))
      && negb (current_watts p
               <? u32 (cap_watts p * Conf.upper_threshold c))).

(** A ready node whose cap the first loop lowers, and the watts it
    takes off the installed cap: [MIN(tmp_u32, ave_power)]. *)
Definition lowered (c : Conf.t) (p : power_mgmt_data_t) : bool :=
  negb ((cap_watts p =? 0) || (current_watts p =? 0))
  && (current_watts p <? u32 (cap_watts p * Conf.lower_threshold c)).

Definition lowering_step (c : Conf.t) (p : power_mgmt_data_t) : Z :=
  Z.min (u32 (u32 (max_watts p - min_watts p) * Conf.decrease_rate c) / 100)
        (u32 (cap_watts p - current_watts p) / 2).

(** The proposed cap the first loop gives a node that is not ready. *)
Definition not_ready_cap (p : power_mgmt_data_t) : Z :=
  if cap_watts p =? 0 then max_watts p else cap_watts p.

(** The selection of jobs as the [job_level] setting words it: every
    running job when forced on, the running jobs that carry the level
    flag when left to the jobs. *)
Definition job_level_selects (c : Conf.t) (job : job_record) : Prop :=
  job_running job = true /\
  (Conf.job_level c = 1 \/
   (Conf.job_level c = NO_VAL /\
    Z.land (power_flags job) SLURM_POWER_FLAGS_LEVEL <> 0)).

(** The estimate of the energy ingest in exact arithmetic: no estimate
    (0) when a timestamp is zero, when the counter did not grow, or when
    the timestamps are equal or a day or more apart; the elapsed time is
    taken across midnight only when the fresh timestamp is the smaller
    one. *)
Definition watts_estimate (prev_joules prev_time joules time : Z) : Z :=
  if (time =? 0) || (prev_time =? 0) || (joules <=? prev_joules) then 0
  else if prev_time <? time
  then (joules - prev_joules) * 1000000 / (time - prev_time)
  else if (time <? prev_time) && (prev_time <? time + 86400000000)
  then (joules - prev_joules) * 1000000 / (time + 86400000000 - prev_time)
  else 0.

(** The estimate as the claim words it: the midnight case is taken
    whenever the plain difference is not positive and adding a day makes
    the fresh timestamp the larger one. *)
Definition claimed_watts_estimate (prev_joules prev_time joules time : Z) : Z :=
  if (time =? 0) || (prev_time =? 0) || (joules <=? prev_joules) then 0
  else if 0 <? time - prev_time
  then (joules - prev_joules) * 1000000 / (time - prev_time)
  else if prev_time <? time + 86400000000
  then (joules - prev_joules) * 1000000 / (time + 86400000000 - prev_time)
  else 0.

(** The (entry, node name) pairs in the order the two nested loops of
    the ingest visit them. *)
Definition energy_requests (ents : list Ent.t) : list (Ent.t * string) :=
  flat_map (fun e => map (pair e) (Ent.node_name e)) ents.

(** [find_node_record2] finds position [i]: the first node named [nm]. *)
Definition first_named (tbl : node_table) (nm : string) (i : nat) : Prop :=
  nth_error (map name tbl) i = Some nm /\
  forall k, (k < i)%nat -> nth_error (map name tbl) k <> Some nm.

(** The stored sample of a node when the entries are applied. *)
Definition stored_power (n : node_record) : power_mgmt_data_t :=
  match power n with
  | Some p => p
  | None => power_zero
  end.

(** One step of the ingest on a pair of [energy_requests]. *)
Definition apply_request (t : node_table) (r : Ent.t * string) : node_table :=
  energy_apply (fst r) (snd r) t.

(** Sum of the proposed caps over the table, and the number of placed
    nodes (those with a nonzero proposed cap). *)
Definition sum_new_cap (tbl : node_table) : Z :=
  sum_watts (map node_new_cap tbl).

Fixpoint placed_count (tbl : node_table) : Z :=
  match tbl with
  | [] => 0
  | n :: rest =>
      (if node_new_cap n =? 0 then 0 else 1) + placed_count rest
  end.

(** A placed node that can give back [red] watts without reaching its
    floor [min_watts]. *)
Definition not_floored (red : Z) (n : node_record) : Prop :=
  match power n with
  | Some p =>
      new_cap_watts p <> 0 ->
      0 <= min_watts p /\
      min_watts p + red <= new_cap_watts p < 4294967296
  | None => True
  end.

(** The watts fields of a power record hold 32-bit values. *)
Definition power_in_range (p : power_mgmt_data_t) : Prop :=
  in_u32 (cap_watts p) /\ in_u32 (current_watts p) /\
  in_u32 (max_watts p) /\ in_u32 (min_watts p).

(** A function on power records lifted to the nodes that have one. *)
Definition node_map (f : power_mgmt_data_t -> power_mgmt_data_t)
  (n : node_record) : node_record :=
  match power n with
  | Some p => set_power n (f p)
  | None => n
  end.

(** What the clawback loop does to one power record. *)
Definition clawback_node (red1 : Z) (p : power_mgmt_data_t)
  : power_mgmt_data_t :=
  if new_cap_watts p =? 0 then p
  else set_new_cap_watts p
         (u32 (new_cap_watts p
               - Z.min (u32 (new_cap_watts p - min_watts p)) red1)).

(* ------------------------------------------------------------------ *)
(** ** Example inputs *)

(** A node named after its nid, with a power record. *)
Definition example_node (nid : Z) (p : power_mgmt_data_t) : node_record :=
  mk_node (nid_node_name nid) (Some p).

(** Two ready nodes capped at 300 W and drawing 290 W, capabilities
    100 W to 400 W. *)
Definition example_two_busy : node_table :=
  [example_node 1 (mk_power 300 290 0 0 400 100 0 1 0);
   example_node 2 (mk_power 300 290 0 0 400 100 0 1 0)].

(** What the budget step must return on [example_two_busy] under a
    budget of 500 W. *)
Definition example_two_busy_budget : budget :=
  mk_budget
    [example_node 1 (mk_power 300 290 0 250 400 100 0 1 0);
     example_node 2 (mk_power 300 290 0 250 400 100 0 1 0)]
    500 0.

(** A table on which the allocator leaves caps outside the capability
    range: a ready node without a power reading, a ready node whose
    installed cap is above its [max_watts], and two ready nodes of one
    job with disjoint capability ranges. *)
Definition example_out_of_range : node_table :=
  [example_node 1 (mk_power 300 0 0 0 400 100 0 1 0);
   example_node 2 (mk_power 500 480 0 0 400 100 0 1 0);
   example_node 3 (mk_power 160 140 0 0 200 100 0 1 0);
   example_node 4 (mk_power 360 340 0 0 400 300 0 1 0)].

Definition example_level_job : job_record :=
  mk_job true (Some [false; false; true; true]) 0.

Definition example_force_level : Conf.t :=
  Conf.mk 30 DEFAULT_CAPMC_PATH 10000 50 20 1 90 300 95.

(** Three ready nodes proposed 100 W, 200 W and 400 W, and two running
    jobs that share the middle one. *)
Definition example_shared_table : node_table :=
  [example_node 1 (mk_power 300 0 0 100 400 100 0 1 0);
   example_node 2 (mk_power 300 0 0 200 400 100 0 1 0);
   example_node 3 (mk_power 300 0 0 400 400 100 0 1 0)].

Definition example_shared_first : job_record :=
  mk_job true (Some [true; true; false]) 0.

Definition example_shared_second : job_record :=
  mk_job true (Some [false; true; true]) 0.

(** Two ready nodes that draw more than their installed caps, a job on
    both, and forced levelling under a budget of 1000 W. *)
Definition example_over_cap : node_table :=
  [example_node 1 (mk_power 120 125 0 0 400 100 0 1 0);
   example_node 2 (mk_power 121 126 0 0 400 100 0 1 0)].

Definition example_both_job : job_record :=
  mk_job true (Some [true; true]) 0.

Definition example_small_budget : Conf.t :=
  Conf.with_cap_watts example_force_level 1000.

(** A node that is not ready in front of a ready one, both capped at
    300 W, and the default settings under a budget of 500 W. *)
Definition example_not_ready_first : node_table :=
  [example_node 1 (mk_power 300 0 0 0 400 100 0 0 0);
   example_node 2 (mk_power 300 290 0 0 400 100 0 1 0)].

Definition example_tight_budget : Conf.t :=
  Conf.with_cap_watts Conf.initial 500.

(** The range the claim gives a node, from its record before the run
    and the cap proposed by the run: the capability range for a ready
    node, the installed cap (or [max_watts] when there is none) for a
    node that is not ready. *)
Definition claimed_in_range (p : power_mgmt_data_t) (w : Z) : Prop :=
  if state p =? 1 then min_watts p <= w <= max_watts p
  else w = not_ready_cap p.

(** A report line within the capability range, for a ready node. *)
Definition report_in_range (r : Z * Z * Z * Z) : Prop :=
  let '(st, mn, w, mx) := r in st = 1 -> mn <= w <= mx.

(** For each node with a power record: readiness, floor, proposed cap,
    ceiling. *)
Definition cap_report (tbl : node_table) : list (Z * Z * Z * Z) :=
  flat_map (fun n => match power n with
                     | Some p => [(state p, min_watts p, new_cap_watts p,
                                   max_watts p)]
                     | None => []
                     end) tbl.

(** A telemetry entry for one node: joules and time of day. *)
Definition example_entry (nid joules time : Z) : Ent.t :=
  Ent.mk 0 0 0 joules 0 0 [nid_node_name nid] 0 time.

(** A node whose stored sample is (joules, time). *)
Definition example_sampled (nid joules time : Z) : node_record :=
  example_node nid (mk_power 0 0 joules 0 0 0 0 1 time).
From Stdlib Require Import Permutation.


(* ------------------------------------------------------------------ *)
(** ** Further notions used by the statements *)

(** A node whose proposed cap equals its installed cap (or that has no
    power record): the update walk passes over it. *)
Definition cap_unchanged (n : node_record) : Prop :=
  match power n with
  | Some p => cap_watts p = new_cap_watts p
  | None => True
  end.

(** A node whose proposed cap is not above its installed cap. *)
Definition cap_not_raised (n : node_record) : Prop :=
  match power n with
  | Some p => new_cap_watts p <= cap_watts p
  | None => True
  end.

(** A node the levelling cannot act on: no power record, or not ready. *)
Definition not_ready (n : node_record) : Prop :=
  match power n with
  | Some p => state p <> 1
  | None => True
  end.

(** The settings whose validators keep them at 1 or more. *)
Definition conf_valid (c : Conf.t) : Prop :=
  1 <= Conf.balance_interval c /\ 1 <= Conf.lower_threshold c /\
  1 <= Conf.upper_threshold c /\ 1 <= Conf.recent_job c.

(** The factor of a [cap_watts] suffix character. *)
Definition cap_suffix_scale (sfx : ascii) : Z :=
  if (Ascii.eqb sfx "k" || Ascii.eqb sfx "K")%bool then 1000
  else if (Ascii.eqb sfx "m" || Ascii.eqb sfx "M")%bool then 1000000
  else 1.

(** A node that has a power record. *)
Definition has_power (n : node_record) : Prop := power n <> None.

(* ------------------------------------------------------------------ *)
(** ** Capability, cap and readiness ingests *)

(** [find_node_record2] followed by an update of the node found, with
    the power record allocated (zero filled) first when it is missing:
    the first node of the table with that name; no node, no change. *)
Fixpoint node_update (f : power_mgmt_data_t -> power_mgmt_data_t)
  (node_name : string) (tbl : node_table) : node_table :=
  match tbl with
  | [] => []
  | n :: rest =>
      if String.eqb (name n) node_name
      then set_power n (f (stored_power n)) :: rest
      else n :: node_update f node_name rest
  end.

Definition set_watts_range (mn mx : Z) (p : power_mgmt_data_t) :=
  mk_power (cap_watts p) (current_watts p) (joule_counter p)
           (new_cap_watts p) mx mn (new_job_time p) (state p) (time_usec p).

Definition set_state (st : Z) (p : power_mgmt_data_t) :=
  mk_power (cap_watts p) (current_watts p) (joule_counter p)
           (new_cap_watts p) (max_watts p) (min_watts p) (new_job_time p)
           st (time_usec p).

(** The locked part of [_get_capabilities] on the parsed groups: every
    node a group names gets the group's node range. *)
Definition capabilities_entry (tbl : node_table) (e : Ent.t) : node_table :=
  fold_left
    (fun t nm =>
       node_update (set_watts_range (Ent.node_min_watts e)
                                    (Ent.node_max_watts e)) nm t)
    (Ent.node_name e) tbl.

Definition _get_capabilities (ents : list Ent.t) (tbl : node_table)
  : node_table :=
  fold_left capabilities_entry ents tbl.

(** The locked part of [_get_caps] on the parsed entries.  The loop
    reads [ents[i].node_name[0]]; an entry without a name has a NULL
    [node_name], and the result is [None]. *)
Fixpoint _get_caps (ents : list Ent.t) (tbl : node_table)
  : option node_table :=
  match ents with
  | [] => Some tbl
  | e :: ents' =>
      match Ent.node_name e with
      | [] => None
      | nm :: _ =>
          _get_caps ents'
            (node_update (fun p => set_cap_watts p (Ent.cap_watts e)) nm tbl)
      end
  end.

(** The sweep of [_get_nodes_ready]: a missing power record is allocated
    (zero filled), an existing one has [state] reset. *)
Definition ready_sweep (n : node_record) : node_record :=
  match power n with
  | None => set_power n power_zero
  | Some p => set_power n (set_state 0 p)
  end.

(** [node_ptr->power->state = ents[i].state] on the node found. *)
Fixpoint ready_apply (e : Ent.t) (node_name : string) (tbl : node_table)
  : node_table :=
  match tbl with
  | [] => []
  | n :: rest =>
      if String.eqb (name n) node_name then
        match power n with
        | Some p => set_power n (set_state (Ent.state e) p) :: rest
        | None => n :: rest
        end
      else n :: ready_apply e node_name rest
  end.

Definition ready_entry (tbl : node_table) (e : Ent.t) : node_table :=
  fold_left (fun t nm => ready_apply e nm t) (Ent.node_name e) tbl.

(** The locked part of [_get_nodes_ready] on the parsed entries. *)
Definition _get_nodes_ready (ents : list Ent.t) (tbl : node_table)
  : node_table :=
  fold_left ready_entry ents (map ready_sweep tbl).

(** One step of the capability and of the readiness ingest on a pair of
    [energy_requests]. *)
Definition capabilities_request (t : node_table) (r : Ent.t * string)
  : node_table :=
  node_update (set_watts_range (Ent.node_min_watts (fst r))
                               (Ent.node_max_watts (fst r))) (snd r) t.

Definition ready_request (t : node_table) (r : Ent.t * string) : node_table :=
  ready_apply (fst r) (snd r) t.

(** Is the name among the names of the requests. *)
Definition named_in (nm : string) (l : list (Ent.t * string)) : bool :=
  existsb (String.eqb nm) (map snd l).

(* ------------------------------------------------------------------ *)
(** ** Clearing the caps, [_clear_node_caps] *)

(** Text before the last [c] of [s], when [c] occurs:
    [sep = strrchr(s, c)] and [sep[0] = 0]. *)
Fixpoint cut_last (c : ascii) (s : string) : option string :=
  match s with
  | EmptyString => None
  | String a s' =>
      match cut_last c s' with
      | Some p => Some (String a p)
      | None => if Ascii.eqb a c then Some EmptyString else None
      end
  end.

(** The bracket removal applied to a ranged string: cut at the last
    closing bracket, then skip a leading opening bracket. *)
Definition strip_brackets (tmp_str : string) : string :=
  let t := match cut_last "]" tmp_str with
           | Some p => p
           | None => tmp_str
           end in
  match t with
  | String "[" r => r
  | _ => t
  end.

(** Is the node one whose cap is to be cleared: it has a power record, a
    nonzero installed cap, and is ready. *)
Definition clearable (n : node_record) : bool :=
  match power n with
  | Some p => negb (cap_watts p =? 0) && (state p =? 1)
  | None => false
  end.

(** The nids the loop of [_clear_node_caps] puts into the hostset, in
    table order. *)
Fixpoint clear_nids (tbl : node_table) : list string :=
  match tbl with
  | [] => []
  | n :: rest =>
      match power n with
      | None => clear_nids rest
      | Some p =>
          if cap_watts p =? 0 then clear_nids rest  (* No change *)
          else if negb (state p =? 1) then clear_nids rest
          else _node_name2nid (name n) :: clear_nids rest
      end
  end.

Section Hostset.

(** The hostset of [_clear_node_caps]: [hostset_create],
    [hostset_insert] and [hostset_ranged_string] together, from the
    inserted names and the buffer size to the ranged string. *)
Variable hostset_ranged_string : list string -> nat -> string.

(** [_clear_node_caps]: [None] is the NULL list. *)
Definition _clear_node_caps (tbl : node_table)
  : option (list power_by_nodes_t) :=
  match clear_nids tbl with
  | [] => None
  | nids =>
      let tmp_str := hostset_ranged_string nids (List.length nids * 6) in
      Some [mk_power_by_nodes 0 false (strip_brackets tmp_str)]
  end.

End Hostset.

(* ------------------------------------------------------------------ *)
(** ** Time stamps, [_time_str2num] *)

(** One [%d] of [sscanf]: blanks, an optional sign, digits.  The
    number is converted as by [strtol] and stored into the [int]. *)
Definition scan_int (s : string) : option (Z * string) :=
  let s1 := skip_space s in
  let '(neg, s2) :=
    match s1 with
    | String "-" r => (true, r)
    | String "+" r => (false, r)
    | _ => (false, s1)
    end in
  if starts_with_digit s2 then
    let '(v, e) := read_digits s2 0 in
    Some (to_int (clamp_long (if neg then - v else v)), e)
  else None.

(** What one [%d] stores for a run of digits. *)
Definition scanned (ds : string) : Z :=
  to_int (clamp_long (digits_value ds 0)).

(** The directives of a [sscanf] format: [%d], a literal character, a
    blank (which matches any run of blanks, also none). *)
Inductive directive : Type :=
| Dint
| Dlit (c : ascii)
| Dblank.

(** The integers [sscanf] assigns, in order; their number is the value
    [sscanf] returns when at least one is assigned. *)
Fixpoint sscanf_ints (fmt : list directive) (s : string) : list Z :=
  match fmt with
  | [] => []
  | Dint :: fmt' =>
      match scan_int s with
      | Some (v, r) => v :: sscanf_ints fmt' r
      | None => []
      end
  | Dlit c :: fmt' =>
      match s with
      | String a r => if Ascii.eqb a c then sscanf_ints fmt' r else []
      | EmptyString => []
      end
  | Dblank :: fmt' => sscanf_ints fmt' (skip_space s)
  end.

(** ["%d-%d-%d %d:%d:%d.%d-%d"] *)
Definition time_format : list directive :=
  [Dint; Dlit "-"; Dint; Dlit "-"; Dint; Dblank; Dint; Dlit ":"; Dint;
   Dlit ":"; Dint; Dlit "."; Dint; Dlit "-"; Dint].

(** [_time_str2num]: microseconds since the start of the day.  The
    fields are [int] values and the seconds are summed in [int]
    arithmetic (written here with the wrap-around of the 32-bit
    operations), then converted to [uint64_t]. *)
Definition _time_str2num (time_str : string) : Z :=
  let vals := sscanf_ints time_format time_str in
  let hour := nth 3 vals 0 in
  let min := nth 4 vals 0 in
  let sec := nth 5 vals 0 in
  let u_sec := nth 6 vals 0 in
  if (6 <=? List.length vals)%nat then
    let total_usecs := u64 (to_int ((((hour * 60) + min) * 60) + sec)) in
    let total_usecs := u64 (total_usecs * 1000000) in
    u64 (total_usecs + u_sec)
  else 0.

(** The name [_get_caps] looks up for an entry, when it has one that
    differs from [nm]. *)
Definition caps_names_other (nm : string) (e : Ent.t) : Prop :=
  exists nm' more, Ent.node_name e = nm' :: more /\ nm' <> nm.

(** A text without brackets. *)
Fixpoint no_bracket (s : string) : bool :=
  match s with
  | EmptyString => true
  | String c s' =>
      negb (Ascii.eqb c "[") && negb (Ascii.eqb c "]") && no_bracket s'
  end.

(** A non-empty run of decimal digits. *)
Definition is_number (s : string) : Prop :=
  all_digits s = true /\ s <> EmptyString.

Definition starts_with (c : ascii) (s : string) : bool :=
  match s with
  | String a _ => Ascii.eqb a c
  | EmptyString => false
  end.

(** The text of a time stamp: date, time of day, and what follows the
    seconds. *)
Definition time_text (y mo d h mi se tail : string) : string :=
  (y ++ String "-" (mo ++ String "-" (d ++ String " "
     (h ++ String ":" (mi ++ String ":" (se ++ tail))))))%string.

(* ================================================================== *)
(** * Properties *)

(* ------------------------------------------------------------------ *)
(** ** Machine arithmetic *)

Lemma u32_add_l (a b : Z) : u32 (u32 a + b) = u32 (a + b).
Proof. unfold u32. apply Zplus_mod_idemp_l. Qed.

Lemma u32_small (a : Z) : in_u32 a -> u32 a = a.
Proof. unfold u32, in_u32. intro H. now apply Z.mod_small. Qed.

Lemma u32_range (a : Z) : in_u32 (u32 a).
Proof. unfold u32, in_u32. apply Z.mod_pos_bound. lia. Qed.

Lemma u64_small (a : Z) : in_u64 a -> u64 a = a.
Proof. unfold u64, in_u64. intro H. now apply Z.mod_small. Qed.

Lemma u64_mul_l (a b : Z) : u64 (u64 a * b) = u64 (a * b).
Proof. unfold u64. apply Zmult_mod_idemp_l. Qed.

(* ------------------------------------------------------------------ *)
(** ** Classification (first loop) *)

(** What the loop does with a ready node whose cap and reading are both
    nonzero: the branch is chosen by [code_class], that is by unscaled
    comparisons of [current_watts] with [cap_watts * threshold]. *)
Lemma classify_node_ready (c : Conf.t) (p : power_mgmt_data_t) (t : tally) :
  state p = 1 -> cap_watts p <> 0 -> current_watts p <> 0 ->
  new_cap_watts (fst (classify_node c p t)) =
    match code_class c p with
    | Lowered =>
        Z.max (u32 (cap_watts p
                    - Z.min (u32 (u32 (max_watts p - min_watts p)
                                  * Conf.decrease_rate c) / 100)
                            (u32 (cap_watts p - current_watts p) / 2)))
              (min_watts p)
    | Kept => Z.max (cap_watts p) (min_watts p)
    | Pressing => 0
    end.
Proof.
  intros Hs Hc Hw. unfold classify_node, code_class.
  rewrite Hs. simpl.
  apply Z.eqb_neq in Hc, Hw. rewrite Hc, Hw. simpl.
  destruct (current_watts p <? u32 (cap_watts p * Conf.lower_threshold c));
    [reflexivity|].
  destruct (current_watts p <? u32 (cap_watts p * Conf.upper_threshold c));
    reflexivity.
Qed.

(** C1 (fails on the code).  The claim classifies a ready node by
    [current_watts * 100 < cap_watts * threshold]; the loop compares
    [current_watts] itself with [cap_watts * threshold].  At the default
    thresholds a node drawing 290 W under a 300 W cap is pressing for the
    claim (29000 is neither below 27000 nor below 28500), but the loop
    lowers its cap to 295 W and counts it in [node_power_lower_cnt]. *)
Theorem classify_node_threshold_not_scaled :
  let c := Conf.with_cap_watts Conf.initial 1000 in
  let p := mk_power 300 290 0 0 400 100 0 1 0 in
  state p = 1 /\ cap_watts p <> 0 /\ current_watts p <> 0 /\
  spec_class c p = Pressing /\
  code_class c p = Lowered /\
  new_cap_watts (fst (classify_node c p tally0)) = 295 /\
  node_power_lower_cnt (snd (classify_node c p tally0)) = 1 /\
  node_power_raise_cnt (snd (classify_node c p tally0)) = 0.
Proof.
  cbv zeta. repeat split; try reflexivity; discriminate.
Qed.

(* ------------------------------------------------------------------ *)
(** ** Budget step: the divisor *)

Lemma phase_b_none_iff (c : Conf.t) (tbl : node_table) (t : tally) :
  phase_b c tbl t = None <->
  clawback_runs c t = true /\ clawback_divisor t = 0.
Proof.
  unfold phase_b. destruct (clawback_runs c t).
  - destruct (Z.eqb_spec (clawback_divisor t) 0) as [E|E].
    + tauto.
    + destruct (clawback _ tbl _). split; [discriminate|tauto].
  - split; [discriminate | intros [H _]; discriminate].
Qed.

(** C10 (fails on the code).  One node that is not ready and holds a
    300 W cap, under a budget of 100 W: the first loop reserves 300 W
    and counts no lowered and no kept node, the clawback branch runs
    ([alloc_power > cap_watts]) and its divisor is zero. *)
Theorem clawback_divisor_zero_reachable :
  let c := Conf.with_cap_watts Conf.initial 100 in
  let tbl := [mk_node "nid00001" (Some (mk_power 300 0 0 0 400 100 0 0 0))] in
  let t := snd (phase_a c tbl tally0) in
  alloc_power t = 300 /\
  clawback_runs c t = true /\
  clawback_divisor t = 0 /\
  phase_b c (fst (phase_a c tbl tally0)) t = None /\
  _rebalance_node_power c 0 [] tbl = None.
Proof.
  cbv zeta. repeat split; reflexivity.
Qed.

(* ------------------------------------------------------------------ *)
(** ** Configuration *)

(** The validator of [lower_threshold] resets its own key and writes no
    other. *)
Lemma load_lower_threshold_resets (s tmp_ptr : string) (c : Conf.t) :
  strstr s "lower_threshold=" = Some tmp_ptr ->
  u32 (atoi (str_drop 16 tmp_ptr)) < 1 ->
  Conf.lower_threshold (load_lower_threshold s c) = DEFAULT_LOWER_THRESHOLD.
Proof.
  intros Hs Hv. unfold load_lower_threshold. rewrite Hs.
  apply Z.ltb_lt in Hv. cbv zeta. rewrite Hv. reflexivity.
Qed.

Lemma load_lower_threshold_others (s : string) (c : Conf.t) :
  let c' := load_lower_threshold s c in
  Conf.balance_interval c' = Conf.balance_interval c /\
  Conf.cap_watts c' = Conf.cap_watts c /\
  Conf.decrease_rate c' = Conf.decrease_rate c /\
  Conf.increase_rate c' = Conf.increase_rate c /\
  Conf.recent_job c' = Conf.recent_job c /\
  Conf.upper_threshold c' = Conf.upper_threshold c.
Proof.
  unfold load_lower_threshold. destruct (strstr s _); simpl; tauto.
Qed.

(** C6 (fails on the code).  With [decrease_rate=0] the loader leaves
    [decrease_rate] at 0 and overwrites [lower_threshold] with
    [DEFAULT_DECREASE_RATE]; with [increase_rate=0] it leaves
    [increase_rate] at 0 and overwrites [lower_threshold] with
    [DEFAULT_INCREASE_RATE]. *)
Theorem load_config_rate_resets_lower_threshold :
  let c1 := _load_config Conf.initial (Some "decrease_rate=0"%string) in
  let c2 := _load_config Conf.initial (Some "increase_rate=0"%string) in
  Conf.lower_threshold Conf.initial = 90 /\
  Conf.decrease_rate c1 = 0 /\ Conf.lower_threshold c1 = 50 /\
  Conf.increase_rate c2 = 0 /\ Conf.lower_threshold c2 = 20.
Proof.
  cbv zeta. repeat split; reflexivity.
Qed.

(* ------------------------------------------------------------------ *)
(** ** Update records *)

(** C7 (fails on the code).  Two ready nodes with a 300 W cap drawing
    100 W and 200 W: the allocator proposes 200 W for the first and
    250 W for the second.  The walk emits one record of 200 W whose nid
    list holds both nodes, and marks the second node as done.  Likewise
    a node whose cap is to rise from 2 W to 400 W is folded into the
    decrease record of 200 W that precedes it. *)
Theorem build_updates_folds_other_watts :
  let c := Conf.with_cap_watts Conf.initial 1000 in
  let tbl := [example_node 0 (mk_power 300 100 0 0 400 100 0 1 0);
              example_node 1 (mk_power 300 200 0 0 400 100 0 1 0)] in
  let tbl2 := [example_node 0 (mk_power 300 100 0 0 400 100 0 1 0);
               example_node 1 (mk_power 2 290 0 0 400 100 0 1 0)] in
  option_map (map node_new_cap) (allocate_caps c 0 [] tbl) = Some [200; 250] /\
  option_map fst (_rebalance_node_power c 0 [] tbl) =
    Some [mk_power_by_nodes 200 false "0,1"] /\
  option_map (map node_new_cap) (allocate_caps c 0 [] tbl2) = Some [200; 400] /\
  option_map fst (_rebalance_node_power c 0 [] tbl2) =
    Some [mk_power_by_nodes 200 false "0,1"].
Proof.
  cbv zeta. repeat split; reflexivity.
Qed.

(* ------------------------------------------------------------------ *)
(** ** Cap applier *)

Section ApplierFacts.

Variable run : list power_by_nodes_t -> power_by_nodes_t -> Z.

Lemma increase_pass_trace (l trace : list power_by_nodes_t) :
  increase_pass l trace = trace ++ filter increase_power l.
Proof.
  revert trace. induction l as [|r l IH]; intro trace; simpl.
  - now rewrite app_nil_r.
  - destruct (increase_power r); simpl.
    + rewrite IH, <- app_assoc. reflexivity.
    + apply IH.
Qed.

Lemma decrease_pass_trace (l trace : list power_by_nodes_t) :
  exists ds,
    fst (decrease_pass run l trace) = trace ++ ds /\
    Forall (fun r => increase_power r = false) ds /\
    (snd (decrease_pass run l trace) = true -> ds = filter is_decrease l).
Proof.
  revert trace. induction l as [|r l IH]; intro trace; simpl.
  - exists []. rewrite app_nil_r. auto.
  - unfold is_decrease at 1. destruct (increase_power r) eqn:Hr; simpl.
    + apply IH.
    + destruct (run trace r =? 0); simpl.
      * destruct (IH (trace ++ [r])) as (ds & H1 & H2 & H3).
        exists (r :: ds). rewrite H1, <- app_assoc. simpl.
        repeat split; auto. intro H. now rewrite <- H3.
      * exists [r]. repeat split; auto. discriminate.
Qed.

End ApplierFacts.

(** C5.  Whatever the exit statuses of the child process, the dispatch
    trace of [_set_power_caps] is a run of decrease records followed by a
    run of increase records (none, or all of the list in order); and
    when an increase record is dispatched at all, the decrease run is
    every decrease record of the list, in order. *)
Theorem set_power_caps_decreases_first
  (run : list power_by_nodes_t -> power_by_nodes_t -> Z)
  (l : list power_by_nodes_t) :
  exists ds incs,
    _set_power_caps run (Some l) = ds ++ incs /\
    Forall (fun r => increase_power r = false) ds /\
    Forall (fun r => increase_power r = true) incs /\
    (incs = [] \/ incs = filter increase_power l) /\
    (incs <> [] -> ds = filter is_decrease l).
Proof.
  unfold _set_power_caps.
  destruct (decrease_pass_trace run l []) as (ds & H1 & H2 & H3).
  destruct (decrease_pass run l []) as [trace completed]. simpl in *.
  subst trace. destruct completed.
  - exists ds, (filter increase_power l). rewrite increase_pass_trace.
    repeat split; auto.
    apply Forall_forall. intros r Hr. apply filter_In in Hr. tauto.
  - exists ds, []. rewrite app_nil_r. repeat split; auto; congruence.
Qed.

(* ------------------------------------------------------------------ *)
(** ** Nid round trip *)

Lemma str_app_assoc (s1 s2 s3 : string) :
  ((s1 ++ s2) ++ s3 = s1 ++ (s2 ++ s3))%string.
Proof. induction s1 as [|c s1 IH]; simpl; [reflexivity | now rewrite IH]. Qed.

Lemma str_app_nil_r (s : string) : (s ++ EmptyString)%string = s.
Proof. induction s as [|c s IH]; simpl; [reflexivity | now rewrite IH]. Qed.

Lemma str_length_app (s1 s2 : string) :
  String.length (s1 ++ s2) = (String.length s1 + String.length s2)%nat.
Proof. induction s1 as [|c s1 IH]; simpl; [reflexivity | now rewrite IH]. Qed.

Lemma digit_char_spec (d : Z) :
  0 <= d <= 9 ->
  is_digit (digit_char d) = true /\ digit_val (digit_char d) = d.
Proof.
  intro H.
  assert (d = 0 \/ d = 1 \/ d = 2 \/ d = 3 \/ d = 4 \/ d = 5 \/ d = 6
          \/ d = 7 \/ d = 8 \/ d = 9) as Hd by lia.
  repeat (destruct Hd as [Hd|Hd]; [subst d; split; reflexivity|]).
  subst d; split; reflexivity.
Qed.

Lemma all_digits_app (s1 s2 : string) :
  all_digits (s1 ++ s2) = all_digits s1 && all_digits s2.
Proof.
  induction s1 as [|c s1 IH]; simpl; [reflexivity|].
  now rewrite IH, andb_assoc.
Qed.

Lemma digits_value_app (s1 s2 : string) (acc : Z) :
  digits_value (s1 ++ s2) acc = digits_value s2 (digits_value s1 acc).
Proof.
  revert acc. induction s1 as [|c s1 IH]; intro acc; simpl; auto.
Qed.

Lemma read_digits_all (s : string) (acc : Z) :
  all_digits s = true ->
  read_digits s acc = (digits_value s acc, EmptyString).
Proof.
  revert acc. induction s as [|c s IH]; intros acc H; simpl in *.
  - reflexivity.
  - apply andb_true_iff in H as [Hc Hs]. rewrite Hc. now apply IH.
Qed.

(** The digits [dec_digits] puts in front of [acc] denote [n]. *)
Lemma dec_digits_spec (k : nat) :
  forall (n : Z) (acc : string),
    0 <= n < 10 ^ Z.of_nat k ->
    exists s,
      dec_digits k n acc = (s ++ acc)%string /\
      all_digits s = true /\
      forall a, digits_value s a = a * 10 ^ Z.of_nat (String.length s) + n.
Proof.
  induction k as [|k IH]; intros n acc Hn.
  - exists EmptyString. simpl in *. repeat split; auto. intro a. lia.
  - simpl dec_digits.
    assert (Hd : 0 <= n mod 10 <= 9) by (pose proof (Z.mod_pos_bound n 10); lia).
    destruct (digit_char_spec _ Hd) as [Hd1 Hd2].
    destruct (Z.eqb_spec (n / 10) 0) as [Hq|Hq].
    + exists (String (digit_char (n mod 10)) EmptyString).
      simpl. rewrite Hd1, Hd2. repeat split; auto.
      intro a. pose proof (Z.div_mod n 10). lia.
    + assert (Hn' : 0 <= n / 10 < 10 ^ Z.of_nat k).
      { rewrite Nat2Z.inj_succ, Z.pow_succ_r in Hn by lia.
        split; [apply Z.div_pos; lia|].
        apply Z.div_lt_upper_bound; lia. }
      destruct (IH (n / 10) (String (digit_char (n mod 10)) acc) Hn')
        as (s & Hs1 & Hs2 & Hs3).
      exists (s ++ String (digit_char (n mod 10)) EmptyString)%string.
      repeat split.
      * rewrite Hs1, str_app_assoc. reflexivity.
      * rewrite all_digits_app, Hs2. simpl. now rewrite Hd1.
      * intro a. rewrite digits_value_app, Hs3. simpl. rewrite Hd2.
        rewrite str_length_app. simpl String.length.
        rewrite Nat.add_1_r, Nat2Z.inj_succ, Z.pow_succ_r by lia.
        pose proof (Z.div_mod n 10). lia.
Qed.

(** A number below [10 ^ m] is written with at most [m] digits. *)
Lemma dec_digits_length (k : nat) :
  forall (n : Z) (acc : string) (m : nat),
    0 <= n < 10 ^ Z.of_nat m -> (1 <= m)%nat ->
    (String.length (dec_digits k n acc) <= m + String.length acc)%nat.
Proof.
  induction k as [|k IH]; intros n acc m Hn Hm; simpl.
  - lia.
  - destruct (Z.eqb_spec (n / 10) 0) as [Hq|Hq]; simpl; [lia|].
    destruct m as [|m]; [lia|].
    rewrite Nat2Z.inj_succ, Z.pow_succ_r in Hn by lia.
    assert (Hq' : 0 <= n / 10 < 10 ^ Z.of_nat m).
    { split; [apply Z.div_pos; lia | apply Z.div_lt_upper_bound; lia]. }
    assert (Hm' : (1 <= m)%nat).
    { destruct m; [simpl in Hq'; lia | lia]. }
    specialize (IH (n / 10) (String (digit_char (n mod 10)) acc) m Hq' Hm').
    simpl in IH. lia.
Qed.

Lemma fmt_u_spec (n : Z) :
  0 <= n ->
  all_digits (fmt_u n) = true /\ digits_value (fmt_u n) 0 = n.
Proof.
  intro Hn. unfold fmt_u.
  assert (Hb : 0 <= n < 10 ^ Z.of_nat (S (Z.to_nat (Z.log2 n)))).
  { split; [lia|].
    rewrite Nat2Z.inj_succ, Z2Nat.id by apply Z.log2_nonneg.
    destruct (Z.eq_dec n 0) as [->|Hz]; [reflexivity|].
    pose proof (Z.log2_spec n ltac:(lia)) as [_ H2].
    eapply Z.lt_le_trans; [exact H2|].
    apply Z.pow_le_mono_l. pose proof (Z.log2_nonneg n). lia. }
  destruct (dec_digits_spec _ n EmptyString Hb) as (s & H1 & H2 & H3).
  rewrite H1, str_app_nil_r. split; [exact H2|].
  rewrite H3. lia.
Qed.

Lemma zeros_spec (k : nat) :
  all_digits (zeros k) = true /\ digits_value (zeros k) 0 = 0
  /\ String.length (zeros k) = k.
Proof.
  induction k as [|k (IH1 & IH2 & IH3)]; simpl; auto.
Qed.

(** Skipping leading zeros keeps the digits, the number, and all but at
    most [k] characters. *)
Lemma skip_zeros_spec (k : nat) :
  forall s : string,
    all_digits s = true ->
    all_digits (skip_zeros k s) = true
    /\ digits_value (skip_zeros k s) 0 = digits_value s 0
    /\ (String.length s <= String.length (skip_zeros k s) + k)%nat.
Proof.
  induction k as [|k IH]; intros s Hs.
  - simpl. repeat split; auto. destruct s; simpl; lia.
  - destruct s as [|c s]; simpl.
    + repeat split; auto. lia.
    + destruct (Ascii.eqb_spec c "0"%char) as [->|Hc].
      * simpl in Hs. destruct (IH s Hs) as (H1 & H2 & H3).
        repeat split; auto. simpl. lia.
      * repeat split; auto. simpl. lia.
Qed.

Lemma is_digit_not_space (c : ascii) :
  is_digit c = true -> is_space c = false.
Proof.
  unfold is_digit, is_space. intro H.
  apply andb_true_iff in H as [H1 H2].
  apply N.leb_le in H1, H2.
  apply orb_false_iff. split.
  - apply N.eqb_neq. lia.
  - apply andb_false_iff. right. apply N.leb_gt. lia.
Qed.

Lemma is_digit_not_sign (c : ascii) :
  is_digit c = true -> c <> "-"%char /\ c <> "+"%char.
Proof.
  intro H. split; intros ->; discriminate H.
Qed.

Lemma digit_val_range (c : ascii) :
  is_digit c = true -> 0 <= digit_val c <= 9.
Proof.
  unfold is_digit, digit_val. intro H.
  apply andb_true_iff in H as [H1 H2].
  apply N.leb_le in H1, H2. lia.
Qed.

Lemma digits_value_nonneg (s : string) :
  forall acc : Z,
    all_digits s = true -> 0 <= acc -> 0 <= digits_value s acc.
Proof.
  induction s as [|c s IH]; intros acc Hd Hacc; cbn [digits_value];
    [exact Hacc|].
  cbn [all_digits] in Hd. apply andb_true_iff in Hd as [Hc Hs].
  apply IH; [exact Hs|]. pose proof (digit_val_range c Hc). lia.
Qed.

Lemma clamp_long_small (x : Z) :
  LONG_MIN <= x <= LONG_MAX -> clamp_long x = x.
Proof. unfold clamp_long. lia. Qed.

Lemma clamp_long_nonneg (x : Z) :
  0 <= x -> clamp_long x = Z.min x LONG_MAX.
Proof. unfold clamp_long, LONG_MIN, LONG_MAX. lia. Qed.

Lemma to_int_small (x : Z) :
  -2147483648 <= x < 2147483648 -> to_int x = x.
Proof.
  intro H. unfold to_int. rewrite Z.mod_small by lia. lia.
Qed.

Lemma u32_to_int (x : Z) : u32 (to_int x) = u32 x.
Proof.
  unfold u32, to_int.
  rewrite <- (Z.mod_add (_ - _) 1 4294967296) by lia.
  replace ((x + 2147483648) mod 4294967296 - 2147483648 + 1 * 4294967296)
    with ((x + 2147483648) mod 4294967296 + 2147483648) by lia.
  rewrite Z.add_mod_idemp_l by lia.
  replace (x + 2147483648 + 2147483648) with (x + 1 * 4294967296) by lia.
  now rewrite Z.mod_add by lia.
Qed.

(** [atoi] on a non-empty run of digits reads the number they denote,
    cut to the range of [long] and then to an [int]. *)
Lemma atoi_digits (s : string) :
  all_digits s = true -> s <> EmptyString ->
  atoi s = to_int (clamp_long (digits_value s 0)).
Proof.
  intros Hs Hne. destruct s as [|c s]; [congruence|].
  simpl in Hs. apply andb_true_iff in Hs as [Hc Hs].
  unfold atoi, strtol. simpl skip_space.
  rewrite (is_digit_not_space c Hc).
  destruct (is_digit_not_sign c Hc) as [Hm Hp].
  assert (Hsign :
    match String c s with
    | String "-"%char r => (true, r)
    | String "+"%char r => (false, r)
    | _ => (false, String c s)
    end = (false, String c s)).
  { destruct c as [[] [] [] [] [] [] [] []]; try reflexivity;
      congruence. }
  rewrite Hsign. simpl starts_with_digit. rewrite Hc.
  rewrite read_digits_all by (simpl; now rewrite Hc, Hs).
  reflexivity.
Qed.

(** The first digit [dec_digits] writes for a positive number is not a
    zero. *)
Lemma dec_digits_head (k : nat) :
  forall (n : Z) (acc : string),
    0 < n < 10 ^ Z.of_nat k ->
    exists c s, dec_digits k n acc = String c s /\ c <> "0"%char.
Proof.
  induction k as [|k IH]; intros n acc Hn.
  - simpl in Hn. lia.
  - simpl dec_digits.
    destruct (Z.eqb_spec (n / 10) 0) as [Hq|Hq].
    + exists (digit_char (n mod 10)), acc. split; [reflexivity|].
      assert (Hd : 0 <= n mod 10 <= 9)
        by (pose proof (Z.mod_pos_bound n 10); lia).
      destruct (digit_char_spec _ Hd) as [_ Hv].
      intro E. rewrite E in Hv. unfold digit_val in Hv. simpl in Hv.
      pose proof (Z.div_mod n 10). lia.
    + apply IH.
      rewrite Nat2Z.inj_succ, Z.pow_succ_r in Hn by lia.
      split.
      * assert (0 <= n / 10) by (apply Z.div_pos; lia). lia.
      * apply Z.div_lt_upper_bound; lia.
Qed.

Lemma fmt_u_head (n : Z) :
  0 < n -> exists c s, fmt_u n = String c s /\ c <> "0"%char.
Proof.
  intro Hn. unfold fmt_u. apply dec_digits_head. split; [lia|].
  rewrite Nat2Z.inj_succ, Z2Nat.id by apply Z.log2_nonneg.
  pose proof (Z.log2_spec n ltac:(lia)) as [_ H2].
  eapply Z.lt_le_trans; [exact H2|].
  apply Z.pow_le_mono_l. pose proof (Z.log2_nonneg n). lia.
Qed.

(** The loop skips a padding of at most [fuel] zeros in front of a text
    that does not begin with a zero, and nothing more. *)
Lemma skip_zeros_padding (k : nat) :
  forall (fuel : nat) (c : ascii) (s : string),
    (k <= fuel)%nat -> c <> "0"%char ->
    skip_zeros fuel (zeros k ++ String c s) = String c s.
Proof.
  induction k as [|k IH]; intros fuel c s Hk Hc.
  - cbn [zeros append]. destruct fuel as [|fuel]; [reflexivity|].
    cbn [skip_zeros]. destruct (Ascii.eqb_spec c "0"%char); congruence.
  - destruct fuel as [|fuel]; [lia|].
    cbn [zeros append skip_zeros]. rewrite Ascii.eqb_refl.
    apply IH; [lia | exact Hc].
Qed.

(** C9.  For every nid between 0 and 99999, the node name built with
    ["nid%5.5d"] has eight characters, and [_node_name2nid] of it is the
    plain decimal numeral of the nid: the prefix and the leading zeros
    are gone (the text begins with a zero only for nid 0, whose numeral
    is that zero), what is left is a non-empty decimal text, and [atoi]
    reads it back as the nid. *)
Theorem nid_round_trip (n : Z) :
  0 <= n <= 99999 ->
  String.length (nid_node_name n) = 8%nat /\
  _node_name2nid (nid_node_name n) = fmt_u n /\
  starts_with "0" (_node_name2nid (nid_node_name n)) = (n =? 0) /\
  all_digits (_node_name2nid (nid_node_name n)) = true /\
  _node_name2nid (nid_node_name n) <> EmptyString /\
  atoi (_node_name2nid (nid_node_name n)) = n.
Proof.
  intros [Hn Hmax].
  destruct (fmt_u_spec n Hn) as [Hd Hv].
  assert (Hlen : (String.length (fmt_u n) <= 5)%nat).
  { pose proof (dec_digits_length (S (Z.to_nat (Z.log2 n))) n EmptyString 5)
      as H. simpl String.length in H. rewrite Nat.add_0_r in H.
    apply H; [simpl; lia | lia]. }
  assert (Hneg : (n <? 0) = false) by (apply Z.ltb_ge; lia).
  assert (Hstrip : _node_name2nid (nid_node_name n) = fmt_u n).
  { destruct (Z.eq_dec n 0) as [->|Hz]; [reflexivity|].
    destruct (fmt_u_head n ltac:(lia)) as (c & s & Hf & Hc).
    unfold nid_node_name, fmt_5_5d. rewrite Hneg.
    set (k := (5 - String.length (fmt_u n))%nat).
    change (_node_name2nid ("nid" ++ (zeros k ++ fmt_u n)))
      with (skip_zeros 4 (zeros k ++ fmt_u n)).
    assert (Hk : (k <= 4)%nat).
    { unfold k. rewrite Hf. simpl String.length. lia. }
    rewrite Hf. now apply skip_zeros_padding. }
  assert (Hname : String.length (nid_node_name n) = 8%nat).
  { unfold nid_node_name, fmt_5_5d. rewrite Hneg.
    set (k := (5 - String.length (fmt_u n))%nat).
    destruct (zeros_spec k) as (_ & _ & Hz3).
    simpl. rewrite str_length_app, Hz3. unfold k. lia. }
  assert (Hne : fmt_u n <> EmptyString).
  { destruct (Z.eq_dec n 0) as [->|Hz]; [discriminate|].
    destruct (fmt_u_head n ltac:(lia)) as (c & s & Hf & _).
    rewrite Hf. discriminate. }
  split; [exact Hname|]. split; [exact Hstrip|]. rewrite Hstrip.
  split.
  { destruct (Z.eqb_spec n 0) as [->|Hz]; [reflexivity|].
    destruct (fmt_u_head n ltac:(lia)) as (c & s & Hf & Hc).
    rewrite Hf. cbn [starts_with]. now apply Ascii.eqb_neq. }
  split; [exact Hd|]. split; [exact Hne|].
  rewrite atoi_digits, Hv by assumption.
  rewrite clamp_long_small by (unfold LONG_MIN, LONG_MAX; lia).
  apply to_int_small. lia.
Qed.

(** The round trip of nid 42: ["nid00042"], ["42"], 42. *)
Lemma nid_round_trip_witness :
  0 <= 42 <= 99999 /\
  String.length (nid_node_name 42) = 8%nat /\
  _node_name2nid (nid_node_name 42) = fmt_u 42 /\
  starts_with "0" (_node_name2nid (nid_node_name 42)) = (42 =? 0) /\
  all_digits (_node_name2nid (nid_node_name 42)) = true /\
  _node_name2nid (nid_node_name 42) <> EmptyString /\
  atoi (_node_name2nid (nid_node_name 42)) = 42.
Proof.
  split; [lia | apply (nid_round_trip 42); lia].
Defined.

(* ------------------------------------------------------------------ *)
(** ** Levelling by job *)

Lemma level_scan_members (bitmap : list bool) :
  forall (tbl : node_table) (s : level_sum),
    level_scan bitmap tbl s = fold_left level_add (level_members bitmap tbl) s.
Proof.
  induction bitmap as [|bit bitmap IH]; intros [|n rest] s; simpl; auto.
  destruct (level_member bit n); simpl; apply IH.
Qed.

Lemma fold_level_add_totals (l : list Z) :
  forall s : level_sum,
    in_u32 (total_watts s) -> in_u32 (total_nodes s) ->
    total_watts (fold_left level_add l s) = u32 (total_watts s + sum_watts l)
    /\ total_nodes (fold_left level_add l s)
       = u32 (total_nodes s + Z.of_nat (List.length l)).
Proof.
  induction l as [|w l IH]; intros s Hw Hn.
  - simpl. rewrite !Z.add_0_r, !u32_small by assumption. auto.
  - simpl fold_left.
    destruct (IH (level_add s w)) as [H1 H2]; try apply u32_range.
    rewrite H1, H2. simpl total_watts. simpl total_nodes.
    rewrite !u32_add_l. simpl sum_watts. simpl List.length.
    split; f_equal; lia.
Qed.

Lemma fold_level_add_bounds (l : list Z) :
  forall (s : level_sum) (x : Z),
    let s' := fold_left level_add l s in
    lv_min_watts s' <= lv_min_watts s /\ lv_max_watts s <= lv_max_watts s'
    /\ (In x l -> lv_min_watts s' <= x <= lv_max_watts s').
Proof.
  induction l as [|w l IH]; intros s x; simpl.
  - split; [lia | split; [lia | intros []]].
  - destruct (IH (level_add s w) x) as (H1 & H2 & H3).
    simpl in H1, H2.
    assert (lv_min_watts (fold_left level_add l (level_add s w)) <= w
            <= lv_max_watts (fold_left level_add l (level_add s w))) as Hw.
    { destruct (Z.ltb_spec (lv_max_watts s) w),
               (Z.ltb_spec w (lv_min_watts s)); lia. }
    split; [|split].
    + destruct (Z.ltb_spec w (lv_min_watts s)); lia.
    + destruct (Z.ltb_spec (lv_max_watts s) w); lia.
    + intros [->|Hin]; [exact Hw | now apply H3].
Qed.

Lemma level_set_member (bitmap : list bool) :
  forall (tbl : node_table) (ave : Z) (i : nat) (bit : bool) (n : node_record),
    nth_error bitmap i = Some bit -> nth_error tbl i = Some n ->
    level_member bit n = true ->
    exists n', nth_error (level_set bitmap tbl ave) i = Some n'
               /\ node_new_cap n' = ave /\ name n' = name n.
Proof.
  induction bitmap as [|b bitmap IH]; intros [|m rest] ave [|i] bit n Hb Hn Hm;
    simpl in *; try discriminate.
  - injection Hb as ->. injection Hn as ->. rewrite Hm.
    unfold level_member in Hm. destruct (power n) as [p|] eqn:Hp.
    + eexists. split; [reflexivity|]. split; reflexivity.
    + rewrite andb_false_r in Hm. discriminate.
  - eapply IH; eauto.
Qed.

(** Levelling leaves alone every node outside the job's bitmap. *)
Lemma level_set_other (bitmap : list bool) :
  forall (tbl : node_table) (ave : Z) (i : nat) (n : node_record),
    nth_error tbl i = Some n -> nth i bitmap false = false ->
    nth_error (level_set bitmap tbl ave) i = Some n.
Proof.
  induction bitmap as [|b bitmap IH]; intros [|m rest] ave [|i] n Hn Hb;
    simpl in *; try discriminate; auto.
  subst b. simpl. exact Hn.
Qed.

Lemma level_job_other (c : Conf.t) (job : job_record) (tbl : node_table)
  (i : nat) (n : node_record) :
  nth_error tbl i = Some n -> job_has_node job i = false ->
  nth_error (level_job c job tbl) i = Some n.
Proof.
  unfold level_job, job_has_node. intros Hn Hb.
  destruct (node_bitmap job) as [bitmap|]; [|exact Hn].
  destruct (negb (level_selected c job)); [exact Hn|].
  destruct (total_nodes _ <? 2); [exact Hn|].
  destruct (lv_min_watts _ =? lv_max_watts _); [exact Hn|].
  now apply level_set_other.
Qed.

Lemma level_set_not_member (bitmap : list bool) :
  forall (tbl : node_table) (ave : Z) (i : nat) (n : node_record),
    nth_error tbl i = Some n -> not_ready n ->
    nth_error (level_set bitmap tbl ave) i = Some n.
Proof.
  induction bitmap as [|b bitmap IH]; intros [|m rest] ave [|i] n Hn Hnr;
    simpl in *; try discriminate; auto.
  injection Hn as ->. unfold level_member, not_ready in *.
  destruct (power n) as [p|]; [|now rewrite andb_false_r].
  apply Z.eqb_neq in Hnr. rewrite Hnr. now rewrite andb_false_r.
Qed.

Lemma level_job_not_ready (c : Conf.t) (job : job_record) (tbl : node_table)
  (i : nat) (n : node_record) :
  nth_error tbl i = Some n -> not_ready n ->
  nth_error (level_job c job tbl) i = Some n.
Proof.
  unfold level_job. intros Hn Hnr.
  destruct (node_bitmap job) as [bitmap|]; [|exact Hn].
  destruct (negb (level_selected c job)); [exact Hn|].
  destruct (total_nodes _ <? 2); [exact Hn|].
  destruct (lv_min_watts _ =? lv_max_watts _); [exact Hn|].
  now apply level_set_not_member.
Qed.

(** The members of a job are counted off the readiness of the nodes,
    which no phase of the allocator changes. *)
Lemma level_member_ready (bit : bool) (n : node_record) :
  level_member bit n = bit && node_ready n.
Proof. reflexivity. Qed.

Lemma level_members_count (bitmap : list bool) :
  forall tbl : node_table,
    List.length (level_members bitmap tbl)
    = count_members bitmap (map node_ready tbl).
Proof.
  induction bitmap as [|bit bitmap IH]; intros [|n rest]; simpl; auto.
  rewrite level_member_ready.
  destruct (bit && node_ready n); simpl; now rewrite IH.
Qed.

Lemma node_map_ready (f : power_mgmt_data_t -> power_mgmt_data_t)
  (n : node_record) :
  (forall p, state (f p) = state p) ->
  node_ready (node_map f n) = node_ready n.
Proof.
  intro Hf. unfold node_map, node_ready.
  destruct (power n) as [p|] eqn:Hp; [|now rewrite Hp].
  simpl. now rewrite Hf.
Qed.

Lemma map_node_map_ready (f : power_mgmt_data_t -> power_mgmt_data_t)
  (tbl : node_table) :
  (forall p, state (f p) = state p) ->
  map node_ready (map (node_map f) tbl) = map node_ready tbl.
Proof.
  intro Hf. rewrite map_map. apply map_ext.
  intro n. now apply node_map_ready.
Qed.

Lemma classify_node_state (c : Conf.t) (p : power_mgmt_data_t) (t : tally) :
  state (fst (classify_node c p t)) = state p.
Proof.
  unfold classify_node.
  destruct (negb (state p =? 1)); [reflexivity|].
  destruct ((cap_watts p =? 0) || (current_watts p =? 0)); [reflexivity|].
  destruct (current_watts p <? _); [reflexivity|].
  destruct (current_watts p <? _); reflexivity.
Qed.

Lemma clawback_node_state (red1 : Z) (p : power_mgmt_data_t) :
  state (clawback_node red1 p) = state p.
Proof.
  unfold clawback_node. destruct (new_cap_watts p =? 0); reflexivity.
Qed.

Lemma raise_loop_ready (c : Conf.t) (recent : Z) (tbl : node_table) :
  forall avail cnt ave : Z,
    map node_ready (raise_loop c recent tbl avail cnt ave)
    = map node_ready tbl.
Proof.
  induction tbl as [|n rest IH]; intros avail cnt ave; simpl;
    [reflexivity|].
  destruct (power n) as [p|] eqn:Hp; [|simpl; now rewrite IH].
  destruct (negb (new_cap_watts p =? 0)); [simpl; now rewrite IH|].
  assert (Hn : node_ready
                 (set_power n
                    (set_new_cap_watts p (raise_cap c recent p ave)))
               = node_ready n).
  { unfold node_ready. now rewrite Hp. }
  destruct (u32 (cnt - 1) =? 0); simpl; rewrite Hn; [reflexivity|].
  now rewrite IH.
Qed.

Lemma level_set_ready (bitmap : list bool) :
  forall (tbl : node_table) (ave : Z),
    map node_ready (level_set bitmap tbl ave) = map node_ready tbl.
Proof.
  induction bitmap as [|bit bitmap IH]; intros [|n rest] ave; simpl;
    try reflexivity.
  rewrite IH. f_equal.
  destruct (level_member bit n); [|reflexivity].
  unfold node_ready. destruct (power n) as [p|] eqn:Hp; simpl;
    [reflexivity | now rewrite Hp].
Qed.

Lemma level_job_ready (c : Conf.t) (job : job_record) (tbl : node_table) :
  map node_ready (level_job c job tbl) = map node_ready tbl.
Proof.
  unfold level_job. destruct (node_bitmap job) as [bitmap|]; [|reflexivity].
  destruct (negb (level_selected c job)); [reflexivity|].
  destruct (total_nodes _ <? 2); [reflexivity|].
  destruct (lv_min_watts _ =? lv_max_watts _); [reflexivity|].
  apply level_set_ready.
Qed.

(** A job with fewer than two members levels nothing. *)
Lemma level_job_few (c : Conf.t) (job : job_record) (tbl : node_table) :
  (job_members job tbl < 2)%nat -> level_job c job tbl = tbl.
Proof.
  unfold level_job, job_members.
  destruct (node_bitmap job) as [bitmap|]; [|reflexivity].
  intro Hfew. destruct (negb (level_selected c job)); [reflexivity|].
  rewrite level_scan_members. rewrite <- level_members_count in Hfew.
  destruct (level_members bitmap tbl) as [|a [|b l]]; simpl in Hfew;
    [reflexivity | reflexivity | lia].
Qed.

(** A job that cannot write node [i] leaves it alone; so does a list of
    such jobs, and any list for a node that is not ready. *)
Lemma level_job_passes (c : Conf.t) (job : job_record) (tbl : node_table)
  (i : nat) (n : node_record) :
  nth_error tbl i = Some n -> job_levels c tbl i job = false ->
  nth_error (level_job c job tbl) i = Some n.
Proof.
  intros Hn H. unfold job_levels in H.
  apply andb_false_iff in H as [H | Hfew].
  - apply andb_false_iff in H as [Hs | Hb].
    + unfold level_job. destruct (node_bitmap job); [|exact Hn].
      now rewrite Hs.
    + now apply level_job_other.
  - rewrite level_job_few; [exact Hn|].
    apply Nat.leb_gt in Hfew. exact Hfew.
Qed.

Lemma job_levels_ready (c : Conf.t) (tbl tbl' : node_table) (i : nat)
  (job : job_record) :
  map node_ready tbl' = map node_ready tbl ->
  job_levels c tbl' i job = job_levels c tbl i job.
Proof.
  intro H. unfold job_levels, job_members. now rewrite H.
Qed.

Lemma level_power_by_job_passes (c : Conf.t) (tbl0 : node_table)
  (jobs : list job_record) :
  forall (tbl : node_table) (i : nat) (n : node_record),
    map node_ready tbl = map node_ready tbl0 ->
    nth_error tbl i = Some n ->
    not_ready n
    \/ Forall (fun job => job_levels c tbl0 i job = false) jobs ->
    nth_error (_level_power_by_job c jobs tbl) i = Some n.
Proof.
  unfold _level_power_by_job.
  induction jobs as [|job jobs IH]; intros tbl i n Hready Hn Hall; simpl;
    [exact Hn|].
  assert (Hready' : map node_ready (level_job c job tbl)
                    = map node_ready tbl0)
    by (now rewrite level_job_ready).
  destruct Hall as [Hnr | Hall].
  - apply IH; [exact Hready' | | now left].
    now apply level_job_not_ready.
  - inversion Hall as [|? ? Hj Hrest]; subst.
    apply IH; [exact Hready' | | now right].
    apply level_job_passes; [exact Hn|].
    now rewrite (job_levels_ready c tbl0 tbl i job Hready).
Qed.

(** The job loop composes: the jobs before [job], [job], the jobs after. *)
Lemma level_power_by_job_split (c : Conf.t) (pre post : list job_record)
  (job : job_record) (tbl : node_table) :
  _level_power_by_job c (pre ++ job :: post) tbl
  = _level_power_by_job c post
      (level_job c job (_level_power_by_job c pre tbl)).
Proof.
  unfold _level_power_by_job. now rewrite fold_left_app.
Qed.

(** With [job_no_level] no job is levelled. *)
Lemma phase_d_force_off (c : Conf.t) (jobs : list job_record) (tbl : node_table) :
  Conf.job_level c = 0 -> phase_d c jobs tbl = tbl.
Proof. unfold phase_d. now intros ->. Qed.

Lemma job_level_selects_selected (c : Conf.t) (job : job_record) :
  job_level_selects c job ->
  level_selected c job = true /\ Conf.job_level c <> 0.
Proof.
  unfold job_level_selects, level_selected.
  intros [Hr [H1 | [H1 H2]]]; rewrite Hr, H1; simpl.
  - split; [reflexivity | discriminate].
  - apply Z.eqb_neq in H2. rewrite H2. split; [reflexivity | discriminate].
Qed.

(** C8 (amended).  Let the job loop of Phase D reach a running job
    that the [job_level] setting selects, and let [members] be the
    proposed caps of its ready nodes with a power record at that moment
    (the jobs before it in the list already levelled).  If there are at
    least two of them, two of them differ, and their count and sum fit
    in 32 bits, then Phase D sets every such node to the floor of their
    mean; the node holds it when Phase D ends unless a later job of the
    list can write it too (a running job that the setting selects,
    whose bitmap holds the node and which has at least two ready nodes
    with a power record). *)
Theorem level_power_by_job_sets_mean
  (c : Conf.t) (pre post : list job_record) (job : job_record)
  (bitmap : list bool) (tbl : node_table) :
  let tbl0 := phase_d c pre tbl in
  let members := level_members bitmap tbl0 in
  job_level_selects c job ->
  node_bitmap job = Some bitmap ->
  (2 <= List.length members)%nat ->
  (exists a b, In a members /\ In b members /\ a <> b) ->
  in_u32 (Z.of_nat (List.length members)) ->
  in_u32 (sum_watts members) ->
  forall (i : nat) (bit : bool) (n : node_record),
    nth_error bitmap i = Some bit -> nth_error tbl0 i = Some n ->
    level_member bit n = true ->
    Forall (fun later => job_levels c tbl i later = false) post ->
    exists n',
      nth_error (phase_d c (pre ++ job :: post) tbl) i = Some n' /\
      name n' = name n /\
      node_new_cap n' = sum_watts members / Z.of_nat (List.length members).
Proof.
  intros tbl0 members Hsel Hbm Hlen (a & b & Ha & Hb & Hab) Hcnt Hsum
         i bit n Hbit Hn Hmem Hpost.
  destruct (job_level_selects_selected c job Hsel) as [Hs Hlvl].
  assert (Hd : phase_d c (pre ++ job :: post) tbl
               = _level_power_by_job c post (level_job c job tbl0)).
  { unfold tbl0, phase_d. apply Z.eqb_neq in Hlvl. rewrite Hlvl.
    apply level_power_by_job_split. }
  rewrite Hd.
  assert (Hjob : exists n',
             nth_error (level_job c job tbl0) i = Some n' /\
             name n' = name n /\
             node_new_cap n'
             = sum_watts members / Z.of_nat (List.length members)).
  { unfold level_job. rewrite Hbm, Hs. simpl negb. cbv iota.
    rewrite level_scan_members. fold members.
    destruct (fold_level_add_totals members level_sum0) as [Ht Hc];
      [simpl; unfold in_u32; lia .. |].
    simpl in Ht, Hc. rewrite u32_small in Ht, Hc by assumption.
    destruct (fold_level_add_bounds members level_sum0 a) as (_ & _ & Hba).
    destruct (fold_level_add_bounds members level_sum0 b) as (_ & _ & Hbb).
    specialize (Hba Ha). specialize (Hbb Hb). cbv zeta in Hba, Hbb.
    rewrite Ht, Hc.
    destruct (Z.ltb_spec (Z.of_nat (List.length members)) 2) as [Hlt|_];
      [lia|].
    destruct (Z.eqb_spec
                (lv_min_watts (fold_left level_add members level_sum0))
                (lv_max_watts (fold_left level_add members level_sum0)))
      as [E|_]; [lia|].
    destruct (level_set_member bitmap tbl0
                (sum_watts members / Z.of_nat (List.length members))
                i bit n Hbit Hn Hmem) as (n' & H1 & H2 & H3).
    exists n'. auto. }
  destruct Hjob as (n' & H1 & H2 & H3).
  exists n'. split; [|auto].
  assert (Hready0 : map node_ready tbl0 = map node_ready tbl).
  { unfold tbl0, phase_d. destruct (Conf.job_level c =? 0); [reflexivity|].
    unfold _level_power_by_job. clear. revert tbl.
    induction pre as [|j pre IH]; intro tbl; simpl; [reflexivity|].
    now rewrite IH, level_job_ready. }
  apply (level_power_by_job_passes c tbl post);
    [now rewrite level_job_ready | exact H1 | now right].
Qed.

(** A job on two ready nodes proposed 150 W and 350 W, followed in the
    list by a job on the same nodes that is not running and by a running
    job on the second of them alone: both nodes end at 250 W. *)
Lemma level_power_by_job_sets_mean_witness :
  exists n',
    nth_error
      (phase_d example_force_level
         ([] ++ example_level_job
             :: [mk_job false (Some [false; false; true; true]) 0;
                 mk_job true (Some [false; false; true; false]) 0])
         [example_node 1 (mk_power 300 0 0 0 400 100 0 1 0);
          example_node 2 (mk_power 500 480 0 490 400 100 0 1 0);
          example_node 3 (mk_power 160 140 0 150 200 100 0 1 0);
          example_node 4 (mk_power 360 340 0 350 400 300 0 1 0)]) 2
    = Some n' /\
    name n' = nid_node_name 3 /\
    node_new_cap n' = 250.
Proof.
  apply (level_power_by_job_sets_mean example_force_level []
           [mk_job false (Some [false; false; true; true]) 0;
            mk_job true (Some [false; false; true; false]) 0]
           example_level_job [false; false; true; true]
           [example_node 1 (mk_power 300 0 0 0 400 100 0 1 0);
            example_node 2 (mk_power 500 480 0 490 400 100 0 1 0);
            example_node 3 (mk_power 160 140 0 150 200 100 0 1 0);
            example_node 4 (mk_power 360 340 0 350 400 300 0 1 0)])
    with (i := 2%nat) (bit := true)
         (n := example_node 3 (mk_power 160 140 0 150 200 100 0 1 0)).
  - split; [reflexivity | left; reflexivity].
  - reflexivity.
  - simpl. lia.
  - exists 150, 350. simpl. repeat split; auto. discriminate.
  - vm_compute. split; [discriminate | reflexivity].
  - vm_compute. split; [discriminate | reflexivity].
  - reflexivity.
  - reflexivity.
  - reflexivity.
  - repeat constructor.
Defined.

(** C8, as stated, fails in two ways.

    Two running jobs under forced levelling share the middle one of
    three ready nodes proposed 100 W, 200 W and 400 W.  The first job
    has two ready members, 100 W and 200 W, whose mean is 150 W; Phase D
    ends with 150 W, 275 W and 275 W, so its second member does not
    carry its mean: the second job has levelled that node again.

    Two ready nodes capped at 120 W and 121 W and drawing 125 W and
    126 W, under a budget of 1000 W, come out of the distribution with
    2147484148 W and 2147484149 W; a job on both has the mean
    2147484148 W, and Phase D sets both to 500 W: the sum is taken in
    32 bits. *)
Lemma level_power_by_job_not_mean :
  (job_level_selects example_force_level example_shared_first /\
   level_members [true; true; false] example_shared_table = [100; 200] /\
   sum_watts [100; 200] / 2 = 150 /\
   map node_new_cap
       (phase_d example_force_level
                [example_shared_first; example_shared_second]
                example_shared_table)
   = [150; 275; 275] /\
   275 <> sum_watts [100; 200] / 2) /\
  (exists tbl_c,
     rebalance_caps example_small_budget 0 example_over_cap = Some tbl_c /\
     job_level_selects example_small_budget example_both_job /\
     level_members [true; true] tbl_c = [2147484148; 2147484149] /\
     sum_watts [2147484148; 2147484149] / 2 = 2147484148 /\
     map node_new_cap (phase_d example_small_budget [example_both_job] tbl_c)
     = [500; 500] /\
     500 <> sum_watts [2147484148; 2147484149] / 2).
Proof.
  split.
  - split; [split; [reflexivity | left; reflexivity]|].
    split; [reflexivity|]. split; [reflexivity|].
    split; [reflexivity | discriminate].
  - eexists. split; [reflexivity|].
    split; [split; [reflexivity | left; reflexivity]|].
    split; [reflexivity|]. split; [reflexivity|].
    split; [reflexivity | discriminate].
Qed.

(* ------------------------------------------------------------------ *)
(** ** Energy ingest *)

Lemma usecs_day_value : usecs_day = 86400000000.
Proof. reflexivity. Qed.

(** The elapsed time the loop body computes, case by case. *)
Lemma energy_delta_time_cases (t t0 : Z) :
  in_u64 t -> in_u64 t0 -> in_u64 (t + 86400000000) ->
  energy_delta_time t t0 =
    if (t =? 0) || (t0 =? 0) then 0
    else if t0 <? t then t - t0
    else if (t <? t0) && (t0 <? t + 86400000000)
    then t + 86400000000 - t0 else 0.
Proof.
  unfold energy_delta_time, in_u64. intros Ht Ht0 Hd.
  rewrite usecs_day_value.
  destruct ((t =? 0) || (t0 =? 0)); [reflexivity|].
  destruct (Z.ltb_spec t0 t).
  - apply u64_small. unfold in_u64. lia.
  - rewrite (u64_small (t + 86400000000)) by exact Hd.
    destruct (Z.ltb_spec t t0); simpl; [|reflexivity].
    destruct (Z.ltb_spec t0 (t + 86400000000)); [|reflexivity].
    apply u64_small. unfold in_u64. lia.
Qed.

(** The loop body on the record of the node it found. *)
Lemma energy_sample_estimate (e : Ent.t) (p : power_mgmt_data_t) :
  let j := Ent.joule_counter e in
  let t := Ent.time_usec e in
  in_u64 j -> in_u64 t -> in_u64 (t + 86400000000) ->
  in_u64 (joule_counter p) -> in_u64 (time_usec p) ->
  current_watts p = 0 ->
  (joule_counter p < j -> in_u64 ((j - joule_counter p) * 1000000)) ->
  in_u32 (watts_estimate (joule_counter p) (time_usec p) j t) ->
  energy_sample e p =
    set_energy
      (set_current_watts p
         (watts_estimate (joule_counter p) (time_usec p) j t))
      j t.
Proof.
  intros j t Hj Ht Hd Hj0 Ht0 Hw Hfit Hest.
  unfold energy_sample. fold j t.
  rewrite energy_delta_time_cases by assumption.
  unfold watts_estimate in *.
  assert (Hsame : set_current_watts p 0 = p).
  { destruct p; simpl in *; subst; reflexivity. }
  destruct (Z.eqb_spec t 0) as [Et|Et]; simpl orb.
  { simpl. now rewrite Hsame. }
  destruct (Z.eqb_spec (time_usec p) 0) as [Et0|Et0]; simpl orb.
  { simpl. now rewrite Hsame. }
  destruct (Z.leb_spec j (joule_counter p)) as [Hle|Hlt].
  { destruct (Z.ltb_spec (joule_counter p) j); [lia|].
    rewrite andb_false_r. now rewrite Hsame. }
  destruct (Z.ltb_spec (joule_counter p) j) as [_|]; [|lia].
  rewrite andb_true_r.
  rewrite u64_mul_l, (u64_small _ (Hfit Hlt)).
  destruct (Z.ltb_spec (time_usec p) t) as [H1|H1].
  - destruct (Z.eqb_spec (t - time_usec p) 0); [lia|]. simpl negb. cbv iota.
    now rewrite (u32_small _ Hest).
  - destruct (Z.ltb_spec t (time_usec p)) as [H2|H2]; simpl andb.
    + destruct (Z.ltb_spec (time_usec p) (t + 86400000000)) as [H3|H3].
      * destruct (Z.eqb_spec (t + 86400000000 - time_usec p) 0); [lia|].
        simpl negb. cbv iota. now rewrite (u32_small _ Hest).
      * simpl. now rewrite Hsame.
    + simpl. now rewrite Hsame.
Qed.

Lemma energy_counter_as_requests (ents : list Ent.t) (tbl : node_table) :
  _get_node_energy_counter ents tbl
  = fold_left apply_request (energy_requests ents) (map energy_sweep tbl).
Proof.
  unfold _get_node_energy_counter, energy_requests.
  generalize (map energy_sweep tbl) as t.
  induction ents as [|e ents IH]; intro t; simpl; [reflexivity|].
  rewrite fold_left_app, IH. f_equal.
  unfold energy_entry. generalize (Ent.node_name e) as names. clear.
  intro names. revert t.
  induction names as [|nm names IH]; intro t; simpl; [reflexivity|].
  apply IH.
Qed.

Lemma energy_apply_names (e : Ent.t) (nm : string) (tbl : node_table) :
  map name (energy_apply e nm tbl) = map name tbl.
Proof.
  induction tbl as [|n rest IH]; simpl; [reflexivity|].
  destruct (String.eqb (name n) nm).
  - destruct (power n); reflexivity.
  - simpl. now rewrite IH.
Qed.

Lemma energy_apply_other (e : Ent.t) (nm : string) (tbl : node_table) :
  forall (i : nat) (n : node_record),
    nth_error tbl i = Some n -> name n <> nm ->
    nth_error (energy_apply e nm tbl) i = Some n.
Proof.
  induction tbl as [|m rest IH]; intros [|i] n Hn Hne; simpl in *;
    try discriminate.
  - injection Hn as ->. apply String.eqb_neq in Hne. now rewrite Hne.
  - destruct (String.eqb (name m) nm).
    + destruct (power m); simpl; exact Hn.
    + simpl. now apply IH.
Qed.

Lemma energy_apply_found (e : Ent.t) (nm : string) (tbl : node_table) :
  forall (i : nat) (n : node_record) (p : power_mgmt_data_t),
    first_named tbl nm i -> nth_error tbl i = Some n -> power n = Some p ->
    nth_error (energy_apply e nm tbl) i
    = Some (set_power n (energy_sample e p)).
Proof.
  unfold first_named.
  induction tbl as [|m rest IH]; intros [|i] n p [Hnm Hfirst] Hn Hp;
    simpl in *; try discriminate.
  - injection Hn as ->. injection Hnm as Hnm.
    apply String.eqb_eq in Hnm. now rewrite Hnm, Hp.
  - destruct (String.eqb_spec (name m) nm) as [E|E].
    + exfalso. apply (Hfirst 0%nat); [lia | simpl; now rewrite E].
    + simpl. apply IH; auto. split; [exact Hnm|].
      intros k Hk. apply (Hfirst (S k)). lia.
Qed.

Lemma requests_other (l : list (Ent.t * string)) :
  forall (tbl : node_table) (i : nat) (n : node_record),
    nth_error tbl i = Some n -> ~ In (name n) (map snd l) ->
    nth_error (fold_left apply_request l tbl) i = Some n.
Proof.
  induction l as [|[e nm] l IH]; intros tbl i n Hn Hnot; simpl; [exact Hn|].
  apply IH.
  - unfold apply_request. simpl. apply energy_apply_other; [exact Hn|].
    intro E. apply Hnot. simpl. now left.
  - intro H. apply Hnot. simpl. now right.
Qed.

Lemma requests_names (l : list (Ent.t * string)) :
  forall tbl : node_table,
    map name (fold_left apply_request l tbl) = map name tbl.
Proof.
  induction l as [|[e nm] l IH]; intro tbl; simpl; [reflexivity|].
  rewrite IH. apply energy_apply_names.
Qed.

Lemma energy_sweep_names (tbl : node_table) :
  map name (map energy_sweep tbl) = map name tbl.
Proof.
  rewrite map_map. apply map_ext. intro n. unfold energy_sweep.
  destruct (power n); reflexivity.
Qed.

Lemma energy_sweep_power (n : node_record) :
  energy_sweep n
  = mk_node (name n) (Some (set_current_watts (stored_power n) 0)).
Proof.
  unfold energy_sweep, stored_power. destruct (power n); reflexivity.
Qed.

Lemma first_named_names (tbl tbl' : node_table) (nm : string) (i : nat) :
  map name tbl' = map name tbl -> first_named tbl nm i -> first_named tbl' nm i.
Proof. unfold first_named. now intros ->. Qed.

(** C4 (amended).  Take a node that the response names exactly once and
    that [find_node_record2] finds at position [i].  After the ingest its
    record holds the fresh (joules, time) pair, every other field but
    [current_watts] is as before, and [current_watts] is
    [watts_estimate]: 0 when a timestamp is zero, when the counter did
    not grow, or when the timestamps are equal or a day or more apart;
    otherwise the floor of [delta joules * 10^6 / delta t], with the day
    added to the fresh timestamp only when it is the smaller one.  The
    64-bit product and the 32-bit result are assumed not to wrap. *)
Theorem energy_counter_estimate
  (ents : list Ent.t) (tbl : node_table)
  (l1 l2 : list (Ent.t * string)) (e : Ent.t) (nm : string)
  (i : nat) (n : node_record) :
  let p := stored_power n in
  let j := Ent.joule_counter e in
  let t := Ent.time_usec e in
  energy_requests ents = l1 ++ (e, nm) :: l2 ->
  ~ In nm (map snd l1) -> ~ In nm (map snd l2) ->
  nth_error tbl i = Some n -> first_named tbl nm i ->
  in_u64 j -> in_u64 t -> in_u64 (t + 86400000000) ->
  in_u64 (joule_counter p) -> in_u64 (time_usec p) ->
  (joule_counter p < j -> in_u64 ((j - joule_counter p) * 1000000)) ->
  in_u32 (watts_estimate (joule_counter p) (time_usec p) j t) ->
  nth_error (_get_node_energy_counter ents tbl) i
  = Some (mk_node nm
            (Some (set_energy
                     (set_current_watts p
                        (watts_estimate (joule_counter p) (time_usec p) j t))
                     j t))).
Proof.
  intros p j t Hreq Hl1 Hl2 Hn Hfirst Hj Ht Hd Hj0 Ht0 Hfit Hest.
  assert (Hname : name n = nm).
  { destruct Hfirst as [H _]. rewrite nth_error_map, Hn in H.
    simpl in H. congruence. }
  rewrite energy_counter_as_requests, Hreq, fold_left_app. simpl fold_left.
  set (tbl0 := map energy_sweep tbl).
  set (n0 := mk_node (name n) (Some (set_current_watts p 0))).
  assert (H0 : nth_error tbl0 i = Some n0).
  { unfold tbl0. rewrite nth_error_map, Hn. simpl.
    now rewrite energy_sweep_power. }
  set (tbl1 := fold_left apply_request l1 tbl0).
  assert (H1 : nth_error tbl1 i = Some n0).
  { apply requests_other; [exact H0 | simpl; now rewrite Hname]. }
  assert (Hf1 : first_named tbl1 nm i).
  { apply (first_named_names tbl); [|exact Hfirst].
    unfold tbl1, tbl0. now rewrite requests_names, energy_sweep_names. }
  pose proof (energy_apply_found e nm tbl1 i n0 _ Hf1 H1 eq_refl) as H2.
  apply requests_other with (l := l2) in H2;
    [| simpl; now rewrite Hname].
  unfold apply_request at 2. simpl fst. simpl snd. rewrite H2.
  unfold set_power, n0. simpl name. rewrite Hname. do 3 f_equal.
  rewrite energy_sample_estimate; try assumption; reflexivity.
Qed.

(** C4, as stated, fails.  A node whose counter grew by 100000 J while
    the fresh timestamp equals the stored one: the difference is not
    positive and the fresh time plus a day is the larger, so the claim
    takes a whole day as the elapsed time and estimates 1 W; the ingest
    takes neither branch and leaves [current_watts] at 0. *)
Lemma energy_counter_equal_timestamps :
  claimed_watts_estimate 1000000 5000 1100000 5000 = 1 /\
  map (fun n => current_watts (stored_power n))
      (_get_node_energy_counter [example_entry 1 1100000 5000]
                                [example_sampled 1 1000000 5000])
  = [0] /\
  map (fun n => current_watts (stored_power n))
      (_get_node_energy_counter [example_entry 1 1100000 5000]
                                [example_sampled 1 1000000 5000])
  <> [claimed_watts_estimate 1000000 5000 1100000 5000].
Proof. repeat split; try reflexivity. discriminate. Qed.

(** The midnight scenario: 2000 J between 23:59:59 and 00:00:01 is an
    estimate of 1000 W. *)
Lemma energy_counter_estimate_witness :
  nth_error
    (_get_node_energy_counter [example_entry 1 1002000 1000000]
                              [example_sampled 1 1000000 86399000000]) 0
  = Some (example_node 1 (mk_power 0 1000 1002000 0 0 0 0 1 1000000)).
Proof.
  apply (energy_counter_estimate
           [example_entry 1 1002000 1000000]
           [example_sampled 1 1000000 86399000000]
           [] [] (example_entry 1 1002000 1000000) (nid_node_name 1)
           0 (example_sampled 1 1000000 86399000000)).
  - reflexivity.
  - simpl. tauto.
  - simpl. tauto.
  - reflexivity.
  - split; [reflexivity | intros k Hk; inversion Hk].
  - vm_compute. split; [discriminate | reflexivity].
  - vm_compute. split; [discriminate | reflexivity].
  - vm_compute. split; [discriminate | reflexivity].
  - vm_compute. split; [discriminate | reflexivity].
  - vm_compute. split; [discriminate | reflexivity].
  - intros _. vm_compute. split; [discriminate | reflexivity].
  - vm_compute. split; [discriminate | reflexivity].
Defined.

(* ------------------------------------------------------------------ *)
(** ** Allocator: the phases as maps over the table *)

Lemma classify_node_fst (c : Conf.t) (p : power_mgmt_data_t) (t : tally) :
  fst (classify_node c p t) = fst (classify_node c p tally0).
Proof.
  unfold classify_node.
  repeat match goal with |- context [if ?b then _ else _] => destruct b end;
    reflexivity.
Qed.

Lemma phase_a_table (c : Conf.t) (tbl : node_table) :
  forall t : tally,
    fst (phase_a c tbl t)
    = map (node_map (fun p => fst (classify_node c p tally0))) tbl.
Proof.
  induction tbl as [|n rest IH]; intro t; simpl; [reflexivity|].
  unfold node_map at 1. destruct (power n) as [p|].
  - rewrite <- (classify_node_fst c p t).
    destruct (classify_node c p t) as [p' t1].
    specialize (IH t1). destruct (phase_a c rest t1). simpl in *.
    now rewrite IH.
  - specialize (IH t). destruct (phase_a c rest t). simpl in *.
    now rewrite IH.
Qed.

Lemma clawback_table (red1 : Z) (tbl : node_table) :
  forall alloc : Z,
    fst (clawback red1 tbl alloc) = map (node_map (clawback_node red1)) tbl.
Proof.
  induction tbl as [|n rest IH]; intro alloc; simpl; [reflexivity|].
  unfold node_map at 1, clawback_node. destruct (power n) as [p|] eqn:Hp.
  - destruct (new_cap_watts p =? 0).
    + specialize (IH alloc). destruct (clawback red1 rest alloc).
      simpl in *. rewrite IH. f_equal.
      destruct n; simpl in *; now subst.
    + match goal with |- context [clawback red1 rest ?a] =>
        specialize (IH a); destruct (clawback red1 rest a) end.
      simpl in *. now rewrite IH.
  - specialize (IH alloc). destruct (clawback red1 rest alloc).
    simpl in *. now rewrite IH.
Qed.

Lemma classify_node_alloc (c : Conf.t) (p : power_mgmt_data_t) (t : tally) :
  alloc_power (snd (classify_node c p t))
  = alloc_power t
    \/ alloc_power (snd (classify_node c p t))
       = u32 (alloc_power t + new_cap_watts (fst (classify_node c p t))).
Proof.
  unfold classify_node.
  repeat match goal with |- context [if ?b then _ else _] => destruct b end;
    simpl; auto.
Qed.

Lemma classify_node_alloc_zero (c : Conf.t) (p : power_mgmt_data_t) (t : tally) :
  alloc_power (snd (classify_node c p t)) = alloc_power t ->
  in_u32 (alloc_power t) ->
  alloc_power (snd (classify_node c p t))
  = u32 (alloc_power t + new_cap_watts (fst (classify_node c p t)))
  \/ new_cap_watts (fst (classify_node c p t)) = 0.
Proof.
  unfold classify_node.
  repeat match goal with |- context [if ?b then _ else _] => destruct b end;
    simpl; auto.
Qed.

(** [alloc_power] after the first loop is the 32-bit sum of the proposed
    caps. *)
Lemma phase_a_alloc (c : Conf.t) (tbl : node_table) :
  forall t : tally,
    in_u32 (alloc_power t) ->
    alloc_power (snd (phase_a c tbl t))
    = u32 (alloc_power t + sum_new_cap (fst (phase_a c tbl t))).
Proof.
  unfold sum_new_cap.
  induction tbl as [|n rest IH]; intros t Ht; simpl.
  - rewrite Z.add_0_r. symmetry. now apply u32_small.
  - destruct (power n) as [p|] eqn:Hp.
    + assert (Hs : alloc_power (snd (classify_node c p t))
                   = u32 (alloc_power t
                          + new_cap_watts (fst (classify_node c p t)))).
      { destruct (classify_node_alloc c p t) as [H|H]; [|exact H].
        destruct (classify_node_alloc_zero c p t H Ht) as [H'|H'];
          [exact H'|].
        rewrite H, H', Z.add_0_r. symmetry. now apply u32_small. }
      destruct (classify_node c p t) as [p' t1]. simpl in Hs.
      assert (Ht1 : in_u32 (alloc_power t1))
        by (rewrite Hs; apply u32_range).
      specialize (IH t1 Ht1). destruct (phase_a c rest t1) as [rest' t'].
      simpl in *. rewrite IH, Hs, u32_add_l. f_equal.
      change (node_new_cap (set_power n p')) with (new_cap_watts p'). lia.
    + specialize (IH t Ht). destruct (phase_a c rest t) as [rest' t'].
      simpl in *. rewrite IH. f_equal.
      assert (node_new_cap n = 0) by (unfold node_new_cap; now rewrite Hp).
      lia.
Qed.

(** When no placed node is floored, the clawback takes exactly [red1]
    watts from every placed node. *)
Lemma clawback_sum (red1 : Z) (tbl : node_table) :
  0 <= red1 ->
  Forall (not_floored red1) tbl ->
  sum_new_cap (map (node_map (clawback_node red1)) tbl)
  = sum_new_cap tbl - red1 * placed_count tbl.
Proof.
  intros Hred Hall. unfold sum_new_cap.
  induction Hall as [|n rest Hn _ IH]; simpl; [lia|].
  rewrite IH. clear IH.
  unfold not_floored in Hn.
  destruct (power n) as [p|] eqn:Hp.
  - assert (Hold : node_new_cap n = new_cap_watts p)
      by (unfold node_new_cap; now rewrite Hp).
    assert (Hnew : node_new_cap (node_map (clawback_node red1) n)
                   = new_cap_watts (clawback_node red1 p))
      by (unfold node_map, node_new_cap; rewrite Hp; reflexivity).
    rewrite Hold, Hnew. unfold clawback_node.
    destruct (Z.eqb_spec (new_cap_watts p) 0) as [E|E]; [lia|].
    simpl new_cap_watts. destruct (Hn E) as (H0 & H1 & H2).
    rewrite (u32_small (new_cap_watts p - min_watts p))
      by (unfold in_u32; lia).
    rewrite Z.min_r by lia.
    rewrite u32_small by (unfold in_u32; lia).
    lia.
  - assert (Hold : node_new_cap n = 0)
      by (unfold node_new_cap; now rewrite Hp).
    assert (Hnew : node_new_cap (node_map (clawback_node red1) n) = 0)
      by (unfold node_map, node_new_cap; rewrite Hp; now rewrite Hp).
    rewrite Hold, Hnew. simpl. lia.
Qed.

(** C3, as stated, fails.  One ready node capped at 300 W and drawing
    290 W, with a floor of 100 W, under a budget of 50 W: the clawback
    stops at the floor, so the placed sum is 100 W, above the budget by
    more than any slack below [lower_cnt + same_cnt = 1]. *)
Lemma clawback_floor_exceeds_budget :
  let c := Conf.with_cap_watts Conf.initial 50 in
  let tbl := [example_node 1 (mk_power 300 290 0 0 400 100 0 1 0)] in
  let t := snd (phase_a c tbl tally0) in
  0 < Conf.cap_watts c /\
  node_power_lower_cnt t + node_power_same_cnt t = 1 /\
  option_map (fun b => sum_new_cap (b_table b))
             (phase_b c (fst (phase_a c tbl tally0)) t) = Some 100 /\
  ~ (exists slack,
        slack < node_power_lower_cnt t + node_power_same_cnt t /\
        100 <= Conf.cap_watts c + slack).
Proof.
  cbv zeta. split; [reflexivity|]. split; [reflexivity|].
  split; [reflexivity|].
  intros (slack & H1 & H2).
  change (slack < 1) in H1. change (100 <= 50 + slack) in H2. lia.
Qed.

(** C3 (amended).  After the budget step the placed sum is at most the
    budget plus a slack below the divisor
    [node_power_lower_cnt + node_power_same_cnt], provided that, when the
    clawback runs, no placed node is stopped by its floor and every
    counted node is placed; the sum of the caps placed by the first loop
    is assumed to fit in 32 bits. *)
Theorem clawback_meets_budget (c : Conf.t) (tbl : node_table) (b : budget) :
  let tbl_a := fst (phase_a c tbl tally0) in
  let t := snd (phase_a c tbl tally0) in
  let red := clawback_excess c t / clawback_divisor t in
  phase_b c tbl_a t = Some b ->
  0 < Conf.cap_watts c < 4294967296 ->
  in_u32 (sum_new_cap tbl_a) ->
  (clawback_runs c t = true ->
   Forall (not_floored red) tbl_a /\ clawback_divisor t <= placed_count tbl_a) ->
  sum_new_cap (b_table b)
  <= Conf.cap_watts c + Z.max 0 (clawback_divisor t - 1).
Proof.
  intros tbl_a t red Hb Hcap Hsum Hrun.
  assert (Halloc : alloc_power t = sum_new_cap tbl_a).
  { unfold t, tbl_a. rewrite phase_a_alloc by (simpl; unfold in_u32; lia).
    simpl. now apply u32_small. }
  unfold phase_b in Hb. destruct (clawback_runs c t) eqn:Hr.
  - destruct (Hrun eq_refl) as [Hfloor Hplaced].
    destruct (Z.eqb_spec (clawback_divisor t) 0) as [|Hd]; [discriminate|].
    fold red in Hb.
    pose proof (clawback_table red tbl_a (alloc_power t)) as Htab.
    destruct (clawback red tbl_a (alloc_power t)) as [tbl' alloc'].
    injection Hb as <-. simpl in *. subst tbl'.
    pose proof (u32_range (node_power_lower_cnt t + node_power_same_cnt t))
      as Hdr. fold (clawback_divisor t) in Hdr. unfold in_u32 in Hdr.
    assert (Hex : 0 <= clawback_excess c t
                  /\ sum_new_cap tbl_a - Conf.cap_watts c <= clawback_excess c t).
    { unfold clawback_excess. rewrite Halloc.
      match goal with |- context [Z.max ?a ?b] =>
        assert (0 <= b) by
          (destruct (avail_before c t <? node_power_needed t);
           [apply u32_range | lia]);
        pose proof (Z.le_max_l a b); pose proof (Z.le_max_r a b) end.
      unfold in_u32 in Hsum.
      destruct (Z.ltb_spec (Conf.cap_watts c) (sum_new_cap tbl_a)).
      - rewrite u32_small in * by (unfold in_u32; lia). lia.
      - lia. }
    destruct Hex as [Hex0 Hex1].
    assert (Hred : 0 <= red) by (apply Z.div_pos; lia).
    rewrite clawback_sum by assumption.
    pose proof (Z.div_mod (clawback_excess c t) (clawback_divisor t) Hd) as Hdm.
    pose proof (Z.mod_pos_bound (clawback_excess c t) (clawback_divisor t)
                  ltac:(lia)) as Hmb.
    fold red in Hdm.
    pose proof (Z.mul_le_mono_nonneg_l _ _ red Hred Hplaced) as Hmul.
    lia.
  - injection Hb as <-. simpl.
    unfold clawback_runs in Hr. apply orb_false_iff in Hr as [Hr _].
    apply Z.ltb_ge in Hr. lia.
Qed.

(** Two nodes lowered to 295 W each under a budget of 500 W: 45 W are
    taken from each, and the placed sum is 500 W. *)
Lemma clawback_meets_budget_witness :
  sum_new_cap (b_table example_two_busy_budget)
  <= Conf.cap_watts (Conf.with_cap_watts Conf.initial 500)
     + Z.max 0 (clawback_divisor
                  (snd (phase_a (Conf.with_cap_watts Conf.initial 500)
                                example_two_busy tally0)) - 1).
Proof.
  apply (clawback_meets_budget (Conf.with_cap_watts Conf.initial 500)
           example_two_busy example_two_busy_budget).
  - reflexivity.
  - vm_compute. split; reflexivity.
  - vm_compute. split; [discriminate | reflexivity].
  - intros _. split.
    + apply Forall_forall. intros n Hn. vm_compute in Hn.
      destruct Hn as [<- | [<- | []]]; vm_compute; intros _;
        (split; [discriminate | split; [discriminate | reflexivity]]).
    + vm_compute. discriminate.
Defined.

(* ------------------------------------------------------------------ *)
(** ** Bounds on the proposed caps *)

Lemma set_new_cap_same (p : power_mgmt_data_t) :
  set_new_cap_watts p (new_cap_watts p) = p.
Proof. destruct p; reflexivity. Qed.

Lemma half_le (x : Z) : 0 <= x -> 0 <= x / 2 <= x.
Proof.
  intro H. pose proof (Z.div_mod x 2 ltac:(lia)).
  pose proof (Z.mod_pos_bound x 2 ltac:(lia)). lia.
Qed.

(** The first loop on one record. *)
Lemma classify_node_bounds (c : Conf.t) (p : power_mgmt_data_t) (t : tally) :
  power_in_range p ->
  exists w,
    fst (classify_node c p t) = set_new_cap_watts p w /\
    in_u32 w /\
    (state p <> 1 -> w = not_ready_cap p) /\
    (state p = 1 ->
     if deferred c p then w = 0
     else min_watts p <= w /\
          (current_watts p <= cap_watts p \/ lowered c p = false
           \/ lowering_step c p <= cap_watts p ->
           w <= Z.max (cap_watts p) (min_watts p))).
Proof.
  intros (Hcap & Hcur & Hmax & Hmin). unfold in_u32 in *.
  unfold classify_node, deferred, not_ready_cap, lowered, lowering_step.
  destruct (Z.eqb_spec (state p) 1) as [Hs|Hs]; simpl negb; cbv iota.
  - destruct ((cap_watts p =? 0) || (current_watts p =? 0)).
    { exists 0. split; [reflexivity|]. split; [lia|].
      split; [congruence|]. intros _. reflexivity. }
    cbn [orb].
    destruct (current_watts p <? u32 (cap_watts p * Conf.lower_threshold c)).
    + cbn [negb andb]. eexists. split; [reflexivity|].
      set (tmp := u32 (u32 (max_watts p - min_watts p) * Conf.decrease_rate c)
                  / 100).
      set (ave := u32 (cap_watts p - current_watts p) / 2).
      pose proof (u32_range (cap_watts p - Z.min tmp ave)) as Hr.
      unfold in_u32 in Hr.
      split; [lia|]. split; [congruence|]. intros _.
      split; [lia|]. intro Hle.
      assert (Htmp : 0 <= tmp).
      { unfold tmp. apply Z.div_pos; [|lia].
        apply (u32_range (u32 (max_watts p - min_watts p)
                          * Conf.decrease_rate c)). }
      assert (Have0 : 0 <= ave).
      { unfold ave. apply Z.div_pos; [|lia].
        apply (u32_range (cap_watts p - current_watts p)). }
      assert (Hstep : Z.min tmp ave <= cap_watts p).
      { destruct Hle as [Hle | [Hle | Hle]]; [|discriminate Hle|exact Hle].
        assert (Have : ave <= cap_watts p).
        { unfold ave. rewrite u32_small by (unfold in_u32; lia).
          pose proof (half_le (cap_watts p - current_watts p)). lia. }
        lia. }
      rewrite u32_small by (unfold in_u32; lia). lia.
    + cbn [negb andb].
      destruct (current_watts p <? u32 (cap_watts p * Conf.upper_threshold c)).
      * cbn [negb]. eexists. split; [reflexivity|].
        split; [lia|]. split; [congruence|]. intros _. lia.
      * cbn [negb]. exists 0. split; [reflexivity|]. split; [lia|].
        split; [congruence|]. intros _. reflexivity.
  - eexists. split; [reflexivity|].
    split; [destruct (cap_watts p =? 0); lia|].
    split; [reflexivity | congruence].
Qed.

(** The clawback on one record. *)
Lemma clawback_node_bounds (red1 : Z) (p : power_mgmt_data_t) :
  0 <= red1 -> in_u32 (new_cap_watts p) -> in_u32 (min_watts p) ->
  exists w,
    clawback_node red1 p = set_new_cap_watts p w /\
    in_u32 w /\
    (new_cap_watts p = 0 -> w = 0) /\
    (min_watts p <= new_cap_watts p -> min_watts p <= w <= new_cap_watts p).
Proof.
  intros Hred Hw Hmin. unfold clawback_node, in_u32 in *.
  destruct (Z.eqb_spec (new_cap_watts p) 0) as [E|E].
  - exists (new_cap_watts p). rewrite set_new_cap_same.
    split; [reflexivity|]. split; [lia|]. split; [lia|]. lia.
  - eexists. split; [reflexivity|]. split; [apply u32_range|].
    split; [lia|]. intro Hle.
    rewrite (u32_small (new_cap_watts p - min_watts p))
      by (unfold in_u32; lia).
    rewrite u32_small by (unfold in_u32; lia). lia.
Qed.

Lemma raise_cap_bounds (c : Conf.t) (recent : Z) (p : power_mgmt_data_t)
  (ave : Z) :
  min_watts p <= max_watts p ->
  min_watts p <= raise_cap c recent p ave <= max_watts p.
Proof. unfold raise_cap. lia. Qed.

Lemma raise_cap_no_capability (c : Conf.t) (recent : Z)
  (p : power_mgmt_data_t) (ave : Z) :
  0 <= min_watts p -> max_watts p = 0 -> raise_cap c recent p ave = 0.
Proof. unfold raise_cap. lia. Qed.

(** The distribution loop leaves a node alone or, when its proposed cap
    is still zero, gives it [raise_cap] of some share. *)
Lemma raise_loop_nth (c : Conf.t) (recent : Z) (tbl : node_table) :
  forall (avail cnt ave : Z) (i : nat) (n : node_record),
    nth_error tbl i = Some n ->
    nth_error (raise_loop c recent tbl avail cnt ave) i = Some n
    \/ exists p ave',
         power n = Some p /\ new_cap_watts p = 0 /\
         nth_error (raise_loop c recent tbl avail cnt ave) i
         = Some (set_power n (set_new_cap_watts p (raise_cap c recent p ave'))).
Proof.
  induction tbl as [|m rest IH]; intros avail cnt ave [|i] n Hn;
    simpl in Hn; try discriminate.
  - injection Hn as ->. simpl. destruct (power n) as [p|] eqn:Hp; [|now left].
    destruct (Z.eqb_spec (new_cap_watts p) 0) as [E|E]; simpl negb;
      cbv iota; [|now left].
    right. exists p, ave. split; [reflexivity|]. split; [exact E|].
    destruct (u32 (cnt - 1) =? 0); reflexivity.
  - simpl. destruct (power m) as [p|]; [|now apply IH].
    destruct (negb (new_cap_watts p =? 0)); [now apply IH|].
    destruct (u32 (cnt - 1) =? 0); simpl; [now left | now apply IH].
Qed.

Lemma phase_c_nth (c : Conf.t) (recent : Z) (tbl : node_table)
  (avail cnt : Z) (i : nat) (n : node_record) :
  nth_error tbl i = Some n ->
  nth_error (phase_c c recent tbl avail cnt) i = Some n
  \/ exists p ave',
       power n = Some p /\ new_cap_watts p = 0 /\
       nth_error (phase_c c recent tbl avail cnt) i
       = Some (set_power n (set_new_cap_watts p (raise_cap c recent p ave'))).
Proof.
  intro Hn. unfold phase_c. destruct (cnt =? 0); [now left|].
  now apply raise_loop_nth.
Qed.

(** The table the budget step returns. *)
Lemma phase_b_table (c : Conf.t) (tbl : node_table) (t : tally) (b : budget) :
  phase_b c tbl t = Some b ->
  (clawback_runs c t = false /\ b_table b = tbl)
  \/ (clawback_runs c t = true /\
      exists red1, 0 <= red1 /\
        b_table b = map (node_map (clawback_node red1)) tbl).
Proof.
  unfold phase_b. destruct (clawback_runs c t).
  - destruct (Z.eqb_spec (clawback_divisor t) 0) as [|Hd]; [discriminate|].
    pose proof (clawback_table (clawback_excess c t / clawback_divisor t)
                  tbl (alloc_power t)) as Htab.
    destruct (clawback _ tbl _) as [tbl' alloc']. intro H.
    injection H as <-. right. split; [reflexivity|].
    eexists. split; [|exact Htab].
    pose proof (u32_range (node_power_lower_cnt t + node_power_same_cnt t))
      as Hr. fold (clawback_divisor t) in Hr. unfold in_u32 in Hr.
    apply Z.div_pos; [|lia].
    unfold clawback_excess.
    match goal with |- 0 <= Z.max ?a ?b =>
      assert (0 <= a) by
        (destruct (Conf.cap_watts c <? alloc_power t);
         [apply u32_range | lia]);
      pose proof (Z.le_max_l a b) end.
    lia.
  - intro H. injection H as <-. now left.
Qed.

(** The readiness of the nodes after the first three phases. *)
Lemma rebalance_caps_ready (c : Conf.t) (now : Z) (tbl tbl' : node_table) :
  rebalance_caps c now tbl = Some tbl' ->
  map node_ready tbl' = map node_ready tbl.
Proof.
  unfold rebalance_caps.
  pose proof (phase_a_table c tbl tally0) as Ha.
  destruct (phase_a c tbl tally0) as [tbl_a t]. simpl in Ha.
  destruct (phase_b c tbl_a t) as [b|] eqn:Hb; [|discriminate].
  intro H. injection H as <-.
  assert (Hab : map node_ready (b_table b) = map node_ready tbl).
  { destruct (phase_b_table c tbl_a t b Hb)
      as [[_ ->] | [_ (red1 & _ & ->)]].
    - rewrite Ha. apply map_node_map_ready.
      intro p. apply classify_node_state.
    - rewrite map_node_map_ready by apply clawback_node_state.
      rewrite Ha. apply map_node_map_ready.
      intro p. apply classify_node_state. }
  unfold phase_c. destruct (node_power_raise_cnt t =? 0); [exact Hab|].
  now rewrite raise_loop_ready.
Qed.

(** The bounds after the first three phases (classification, budget
    clawback, distribution). *)
Lemma rebalance_caps_nth
  (c : Conf.t) (now : Z) (tbl tbl' : node_table)
  (i : nat) (n : node_record) (p : power_mgmt_data_t) :
  rebalance_caps c now tbl = Some tbl' ->
  nth_error tbl i = Some n -> power n = Some p -> power_in_range p ->
  exists w,
    nth_error tbl' i = Some (set_power n (set_new_cap_watts p w)) /\
    (state p = 1 -> min_watts p <= max_watts p ->
     if deferred c p
     then (w = 0 \/ min_watts p <= w <= max_watts p) /\
          (node_power_raise_cnt (snd (phase_a c tbl tally0)) = 0 -> w = 0)
     else min_watts p <= w /\
          (current_watts p <= cap_watts p \/ lowered c p = false
           \/ lowering_step c p <= cap_watts p ->
           w <= Z.max (max_watts p) (cap_watts p))) /\
    (state p <> 1 -> clawback_runs c (snd (phase_a c tbl tally0)) = false ->
     w = not_ready_cap p).
Proof.
  intros Hreb Hn Hp Hrange. unfold rebalance_caps in Hreb.
  pose proof (phase_a_table c tbl tally0) as Ha.
  destruct (phase_a c tbl tally0) as [tbl_a t]. simpl in Ha. simpl snd.
  destruct (phase_b c tbl_a t) as [b|] eqn:Hb; [|discriminate].
  injection Hreb as <-.
  (* first loop *)
  destruct (classify_node_bounds c p tally0 Hrange)
    as (wa & Hfa & Hwa & Hnr_a & Hr_a).
  assert (Hna : nth_error tbl_a i = Some (set_power n (set_new_cap_watts p wa))).
  { rewrite Ha, nth_error_map, Hn. simpl. unfold node_map.
    now rewrite Hp, Hfa. }
  destruct Hrange as (_ & _ & Hmaxr & Hminr).
  (* budget step *)
  assert (Hnb : exists wb,
             nth_error (b_table b) i
             = Some (set_power n (set_new_cap_watts p wb)) /\
             (clawback_runs c t = false -> wb = wa) /\
             (wa = 0 -> wb = 0) /\
             (min_watts p <= wa -> min_watts p <= wb <= wa)).
  { destruct (phase_b_table c tbl_a t b Hb)
      as [[Hrun ->] | [Hrun (red1 & Hred & ->)]].
    - exists wa. repeat split; auto; lia.
    - destruct (clawback_node_bounds red1 (set_new_cap_watts p wa) Hred Hwa Hminr)
        as (wb & Hfb & _ & Hz & Hle).
      exists wb. split.
      + rewrite nth_error_map, Hna. simpl. unfold node_map. simpl.
        now rewrite Hfb.
      + split; [congruence|]. split; [exact Hz | exact Hle]. }
  destruct Hnb as (wb & Hnb & Hsame & Hzb & Hleb).
  (* distribution *)
  assert (Hc : (nth_error (phase_c c (now - Conf.recent_job c) (b_table b)
                    (b_avail_power b) (node_power_raise_cnt t)) i
                = Some (set_power n (set_new_cap_watts p wb)))
               \/ (node_power_raise_cnt t <> 0 /\ wb = 0 /\
                   exists ave,
                     nth_error (phase_c c (now - Conf.recent_job c)
                                  (b_table b) (b_avail_power b)
                                  (node_power_raise_cnt t)) i
                     = Some (set_power n
                               (set_new_cap_watts p
                                  (raise_cap c (now - Conf.recent_job c)
                                     (set_new_cap_watts p 0) ave))))).
  { destruct (Z.eqb_spec (node_power_raise_cnt t) 0) as [E|E].
    - left. unfold phase_c. rewrite E. exact Hnb.
    - destruct (phase_c_nth c (now - Conf.recent_job c) (b_table b)
                  (b_avail_power b) (node_power_raise_cnt t) i _ Hnb)
        as [H | (pb & ave & Hpb & Hzero & H)]; [now left|].
      right. simpl in Hpb. injection Hpb as <-. simpl in Hzero. subst wb.
      split; [exact E|]. split; [reflexivity|]. exists ave. exact H. }
  destruct Hc as [Hc | (Hcnt & Hwb & ave & Hc)].
  - exists wb. split; [exact Hc|]. split.
    + intros Hs Hmm. specialize (Hr_a Hs).
      destruct (deferred c p).
      * subst wa. rewrite (Hzb eq_refl). split; [now left | reflexivity].
      * destruct Hr_a as [Hlo Hhi]. specialize (Hleb Hlo).
        split; [lia|]. intro Hcur. specialize (Hhi Hcur). lia.
    + intros Hs Hrun. rewrite (Hsame Hrun). auto.
  - subst wb. eexists. split; [exact Hc|].
    pose proof (raise_cap_bounds c (now - Conf.recent_job c)
                  (set_new_cap_watts p 0) ave) as Hrc. simpl in Hrc.
    split.
    + intros Hs Hmm. specialize (Hrc Hmm).
      destruct (deferred c p).
      * split; [now right | intro; contradiction].
      * split; [lia|]. intros _. lia.
    + intros Hs Hrun. specialize (Hnr_a Hs).
      rewrite <- (Hsame Hrun) in Hnr_a. unfold not_ready_cap in *.
      rewrite <- Hnr_a. unfold in_u32 in *.
      apply raise_cap_no_capability; simpl; [lia|].
      destruct (Z.eqb_spec (cap_watts p) 0); lia.
Qed.

(** The same bounds after the levelling, for a node it passes by. *)
Lemma allocate_caps_nth
  (c : Conf.t) (now : Z) (jobs : list job_record) (tbl tbl' : node_table)
  (i : nat) (n : node_record) (p : power_mgmt_data_t) :
  allocate_caps c now jobs tbl = Some tbl' ->
  nth_error tbl i = Some n -> power n = Some p -> power_in_range p ->
  levelling_passes c jobs tbl i p ->
  exists w,
    nth_error tbl' i = Some (set_power n (set_new_cap_watts p w)) /\
    (state p = 1 -> min_watts p <= max_watts p ->
     if deferred c p
     then (w = 0 \/ min_watts p <= w <= max_watts p) /\
          (node_power_raise_cnt (snd (phase_a c tbl tally0)) = 0 -> w = 0)
     else min_watts p <= w /\
          (current_watts p <= cap_watts p \/ lowered c p = false
           \/ lowering_step c p <= cap_watts p ->
           w <= Z.max (max_watts p) (cap_watts p))) /\
    (state p <> 1 -> clawback_runs c (snd (phase_a c tbl tally0)) = false ->
     w = not_ready_cap p).
Proof.
  intros Hall Hn Hp Hrange Hlevel. unfold allocate_caps in Hall.
  destruct (rebalance_caps c now tbl) as [tbl_c|] eqn:Hreb; [|discriminate].
  injection Hall as <-.
  destruct (rebalance_caps_nth c now tbl tbl_c i n p Hreb Hn Hp Hrange)
    as (w & Hw & Hbounds).
  exists w. split; [|exact Hbounds].
  unfold phase_d. destruct (Z.eqb_spec (Conf.job_level c) 0) as [|Hon];
    [exact Hw|].
  apply (level_power_by_job_passes c tbl jobs);
    [now apply (rebalance_caps_ready c now) | exact Hw |].
  destruct Hlevel as [Hnr | [Hoff | Hjobs]].
  - left. unfold not_ready. simpl. exact Hnr.
  - contradiction.
  - now right.
Qed.

(** The walk that builds the update list writes [cap_watts] only: a
    node it adds to a record has its installed cap overwritten with the
    proposed one. *)
Lemma set_power_same (n : node_record) (p : power_mgmt_data_t) :
  power n = Some p -> set_power n (set_cap_watts p (cap_watts p)) = n.
Proof. destruct n, p. simpl. now intros ->. Qed.

Lemma fold_same_change_nth (increase : bool) (tbl : node_table) :
  forall (nids : string) (i : nat) (n : node_record) (p : power_mgmt_data_t),
    nth_error tbl i = Some n -> power n = Some p ->
    exists cw,
      nth_error (snd (fold_same_change increase nids tbl)) i
      = Some (set_power n (set_cap_watts p cw)) /\
      (cw = cap_watts p \/ cw = new_cap_watts p).
Proof.
  induction tbl as [|m rest IH]; intros nids [|i] n p Hn Hp; simpl in Hn;
    try discriminate.
  - injection Hn as ->. simpl. rewrite Hp.
    destruct (cap_watts p =? new_cap_watts p).
    { destruct (fold_same_change increase nids rest). simpl.
      exists (cap_watts p). rewrite set_power_same by assumption. auto. }
    destruct ((new_cap_watts p <? cap_watts p) && increase).
    { destruct (fold_same_change increase nids rest). simpl.
      exists (cap_watts p). rewrite set_power_same by assumption. auto. }
    destruct (fold_same_change increase _ rest). simpl.
    exists (new_cap_watts p). auto.
  - simpl. destruct (power m) as [pm|].
    + destruct (cap_watts pm =? new_cap_watts pm).
      { specialize (IH nids i n p Hn Hp).
        destruct (fold_same_change increase nids rest). exact IH. }
      destruct ((new_cap_watts pm <? cap_watts pm) && increase).
      { specialize (IH nids i n p Hn Hp).
        destruct (fold_same_change increase nids rest). exact IH. }
      match goal with |- context [fold_same_change increase ?s rest] =>
        specialize (IH s i n p Hn Hp);
        destruct (fold_same_change increase s rest) end.
      exact IH.
    + specialize (IH nids i n p Hn Hp).
      destruct (fold_same_change increase nids rest). exact IH.
Qed.

Lemma build_updates_nth (k : nat) :
  forall (tbl : node_table) (i : nat) (n : node_record)
         (p : power_mgmt_data_t),
    nth_error tbl i = Some n -> power n = Some p ->
    exists cw,
      nth_error (snd (build_updates k tbl)) i
      = Some (set_power n (set_cap_watts p cw)) /\
      (cw = cap_watts p \/ cw = new_cap_watts p).
Proof.
  induction k as [|k IH]; intros tbl i n p Hn Hp.
  - simpl. exists (cap_watts p).
    rewrite set_power_same by assumption. auto.
  - destruct tbl as [|m rest]; [destruct i; discriminate|].
    simpl. destruct i as [|i]; simpl in Hn.
    + injection Hn as ->. rewrite Hp.
      destruct (cap_watts p =? new_cap_watts p).
      * destruct (build_updates k rest). simpl.
        exists (cap_watts p). rewrite set_power_same by assumption. auto.
      * destruct (fold_same_change _ _ rest) as [nids rest1].
        destruct (build_updates k rest1). simpl.
        exists (cap_watts p). rewrite set_power_same by assumption. auto.
    + destruct (power m) as [pm|].
      * destruct (cap_watts pm =? new_cap_watts pm).
        { specialize (IH rest i n p Hn Hp).
          destruct (build_updates k rest). exact IH. }
        destruct (fold_same_change_nth (cap_watts pm <? new_cap_watts pm)
                    rest (_node_name2nid (name m)) i n p Hn Hp)
          as (cw1 & H1 & Hcw1).
        destruct (fold_same_change _ _ rest) as [nids rest1].
        simpl in H1.
        destruct (IH rest1 i _ _ H1 eq_refl) as (cw2 & H2 & Hcw2).
        destruct (build_updates k rest1). simpl in *.
        exists cw2. split; [exact H2|].
        destruct Hcw2 as [-> | ->]; [exact Hcw1 | now right].
      * specialize (IH rest i n p Hn Hp).
        destruct (build_updates k rest). exact IH.
Qed.

(** C2, as stated, fails.

    By design: on [example_out_of_range] with levelling forced on and a
    budget of 10000 W, all four nodes are ready, and the allocator
    proposes 0 W under a floor of 100 W (no reading, so no proposal),
    490 W over a ceiling of 400 W (lowered from an installed 500 W),
    and 250 W, the mean of their job, over a ceiling of 200 W and under
    a floor of 300 W.

    The two cases that the amended statement leaves out: on
    [example_not_ready_first] under a budget of 500 W the clawback
    takes 95 W from the node that is not ready, which ends at 205 W,
    neither its installed 300 W nor its [max_watts]; and on
    [example_over_cap], where the nodes draw more than their caps, the
    subtraction of the decrease step wraps around and the proposed caps
    end far above both the ceiling and the installed cap. *)
Lemma rebalance_node_power_out_of_range :
  (exists updates tbl',
     _rebalance_node_power example_force_level 0 [example_level_job]
                           example_out_of_range = Some (updates, tbl') /\
     cap_report tbl' = [(1, 100, 0, 400); (1, 100, 490, 400);
                        (1, 100, 250, 200); (1, 300, 250, 400)] /\
     ~ Exists report_in_range (cap_report tbl')) /\
  (exists updates tbl',
     _rebalance_node_power example_tight_budget 0 []
                           example_not_ready_first = Some (updates, tbl') /\
     map node_new_cap tbl' = [205; 200] /\
     ~ claimed_in_range (mk_power 300 0 0 0 400 100 0 0 0) 205) /\
  (exists updates tbl',
     _rebalance_node_power example_small_budget 0 []
                           example_over_cap = Some (updates, tbl') /\
     map node_new_cap tbl' = [2147484148; 2147484149] /\
     ~ claimed_in_range (mk_power 120 125 0 0 400 100 0 1 0) 2147484148 /\
     ~ claimed_in_range (mk_power 121 126 0 0 400 100 0 1 0) 2147484149).
Proof.
  split; [|split].
  - eexists. eexists. split; [reflexivity|].
    match goal with |- ?A = ?B /\ _ =>
      assert (Hrep : A = B) by reflexivity end.
    split; [exact Hrep|]. rewrite Hrep. intro H.
    repeat (apply Exists_cons in H; destruct H as [H|H];
            [unfold report_in_range in H; specialize (H eq_refl); lia|]).
    inversion H.
  - eexists. eexists. split; [reflexivity|]. split; [reflexivity|].
    unfold claimed_in_range, not_ready_cap. simpl. lia.
  - eexists. eexists. split; [reflexivity|]. split; [reflexivity|].
    unfold claimed_in_range. simpl. lia.
Qed.

(** C2 (amended).  Let the allocator return, and take a node with a
    power record that the levelling passes by: the node is not ready,
    levelling is forced off, or every job of the list is not running,
    not selected by the setting, without the node in its bitmap, or
    with fewer than two ready nodes with a power record.  When the
    update list has been built, the node has its name and every field
    but [new_cap_watts] and [cap_watts] as before, and [cap_watts] is
    the installed cap or, for a node added to an update record, the
    proposed one.  If the node is ready and [min_watts <= max_watts]:
    a node the first loop deferred ends with a proposed cap of 0 or one
    within its capability range, and with 0 when no node of the table
    asked for more power; a node it did not defer ends at [min_watts] or
    above, and at most at the larger of [max_watts] and the installed
    cap unless the first loop lowered it by a step larger than the
    installed cap, which takes a node that draws more than its cap.  If
    the node is not ready and the clawback did not run, the proposed cap
    is the installed cap, or [max_watts] when none is installed. *)
Theorem rebalance_node_power_bounds
  (c : Conf.t) (now : Z) (jobs : list job_record)
  (tbl tbl' : node_table) (updates : list power_by_nodes_t)
  (i : nat) (n : node_record) (p : power_mgmt_data_t) :
  _rebalance_node_power c now jobs tbl = Some (updates, tbl') ->
  nth_error tbl i = Some n -> power n = Some p -> power_in_range p ->
  levelling_passes c jobs tbl i p ->
  exists w cw,
    nth_error tbl' i
    = Some (set_power n (set_cap_watts (set_new_cap_watts p w) cw)) /\
    (cw = cap_watts p \/ cw = w) /\
    (state p = 1 -> min_watts p <= max_watts p ->
     if deferred c p
     then (w = 0 \/ min_watts p <= w <= max_watts p) /\
          (node_power_raise_cnt (snd (phase_a c tbl tally0)) = 0 -> w = 0)
     else min_watts p <= w /\
          (current_watts p <= cap_watts p \/ lowered c p = false
           \/ lowering_step c p <= cap_watts p ->
           w <= Z.max (max_watts p) (cap_watts p))) /\
    (state p <> 1 -> clawback_runs c (snd (phase_a c tbl tally0)) = false ->
     w = not_ready_cap p).
Proof.
  intros Hall Hn Hp Hrange Hlevel. unfold _rebalance_node_power in Hall.
  destruct (allocate_caps c now jobs tbl) as [tbl_d|] eqn:Hd;
    [|discriminate].
  simpl in Hall. injection Hall as Hbuild.
  destruct (allocate_caps_nth c now jobs tbl tbl_d i n p Hd Hn Hp Hrange
              Hlevel) as (w & Hw & Hbounds).
  destruct (build_updates_nth (List.length tbl_d) tbl_d i _
              (set_new_cap_watts p w) Hw eq_refl) as (cw & Hcw & Hcase).
  rewrite Hbuild in Hcw. simpl in Hcw.
  exists w, cw. split; [exact Hcw|]. split; [exact Hcase | exact Hbounds].
Qed.

(** The first node of [example_two_busy] under a budget of 500 W, in
    the bitmap of a running job that the per-job setting does not
    select: the clawback brings both nodes to 250 W, one update record
    lowers both, and the walk overwrites the installed cap of the
    second node only. *)
Lemma rebalance_node_power_bounds_witness :
  exists w cw,
    nth_error
      [example_node 1 (mk_power 300 290 0 250 400 100 0 1 0);
       example_node 2 (mk_power 250 290 0 250 400 100 0 1 0)] 0
    = Some (set_power (example_node 1 (mk_power 300 290 0 0 400 100 0 1 0))
              (set_cap_watts
                 (set_new_cap_watts (mk_power 300 290 0 0 400 100 0 1 0) w)
                 cw)) /\
    (cw = 300 \/ cw = w) /\
    (1 = 1 -> 100 <= 400 ->
     if deferred example_tight_budget (mk_power 300 290 0 0 400 100 0 1 0)
     then (w = 0 \/ 100 <= w <= 400) /\
          (node_power_raise_cnt
             (snd (phase_a example_tight_budget example_two_busy tally0)) = 0 ->
           w = 0)
     else 100 <= w /\
          (290 <= 300
           \/ lowered example_tight_budget
                (mk_power 300 290 0 0 400 100 0 1 0) = false
           \/ lowering_step example_tight_budget
                (mk_power 300 290 0 0 400 100 0 1 0) <= 300 ->
           w <= Z.max 400 300)) /\
    (1 <> 1 ->
     clawback_runs example_tight_budget
       (snd (phase_a example_tight_budget example_two_busy tally0)) = false ->
     w = not_ready_cap (mk_power 300 290 0 0 400 100 0 1 0)).
Proof.
  apply (rebalance_node_power_bounds example_tight_budget 0
           [mk_job true (Some [true; false]) 0]
           example_two_busy
           [example_node 1 (mk_power 300 290 0 250 400 100 0 1 0);
            example_node 2 (mk_power 250 290 0 250 400 100 0 1 0)]
           [mk_power_by_nodes 250 false "1,2"]
           0 (example_node 1 (mk_power 300 290 0 0 400 100 0 1 0))
           (mk_power 300 290 0 0 400 100 0 1 0)).
  - reflexivity.
  - reflexivity.
  - reflexivity.
  - unfold power_in_range, in_u32. simpl. lia.
  - right. right. repeat constructor.
Defined.

(* ================================================================== *)
(** * Further properties of the modelled code *)

(* ------------------------------------------------------------------ *)
(** ** Cap applier: outcomes of the two passes *)

Lemma filter_split_permutation (A : Type) (f : A -> bool) (l : list A) :
  Permutation (filter (fun x => negb (f x)) l ++ filter f l) l.
Proof.
  induction l as [|x l IH]; simpl; [constructor|].
  destruct (f x); simpl.
  - apply Permutation_sym, Permutation_cons_app, Permutation_sym, IH.
  - now constructor.
Qed.

Lemma decrease_pass_all_succeed
  (run : list power_by_nodes_t -> power_by_nodes_t -> Z)
  (l trace : list power_by_nodes_t) :
  (forall tr r, run tr r = 0) ->
  decrease_pass run l trace = (trace ++ filter is_decrease l, true).
Proof.
  intro Hrun. revert trace.
  induction l as [|r l IH]; intro trace; simpl.
  - now rewrite app_nil_r.
  - unfold is_decrease at 1. destruct (increase_power r); simpl.
    + apply IH.
    + rewrite Hrun. simpl. rewrite IH, <- app_assoc. reflexivity.
Qed.

(** When every call of the child process succeeds, the applier
    dispatches the decrease records in list order, then the increase
    records in list order: each record of the list exactly once. *)
Theorem set_power_caps_all_succeed
  (run : list power_by_nodes_t -> power_by_nodes_t -> Z)
  (l : list power_by_nodes_t) :
  (forall tr r, run tr r = 0) ->
  _set_power_caps run (Some l)
  = filter is_decrease l ++ filter increase_power l
  /\ Permutation (_set_power_caps run (Some l)) l.
Proof.
  intro Hrun. unfold _set_power_caps.
  rewrite decrease_pass_all_succeed by assumption.
  rewrite increase_pass_trace. simpl. split; [reflexivity|].
  apply (filter_split_permutation _ increase_power l).
Qed.

(** Three records, the middle one an increase, all calls succeeding. *)
Lemma set_power_caps_all_succeed_witness :
  _set_power_caps (fun _ _ => 0)
    (Some [mk_power_by_nodes 200 false "1"; mk_power_by_nodes 300 true "2";
           mk_power_by_nodes 250 false "3"])
  = filter is_decrease
      [mk_power_by_nodes 200 false "1"; mk_power_by_nodes 300 true "2";
       mk_power_by_nodes 250 false "3"]
    ++ filter increase_power
      [mk_power_by_nodes 200 false "1"; mk_power_by_nodes 300 true "2";
       mk_power_by_nodes 250 false "3"]
  /\ Permutation
       (_set_power_caps (fun _ _ => 0)
          (Some [mk_power_by_nodes 200 false "1";
                 mk_power_by_nodes 300 true "2";
                 mk_power_by_nodes 250 false "3"]))
       [mk_power_by_nodes 200 false "1"; mk_power_by_nodes 300 true "2";
        mk_power_by_nodes 250 false "3"].
Proof.
  apply (set_power_caps_all_succeed (fun _ _ => 0)). reflexivity.
Defined.

Lemma decrease_pass_first_failure
  (run : list power_by_nodes_t -> power_by_nodes_t -> Z)
  (l1 : list power_by_nodes_t) :
  forall (trace : list power_by_nodes_t) (r : power_by_nodes_t)
         (l2 : list power_by_nodes_t),
    (forall a x b, l1 = a ++ x :: b -> increase_power x = false ->
                   run (trace ++ filter is_decrease a) x = 0) ->
    increase_power r = false ->
    run (trace ++ filter is_decrease l1) r <> 0 ->
    decrease_pass run (l1 ++ r :: l2) trace
    = (trace ++ filter is_decrease l1 ++ [r], false).
Proof.
  induction l1 as [|x l1 IH]; intros trace r l2 Hok Hr Hfail; simpl in *.
  - rewrite Hr. rewrite app_nil_r in Hfail.
    apply Z.eqb_neq in Hfail. now rewrite Hfail.
  - pose proof (Hok [] x l1 eq_refl) as H0. simpl in H0.
    rewrite app_nil_r in H0.
    assert (Htail : forall a y b, l1 = a ++ y :: b ->
              increase_power y = false ->
              run (trace ++ filter is_decrease (x :: a)) y = 0).
    { intros a y b E Hy. apply (Hok (x :: a) y b); [|exact Hy].
      simpl. now rewrite E. }
    simpl in Htail. unfold is_decrease at 1 in Hfail.
    unfold is_decrease at 1 in Htail. unfold is_decrease at 1.
    destruct (increase_power x) eqn:Hx; simpl in *.
    + apply IH; auto.
    + rewrite (H0 eq_refl). simpl.
      rewrite IH with (trace := trace ++ [x]).
      * now rewrite <- app_assoc.
      * intros a y b E Hy. rewrite <- app_assoc. simpl. eapply Htail; eauto.
      * assumption.
      * rewrite <- app_assoc. exact Hfail.
Qed.

(** When the call for a decrease record fails (the earlier decrease
    calls having succeeded), the applier stops there: the trace is the
    decrease records up to and including the failing one, and neither
    the later decrease records nor any increase record is dispatched. *)
Theorem set_power_caps_stops_on_failure
  (run : list power_by_nodes_t -> power_by_nodes_t -> Z)
  (l1 l2 : list power_by_nodes_t) (r : power_by_nodes_t) :
  (forall a x b, l1 = a ++ x :: b -> increase_power x = false ->
                 run (filter is_decrease a) x = 0) ->
  increase_power r = false ->
  run (filter is_decrease l1) r <> 0 ->
  _set_power_caps run (Some (l1 ++ r :: l2)) = filter is_decrease l1 ++ [r]
  /\ Forall (fun x => increase_power x = false)
            (_set_power_caps run (Some (l1 ++ r :: l2))).
Proof.
  intros Hok Hr Hfail. unfold _set_power_caps.
  rewrite (decrease_pass_first_failure run l1 [] r l2); auto.
  simpl. split; [reflexivity|].
  apply Forall_app. split.
  - apply Forall_forall. intros x Hx. apply filter_In in Hx as [_ Hx].
    unfold is_decrease in Hx. now destruct (increase_power x).
  - now constructor.
Qed.

(** The first decrease succeeds, the second fails (every call after one
    dispatch fails): the increase before it and the decrease after it
    are never dispatched. *)
Lemma set_power_caps_stops_on_failure_witness :
  _set_power_caps
    (fun tr _ => Z.of_nat (List.length tr))
    (Some ([mk_power_by_nodes 200 false "1"; mk_power_by_nodes 300 true "2"]
           ++ mk_power_by_nodes 250 false "3"
              :: [mk_power_by_nodes 100 false "4"]))
  = filter is_decrease
      [mk_power_by_nodes 200 false "1"; mk_power_by_nodes 300 true "2"]
    ++ [mk_power_by_nodes 250 false "3"]
  /\ Forall (fun x => increase_power x = false)
       (_set_power_caps
          (fun tr _ => Z.of_nat (List.length tr))
          (Some ([mk_power_by_nodes 200 false "1";
                  mk_power_by_nodes 300 true "2"]
                 ++ mk_power_by_nodes 250 false "3"
                    :: [mk_power_by_nodes 100 false "4"]))).
Proof.
  apply (set_power_caps_stops_on_failure
           (fun tr _ => Z.of_nat (List.length tr))).
  - intros a x b E Hx.
    destruct a as [|y a].
    + reflexivity.
    + injection E as <- E. destruct a as [|z a].
      * injection E as <- _. discriminate Hx.
      * injection E as _ E. destruct a; discriminate E.
  - reflexivity.
  - simpl. discriminate.
Defined.

(* ------------------------------------------------------------------ *)
(** ** The table of required updates: how many records *)

Lemma build_updates_unchanged (k : nat) :
  forall tbl : node_table,
    Forall cap_unchanged tbl -> build_updates k tbl = ([], tbl).
Proof.
  induction k as [|k IH]; intros tbl Hall; [now destruct tbl|].
  destruct Hall as [|n rest Hn Hrest]; [reflexivity|].
  simpl. unfold cap_unchanged in Hn.
  destruct (power n) as [p|].
  - apply Z.eqb_eq in Hn. rewrite Hn. now rewrite (IH rest Hrest).
  - now rewrite (IH rest Hrest).
Qed.

(** The update list is empty exactly when no node with a power record
    has a proposed cap that differs from its installed cap. *)
Theorem build_updates_empty_iff (tbl : node_table) :
  fst (build_updates (List.length tbl) tbl) = [] <-> Forall cap_unchanged tbl.
Proof.
  split.
  - induction tbl as [|n rest IH]; intro H; [constructor|].
    simpl in H.
    destruct (power n) as [p|] eqn:Hp.
    + destruct (Z.eqb_spec (cap_watts p) (new_cap_watts p)) as [E|E].
      * destruct (build_updates (List.length rest) rest) as [l r].
        simpl in *. constructor; [unfold cap_unchanged; now rewrite Hp|].
        now apply IH.
      * destruct (fold_same_change _ _ rest) as [nids rest1].
        destruct (build_updates (List.length rest) rest1).
        discriminate H.
    + destruct (build_updates (List.length rest) rest) as [l r].
      simpl in *. constructor; [unfold cap_unchanged; now rewrite Hp|].
      now apply IH.
  - intro H. now rewrite build_updates_unchanged.
Qed.

(** After the inner loop of a decrease record every later node is
    marked as done; after the inner loop of an increase record the
    later nodes still to be changed are all decreases. *)
Lemma fold_same_change_decrease (tbl : node_table) :
  forall nids : string,
    Forall cap_unchanged (snd (fold_same_change false nids tbl)).
Proof.
  induction tbl as [|n rest IH]; intro nids; simpl; [constructor|].
  destruct (power n) as [p|] eqn:Hp.
  - destruct (Z.eqb_spec (cap_watts p) (new_cap_watts p)) as [E|E].
    + specialize (IH nids). destruct (fold_same_change false nids rest).
      simpl in *. constructor; [unfold cap_unchanged; now rewrite Hp|exact IH].
    + rewrite andb_false_r.
      match goal with |- context [fold_same_change false ?s rest] =>
        specialize (IH s); destruct (fold_same_change false s rest) end.
      simpl in *. constructor; [reflexivity | exact IH].
  - specialize (IH nids). destruct (fold_same_change false nids rest).
    simpl in *. constructor; [unfold cap_unchanged; now rewrite Hp|exact IH].
Qed.

Lemma fold_same_change_increase (tbl : node_table) :
  forall nids : string,
    Forall cap_not_raised (snd (fold_same_change true nids tbl)).
Proof.
  induction tbl as [|n rest IH]; intro nids; simpl; [constructor|].
  destruct (power n) as [p|] eqn:Hp.
  - destruct (Z.eqb_spec (cap_watts p) (new_cap_watts p)) as [E|E].
    + specialize (IH nids). destruct (fold_same_change true nids rest).
      simpl in *. constructor; [|exact IH].
      unfold cap_not_raised. rewrite Hp. lia.
    + rewrite andb_true_r.
      destruct (Z.ltb_spec (new_cap_watts p) (cap_watts p)) as [Hlt|Hge].
      * specialize (IH nids). destruct (fold_same_change true nids rest).
        simpl in *. constructor; [|exact IH].
        unfold cap_not_raised. rewrite Hp. lia.
      * match goal with |- context [fold_same_change true ?s rest] =>
          specialize (IH s); destruct (fold_same_change true s rest) end.
        simpl in *. constructor; [|exact IH].
        unfold cap_not_raised. simpl. lia.
  - specialize (IH nids). destruct (fold_same_change true nids rest).
    simpl in *. constructor; [|exact IH].
    unfold cap_not_raised. now rewrite Hp.
Qed.

Lemma build_updates_no_raise (k : nat) :
  forall tbl : node_table,
    Forall cap_not_raised tbl ->
    fst (build_updates k tbl) = []
    \/ exists r, fst (build_updates k tbl) = [r] /\ increase_power r = false.
Proof.
  induction k as [|k IH]; intros tbl Hall; [left; now destruct tbl|].
  destruct Hall as [|n rest Hn Hrest]; [now left|].
  simpl. unfold cap_not_raised in Hn.
  destruct (power n) as [p|].
  - destruct (Z.eqb_spec (cap_watts p) (new_cap_watts p)) as [E|E].
    + specialize (IH rest Hrest). destruct (build_updates k rest). exact IH.
    + destruct (Z.ltb_spec (cap_watts p) (new_cap_watts p)) as [Hlt|_]; [lia|].
      pose proof (fold_same_change_decrease rest (_node_name2nid (name n)))
        as Hdone.
      destruct (fold_same_change false _ rest) as [nids rest1].
      simpl in Hdone. rewrite (build_updates_unchanged k rest1 Hdone).
      right. eexists. split; reflexivity.
  - specialize (IH rest Hrest). destruct (build_updates k rest). exact IH.
Qed.

(** The update list never has more than two records: none, one, or an
    increase record followed by a decrease record.  (A decrease record
    takes in every later node that is to change, an increase record
    every later node that is to rise.) *)
Theorem build_updates_at_most_two (k : nat) (tbl : node_table) :
  fst (build_updates k tbl) = []
  \/ (exists r, fst (build_updates k tbl) = [r])
  \/ (exists r1 r2, fst (build_updates k tbl) = [r1; r2]
                    /\ increase_power r1 = true
                    /\ increase_power r2 = false).
Proof.
  revert tbl. induction k as [|k IH]; intro tbl; [left; now destruct tbl|].
  destruct tbl as [|n rest]; [now left|].
  simpl. destruct (power n) as [p|].
  - destruct (Z.eqb_spec (cap_watts p) (new_cap_watts p)) as [E|E].
    + specialize (IH rest). destruct (build_updates k rest). exact IH.
    + destruct (cap_watts p <? new_cap_watts p) eqn:Hdir.
      * pose proof (fold_same_change_increase rest (_node_name2nid (name n)))
          as Hrest.
        destruct (fold_same_change true _ rest) as [nids rest1].
        simpl in Hrest.
        destruct (build_updates_no_raise k rest1 Hrest) as [H|(r & H & Hr)];
          destruct (build_updates k rest1) as [l r']; simpl in *; subst l.
        -- right. left. eexists. reflexivity.
        -- right. right. eexists. exists r. repeat split; auto.
      * pose proof (fold_same_change_decrease rest (_node_name2nid (name n)))
          as Hdone.
        destruct (fold_same_change false _ rest) as [nids rest1].
        simpl in Hdone. rewrite (build_updates_unchanged k rest1 Hdone).
        right. left. eexists. reflexivity.
  - specialize (IH rest). destruct (build_updates k rest). exact IH.
Qed.

(* ------------------------------------------------------------------ *)
(** ** Levelling: what it keeps *)

(** Whatever the jobs and the [job_level] setting, Phase D leaves alone
    every node that is not ready or has no power record. *)
Theorem phase_d_keeps_not_ready (c : Conf.t) (jobs : list job_record)
  (tbl : node_table) (i : nat) (n : node_record) :
  nth_error tbl i = Some n -> not_ready n ->
  nth_error (phase_d c jobs tbl) i = Some n.
Proof.
  intros Hn Hnr. unfold phase_d. destruct (Conf.job_level c =? 0); [exact Hn|].
  unfold _level_power_by_job. revert tbl Hn.
  induction jobs as [|job jobs IH]; intros tbl Hn; simpl; [exact Hn|].
  apply IH. now apply level_job_not_ready.
Qed.

(** A node that is not ready, in the bitmap of a levelled job. *)
Lemma phase_d_keeps_not_ready_witness :
  nth_error
    (phase_d example_force_level [mk_job true (Some [true; true; true]) 0]
       [example_node 1 (mk_power 300 0 0 300 400 100 0 0 0);
        example_node 2 (mk_power 300 0 0 200 400 100 0 1 0);
        example_node 3 (mk_power 300 0 0 100 400 100 0 1 0)]) 0
  = Some (example_node 1 (mk_power 300 0 0 300 400 100 0 0 0)).
Proof.
  apply (phase_d_keeps_not_ready example_force_level
           [mk_job true (Some [true; true; true]) 0]).
  - reflexivity.
  - simpl. discriminate.
Defined.

Lemma level_members_level_set (bitmap : list bool) :
  forall (tbl : node_table) (ave : Z),
    level_members bitmap (level_set bitmap tbl ave)
    = map (fun _ => ave) (level_members bitmap tbl).
Proof.
  induction bitmap as [|b bitmap IH]; intros [|n rest] ave; simpl; auto.
  destruct (level_member b n) eqn:Hm.
  - unfold level_member in Hm. destruct (power n) as [p|] eqn:Hp.
    + unfold level_member at 1. simpl. rewrite Hm. simpl.
      rewrite IH. reflexivity.
    + rewrite andb_false_r in Hm. discriminate.
  - rewrite Hm. apply IH.
Qed.

Lemma sum_watts_constant (A : Type) (l : list A) (w : Z) :
  sum_watts (map (fun _ => w) l) = Z.of_nat (List.length l) * w.
Proof.
  unfold sum_watts. induction l as [|x l IH]; [reflexivity|].
  simpl map. simpl fold_right. rewrite IH.
  simpl List.length. lia.
Qed.

(** Levelling a job never raises the total of its members' proposed
    caps, and lowers it by less than one watt per member (the mean is
    rounded down); the members' count and sum are assumed to fit in
    32 bits. *)
Theorem level_job_total (c : Conf.t) (job : job_record)
  (bitmap : list bool) (tbl : node_table) :
  let before := level_members bitmap tbl in
  let after := level_members bitmap (level_job c job tbl) in
  node_bitmap job = Some bitmap ->
  in_u32 (Z.of_nat (List.length before)) ->
  in_u32 (sum_watts before) ->
  List.length after = List.length before /\
  sum_watts after <= sum_watts before /\
  sum_watts before - sum_watts after < Z.max 1 (Z.of_nat (List.length before)).
Proof.
  intros before after Hbm Hcnt Hsum. unfold after, level_job. rewrite Hbm.
  destruct (negb (level_selected c job)); [fold before; lia|].
  rewrite level_scan_members. fold before.
  destruct (fold_level_add_totals before level_sum0) as [Ht Hc];
    [simpl; unfold in_u32; lia .. |].
  simpl in Ht, Hc. rewrite u32_small in Ht, Hc by assumption.
  rewrite Ht, Hc.
  destruct (Z.ltb_spec (Z.of_nat (List.length before)) 2) as [_|Hge];
    [fold before; lia|].
  destruct (lv_min_watts _ =? lv_max_watts _); [fold before; lia|].
  rewrite level_members_level_set. fold before.
  rewrite length_map, sum_watts_constant.
  set (k := Z.of_nat (List.length before)) in *.
  pose proof (Z.div_mod (sum_watts before) k ltac:(lia)) as Hdm.
  pose proof (Z.mod_pos_bound (sum_watts before) k ltac:(lia)) as Hmb.
  split; [reflexivity|]. lia.
Qed.

(** The spec's levelling scenario with 200 W, 300 W and 251 W. *)
Lemma level_job_total_witness :
  List.length
    (level_members [true; true; true]
       (level_job example_force_level
          (mk_job true (Some [true; true; true]) 0)
          [example_node 1 (mk_power 300 0 0 200 400 100 0 1 0);
           example_node 2 (mk_power 300 0 0 300 400 100 0 1 0);
           example_node 3 (mk_power 300 0 0 251 400 100 0 1 0)]))
  = List.length
      (level_members [true; true; true]
         [example_node 1 (mk_power 300 0 0 200 400 100 0 1 0);
          example_node 2 (mk_power 300 0 0 300 400 100 0 1 0);
          example_node 3 (mk_power 300 0 0 251 400 100 0 1 0)]) /\
  sum_watts
    (level_members [true; true; true]
       (level_job example_force_level
          (mk_job true (Some [true; true; true]) 0)
          [example_node 1 (mk_power 300 0 0 200 400 100 0 1 0);
           example_node 2 (mk_power 300 0 0 300 400 100 0 1 0);
           example_node 3 (mk_power 300 0 0 251 400 100 0 1 0)]))
  <= 751 /\
  751 - sum_watts
          (level_members [true; true; true]
             (level_job example_force_level
                (mk_job true (Some [true; true; true]) 0)
                [example_node 1 (mk_power 300 0 0 200 400 100 0 1 0);
                 example_node 2 (mk_power 300 0 0 300 400 100 0 1 0);
                 example_node 3 (mk_power 300 0 0 251 400 100 0 1 0)]))
  < Z.max 1 3.
Proof.
  apply (level_job_total example_force_level
           (mk_job true (Some [true; true; true]) 0) [true; true; true]
           [example_node 1 (mk_power 300 0 0 200 400 100 0 1 0);
            example_node 2 (mk_power 300 0 0 300 400 100 0 1 0);
            example_node 3 (mk_power 300 0 0 251 400 100 0 1 0)]).
  - reflexivity.
  - vm_compute. split; [discriminate | reflexivity].
  - vm_compute. split; [discriminate | reflexivity].
Defined.

(* ------------------------------------------------------------------ *)
(** ** Configuration: what a reload keeps *)

Ltac load_step f :=
  unfold conf_valid, f, Conf.with_cap_watts;
  intros c s (H1 & H2 & H3 & H4);
  try match goal with
      | |- context [strstr s ?b] => destruct (strstr s b) as [tmp_ptr|]
      end;
  cbv zeta;
  cbn [Conf.balance_interval Conf.lower_threshold Conf.upper_threshold
       Conf.recent_job];
  repeat match goal with
         | |- context [if ?x <? 1 then _ else _] => destruct (Z.ltb_spec x 1)
         end;
  unfold DEFAULT_BALANCE_INTERVAL, DEFAULT_LOWER_THRESHOLD,
    DEFAULT_UPPER_THRESHOLD, DEFAULT_RECENT_JOB, DEFAULT_DECREASE_RATE,
    DEFAULT_INCREASE_RATE;
  repeat split; first [assumption | easy].

Lemma load_balance_interval_valid :
  forall c s, conf_valid c -> conf_valid (load_balance_interval s c).
Proof. load_step load_balance_interval. Qed.

Lemma load_capmc_path_valid :
  forall c s, conf_valid c -> conf_valid (load_capmc_path s c).
Proof. load_step load_capmc_path. Qed.

Lemma load_cap_watts_valid :
  forall c s, conf_valid c -> conf_valid (load_cap_watts s c).
Proof.
  unfold conf_valid, load_cap_watts, Conf.with_cap_watts.
  intros c s H. destruct (strstr s "cap_watts=") as [tmp_ptr|]; [|exact H].
  destruct (strtol (str_drop 10 tmp_ptr)) as [v end_ptr]. exact H.
Qed.

Lemma load_decrease_rate_valid :
  forall c s, conf_valid c -> conf_valid (load_decrease_rate s c).
Proof. load_step load_decrease_rate. Qed.

Lemma load_increase_rate_valid :
  forall c s, conf_valid c -> conf_valid (load_increase_rate s c).
Proof. load_step load_increase_rate. Qed.

Lemma load_job_level_valid :
  forall c s, conf_valid c -> conf_valid (load_job_level s c).
Proof. load_step load_job_level. Qed.

Lemma load_lower_threshold_valid :
  forall c s, conf_valid c -> conf_valid (load_lower_threshold s c).
Proof. load_step load_lower_threshold. Qed.

Lemma load_recent_job_valid :
  forall c s, conf_valid c -> conf_valid (load_recent_job s c).
Proof. load_step load_recent_job. Qed.

Lemma load_upper_threshold_valid :
  forall c s, conf_valid c -> conf_valid (load_upper_threshold s c).
Proof. load_step load_upper_threshold. Qed.

Lemma to_int_range (x : Z) : -2147483648 <= to_int x <= 2147483647.
Proof.
  unfold to_int. pose proof (Z.mod_pos_bound (x + 2147483648) 4294967296).
  lia.
Qed.

Lemma load_balance_interval_int (s : string) (c : Conf.t) :
  Conf.balance_interval c <= 2147483647 ->
  Conf.balance_interval (load_balance_interval s c) <= 2147483647.
Proof.
  intro H. unfold load_balance_interval.
  destruct (strstr s "balance_interval=") as [tmp_ptr|]; [|exact H].
  cbv zeta. cbn [Conf.balance_interval].
  destruct (atoi (str_drop 17 tmp_ptr) <? 1).
  - unfold DEFAULT_BALANCE_INTERVAL. lia.
  - apply to_int_range.
Qed.

Ltac keeps_interval f :=
  intros s c; unfold f, Conf.with_cap_watts;
  try match goal with
      | |- context [strstr s ?b] => destruct (strstr s b) as [tmp_ptr|]
      end;
  try match goal with
      | |- context [strtol ?a] => destruct (strtol a) as [v end_ptr]
      end;
  reflexivity.

Lemma load_capmc_path_interval :
  forall s c, Conf.balance_interval (load_capmc_path s c)
              = Conf.balance_interval c.
Proof. keeps_interval load_capmc_path. Qed.

Lemma load_cap_watts_interval :
  forall s c, Conf.balance_interval (load_cap_watts s c)
              = Conf.balance_interval c.
Proof.
  intros s c. unfold load_cap_watts, Conf.with_cap_watts.
  destruct (strstr s "cap_watts=") as [tmp_ptr|]; [|reflexivity].
  destruct (strtol (str_drop 10 tmp_ptr)) as [v end_ptr]. reflexivity.
Qed.

Lemma load_decrease_rate_interval :
  forall s c, Conf.balance_interval (load_decrease_rate s c)
              = Conf.balance_interval c.
Proof. keeps_interval load_decrease_rate. Qed.

Lemma load_increase_rate_interval :
  forall s c, Conf.balance_interval (load_increase_rate s c)
              = Conf.balance_interval c.
Proof. keeps_interval load_increase_rate. Qed.

Lemma load_job_level_interval :
  forall s c, Conf.balance_interval (load_job_level s c)
              = Conf.balance_interval c.
Proof. keeps_interval load_job_level. Qed.

Lemma load_lower_threshold_interval :
  forall s c, Conf.balance_interval (load_lower_threshold s c)
              = Conf.balance_interval c.
Proof. keeps_interval load_lower_threshold. Qed.

Lemma load_recent_job_interval :
  forall s c, Conf.balance_interval (load_recent_job s c)
              = Conf.balance_interval c.
Proof. keeps_interval load_recent_job. Qed.

Lemma load_upper_threshold_interval :
  forall s c, Conf.balance_interval (load_upper_threshold s c)
              = Conf.balance_interval c.
Proof. keeps_interval load_upper_threshold. Qed.

(** Whatever the parameter string, a reload keeps [balance_interval],
    [lower_threshold], [upper_threshold] and [recent_job] at 1 or more
    once they are, keeps [balance_interval] within the range of [int]
    (a number that [atoi] takes below 1, such as 3000000000, is replaced
    by the default), and leaves [job_level] at one of its three
    values. *)
Theorem load_config_keeps_valid (c : Conf.t) (params : option string) :
  conf_valid c ->
  conf_valid (_load_config c params) /\
  (Conf.balance_interval c <= 2147483647 ->
   Conf.balance_interval (_load_config c params) <= 2147483647) /\
  (Conf.job_level (_load_config c params) = 1
   \/ Conf.job_level (_load_config c params) = 0
   \/ Conf.job_level (_load_config c params) = NO_VAL).
Proof.
  intro H. unfold _load_config. split; [|split].
  - apply load_upper_threshold_valid, load_recent_job_valid,
      load_lower_threshold_valid, load_job_level_valid,
      load_increase_rate_valid, load_decrease_rate_valid,
      load_cap_watts_valid, load_capmc_path_valid,
      load_balance_interval_valid, H.
  - intro Hint.
    rewrite load_upper_threshold_interval, load_recent_job_interval,
      load_lower_threshold_interval, load_job_level_interval,
      load_increase_rate_interval, load_decrease_rate_interval,
      load_cap_watts_interval, load_capmc_path_interval.
    now apply load_balance_interval_int.
  - set (s := match params with Some s => s | None => EmptyString end).
    assert (Hj : forall c0,
               Conf.job_level (load_job_level s c0) = 1
               \/ Conf.job_level (load_job_level s c0) = 0
               \/ Conf.job_level (load_job_level s c0) = NO_VAL).
    { intro c0. unfold load_job_level. cbn [Conf.job_level].
      destruct (is_found (strstr s "job_level")); [now left|].
      destruct (is_found (strstr s "job_no_level")); auto. }
    match goal with
    | |- context [load_job_level s ?c0] => specialize (Hj c0);
        remember (load_job_level s c0) as cj
    end.
    unfold load_upper_threshold, load_recent_job, load_lower_threshold.
    destruct (strstr s "lower_threshold="), (strstr s "recent_job="),
      (strstr s "upper_threshold="); cbn [Conf.job_level]; exact Hj.
Qed.

(** A reload from the initial values with a [balance_interval] that
    does not fit an [int] and a [lower_threshold] of zero: both end at
    their defaults. *)
Lemma load_config_keeps_valid_witness :
  (conf_valid
     (_load_config Conf.initial
        (Some "balance_interval=3000000000,lower_threshold=0,job_level"%string))
   /\ (Conf.balance_interval Conf.initial <= 2147483647 ->
       Conf.balance_interval
         (_load_config Conf.initial
            (Some "balance_interval=3000000000,lower_threshold=0,job_level"%string))
       <= 2147483647)
   /\ (Conf.job_level
         (_load_config Conf.initial
            (Some "balance_interval=3000000000,lower_threshold=0,job_level"%string)) = 1
       \/ Conf.job_level
            (_load_config Conf.initial
               (Some "balance_interval=3000000000,lower_threshold=0,job_level"%string)) = 0
       \/ Conf.job_level
            (_load_config Conf.initial
               (Some "balance_interval=3000000000,lower_threshold=0,job_level"%string))
          = NO_VAL))
  /\ Conf.balance_interval
       (_load_config Conf.initial
          (Some "balance_interval=3000000000,lower_threshold=0,job_level"%string))
     = 30
  /\ Conf.lower_threshold
       (_load_config Conf.initial
          (Some "balance_interval=3000000000,lower_threshold=0,job_level"%string))
     = 90.
Proof.
  split; [|split; reflexivity].
  apply (load_config_keeps_valid Conf.initial).
  unfold conf_valid. vm_compute. repeat split; discriminate.
Defined.

(** A key that the parameter string does not hold is not set back to
    its default: when none of the seven numeric keys occurs, a reload
    keeps all seven values; only [capmc_path] and [job_level] are
    computed afresh. *)
Theorem load_config_absent_keys_kept (c : Conf.t) (s : string) :
  strstr s "balance_interval=" = None ->
  strstr s "cap_watts=" = None ->
  strstr s "decrease_rate=" = None ->
  strstr s "increase_rate=" = None ->
  strstr s "lower_threshold=" = None ->
  strstr s "recent_job=" = None ->
  strstr s "upper_threshold=" = None ->
  _load_config c (Some s)
  = Conf.mk (Conf.balance_interval c)
            (Conf.capmc_path (load_capmc_path s c))
            (Conf.cap_watts c) (Conf.decrease_rate c) (Conf.increase_rate c)
            (Conf.job_level (load_job_level s c))
            (Conf.lower_threshold c) (Conf.recent_job c)
            (Conf.upper_threshold c).
Proof.
  intros H1 H2 H3 H4 H5 H6 H7.
  unfold _load_config.
  unfold load_upper_threshold. rewrite H7.
  unfold load_recent_job. rewrite H6.
  unfold load_lower_threshold. rewrite H5.
  unfold load_job_level at 1.
  unfold load_increase_rate. rewrite H4.
  unfold load_decrease_rate. rewrite H3.
  unfold load_cap_watts. rewrite H2.
  unfold load_balance_interval. rewrite H1.
  unfold load_job_level, load_capmc_path.
  cbn [Conf.balance_interval Conf.capmc_path Conf.cap_watts
       Conf.decrease_rate Conf.increase_rate Conf.job_level
       Conf.lower_threshold Conf.recent_job Conf.upper_threshold].
  reflexivity.
Qed.

(** A reload that only switches levelling off, over settings that are
    not the defaults. *)
Lemma load_config_absent_keys_kept_witness :
  _load_config (Conf.mk 60 "/bin/capmc" 5000 40 10 1 80 600 85)
               (Some "job_no_level"%string)
  = Conf.mk 60 DEFAULT_CAPMC_PATH 5000 40 10 0 80 600 85.
Proof.
  apply (load_config_absent_keys_kept
           (Conf.mk 60 "/bin/capmc" 5000 40 10 1 80 600 85)
           "job_no_level"); vm_compute; reflexivity.
Defined.

(** Reading a number: a non-empty run of digits followed by anything
    that is not a digit. *)
Lemma read_digits_app (ds : string) :
  forall (rest : string) (acc : Z),
    all_digits ds = true -> starts_with_digit rest = false ->
    read_digits (ds ++ rest) acc = (digits_value ds acc, rest).
Proof.
  induction ds as [|c ds IH]; intros rest acc Hd Hr.
  - cbn [append digits_value]. destruct rest as [|c r]; [reflexivity|].
    cbn [starts_with_digit] in Hr. cbn [read_digits]. now rewrite Hr.
  - cbn [all_digits] in Hd. apply andb_true_iff in Hd as [Hc Hd].
    cbn [append read_digits digits_value]. rewrite Hc. now apply IH.
Qed.

Lemma strtol_digits (ds rest : string) :
  all_digits ds = true -> ds <> EmptyString ->
  starts_with_digit rest = false ->
  strtol (ds ++ rest) = (Z.min (digits_value ds 0) LONG_MAX, rest).
Proof.
  intros Hd Hne Hr. destruct ds as [|c ds]; [congruence|].
  pose proof Hd as Hd'. cbn [all_digits] in Hd'.
  apply andb_true_iff in Hd' as [Hc _].
  unfold strtol. cbn [append skip_space].
  rewrite (is_digit_not_space c Hc).
  destruct (is_digit_not_sign c Hc) as [Hm Hp].
  assert (Hsign :
    match String c (ds ++ rest) with
    | String "-"%char r => (true, r)
    | String "+"%char r => (false, r)
    | _ => (false, String c (ds ++ rest))
    end = (false, String c (ds ++ rest))).
  { destruct c as [[] [] [] [] [] [] [] []]; try reflexivity; congruence. }
  rewrite Hsign. cbn [starts_with_digit]. rewrite Hc.
  change (String c (ds ++ rest)) with (String c ds ++ rest)%string.
  rewrite read_digits_app by assumption.
  rewrite clamp_long_nonneg
    by (apply digits_value_nonneg; [exact Hd | lia]).
  reflexivity.
Qed.

(** The budget key with a suffix.  When the first [cap_watts=] of the
    parameter string is followed by the digits of a number and then a
    character that is not a digit, [strtol] returns [v], the smaller of
    that number and [LONG_MAX]; when [v] is not zero modulo 2^32, the
    budget becomes [v] times 1000 for [k] or [K], times 1000000 for [m]
    or [M], and [v] for any other character, all modulo 2^32. *)
Theorem load_cap_watts_suffix (c : Conf.t) (s ds rest : string) (sfx : ascii) :
  strstr s "cap_watts="
  = Some ("cap_watts=" ++ ds ++ String sfx rest)%string ->
  all_digits ds = true -> ds <> EmptyString -> is_digit sfx = false ->
  1 <= u32 (Z.min (digits_value ds 0) LONG_MAX) ->
  Conf.cap_watts (load_cap_watts s c)
  = u32 (u32 (Z.min (digits_value ds 0) LONG_MAX) * cap_suffix_scale sfx).
Proof.
  intros Hs Hd Hne Hsfx Hv. unfold load_cap_watts. rewrite Hs.
  change (str_drop 10 ("cap_watts=" ++ ds ++ String sfx rest))
    with (ds ++ String sfx rest)%string.
  rewrite strtol_digits by assumption.
  destruct (Z.ltb_spec (u32 (Z.min (digits_value ds 0) LONG_MAX)) 1)
    as [|_]; [lia|].
  unfold Conf.with_cap_watts. cbn [Conf.cap_watts]. unfold cap_suffix_scale.
  destruct sfx as [[] [] [] [] [] [] [] []]; cbn [Ascii.eqb Bool.eqb orb andb];
    try reflexivity;
    (rewrite Z.mul_1_r; unfold u32; now rewrite Z.mod_mod by lia).
Qed.

(** [cap_watts=5k] after another key: a budget of 5000 W.  Twenty
    nines with [k]: [strtol] returns [LONG_MAX], whose low 32 bits are
    all ones, and the budget is 4294966296 W. *)
Lemma load_cap_watts_suffix_witness :
  Conf.cap_watts
    (load_cap_watts "balance_interval=60,cap_watts=5k,job_level" Conf.initial)
  = u32 (u32 (Z.min (digits_value "5" 0) LONG_MAX) * cap_suffix_scale "k")
  /\ Conf.cap_watts
       (load_cap_watts "cap_watts=99999999999999999999k" Conf.initial)
     = u32 (u32 (Z.min (digits_value "99999999999999999999" 0) LONG_MAX)
            * cap_suffix_scale "k")
  /\ u32 (u32 (Z.min (digits_value "99999999999999999999" 0) LONG_MAX)
          * cap_suffix_scale "k") = 4294966296.
Proof.
  split; [|split].
  - apply (load_cap_watts_suffix Conf.initial
             "balance_interval=60,cap_watts=5k,job_level" "5" ",job_level"
             "k").
    + vm_compute. reflexivity.
    + reflexivity.
    + discriminate.
    + reflexivity.
    + vm_compute. discriminate.
  - apply (load_cap_watts_suffix Conf.initial
             "cap_watts=99999999999999999999k" "99999999999999999999"
             "" "k").
    + vm_compute. reflexivity.
    + reflexivity.
    + discriminate.
    + reflexivity.
    + vm_compute. discriminate.
  - reflexivity.
Defined.

(* ------------------------------------------------------------------ *)
(** ** Energy ingest: the shape of the table *)

Lemma energy_apply_has_power (e : Ent.t) (nm : string) (tbl : node_table) :
  Forall has_power tbl -> Forall has_power (energy_apply e nm tbl).
Proof.
  induction 1 as [|n rest Hn Hrest IH]; cbn [energy_apply]; [constructor|].
  destruct (String.eqb (name n) nm).
  - destruct (power n) eqn:Hp; constructor; auto. discriminate.
  - constructor; auto.
Qed.

Lemma requests_has_power (l : list (Ent.t * string)) :
  forall tbl : node_table,
    Forall has_power tbl -> Forall has_power (fold_left apply_request l tbl).
Proof.
  induction l as [|[e nm] l IH]; intros tbl H; cbn [fold_left]; [exact H|].
  apply IH. now apply energy_apply_has_power.
Qed.

(** Whatever the response holds, the energy ingest keeps the nodes and
    their order, and leaves every node with a power record. *)
Theorem energy_counter_table_shape (ents : list Ent.t) (tbl : node_table) :
  map name (_get_node_energy_counter ents tbl) = map name tbl /\
  Forall has_power (_get_node_energy_counter ents tbl).
Proof.
  rewrite energy_counter_as_requests. split.
  - now rewrite requests_names, energy_sweep_names.
  - apply requests_has_power. apply Forall_forall. intros n Hn.
    apply in_map_iff in Hn as (m & <- & _). rewrite energy_sweep_power.
    discriminate.
Qed.

(** A node that the response does not name (it may name nodes that the
    table does not hold) keeps its stored sample and every other field;
    its [current_watts] is 0, and a missing power record is allocated. *)
Theorem energy_counter_unnamed (ents : list Ent.t) (tbl : node_table)
  (i : nat) (n : node_record) :
  nth_error tbl i = Some n ->
  ~ In (name n) (map snd (energy_requests ents)) ->
  nth_error (_get_node_energy_counter ents tbl) i
  = Some (mk_node (name n) (Some (set_current_watts (stored_power n) 0))).
Proof.
  intros Hn Hnot. rewrite energy_counter_as_requests.
  rewrite <- energy_sweep_power. apply requests_other.
  - now rewrite nth_error_map, Hn.
  - rewrite energy_sweep_power. exact Hnot.
Qed.

(** The response names node 2 and an unknown node 7; node 1 is not
    named. *)
Lemma energy_counter_unnamed_witness :
  nth_error
    (_get_node_energy_counter
       [example_entry 2 5000 1000000; example_entry 7 100 1000000]
       [example_node 1 (mk_power 300 250 4000 0 400 100 0 1 900000);
        example_sampled 2 4000 900000]) 0
  = Some (mk_node (name (example_node 1
                           (mk_power 300 250 4000 0 400 100 0 1 900000)))
            (Some (set_current_watts
                     (stored_power
                        (example_node 1
                           (mk_power 300 250 4000 0 400 100 0 1 900000)))
                     0))).
Proof.
  apply (energy_counter_unnamed
           [example_entry 2 5000 1000000; example_entry 7 100 1000000]).
  - reflexivity.
  - vm_compute. intros [H|[H|[]]]; discriminate H.
Defined.

(* ------------------------------------------------------------------ *)
(** ** Capability ingest *)

Lemma node_update_names (f : power_mgmt_data_t -> power_mgmt_data_t)
  (nm : string) (tbl : node_table) :
  map name (node_update f nm tbl) = map name tbl.
Proof.
  induction tbl as [|n rest IH]; cbn [node_update map]; [reflexivity|].
  destruct (String.eqb (name n) nm); cbn [map]; [reflexivity|].
  now rewrite IH.
Qed.

Lemma node_update_other (f : power_mgmt_data_t -> power_mgmt_data_t)
  (nm : string) (tbl : node_table) :
  forall (i : nat) (n : node_record),
    nth_error tbl i = Some n -> name n <> nm ->
    nth_error (node_update f nm tbl) i = Some n.
Proof.
  induction tbl as [|m rest IH]; intros [|i] n Hn Hne;
    cbn [nth_error node_update] in *; try discriminate.
  - injection Hn as ->. apply String.eqb_neq in Hne. now rewrite Hne.
  - destruct (String.eqb (name m) nm); cbn [nth_error]; [exact Hn|].
    now apply IH.
Qed.

Lemma node_update_found (f : power_mgmt_data_t -> power_mgmt_data_t)
  (nm : string) (tbl : node_table) :
  forall (i : nat) (n : node_record),
    first_named tbl nm i -> nth_error tbl i = Some n ->
    nth_error (node_update f nm tbl) i
    = Some (set_power n (f (stored_power n))).
Proof.
  unfold first_named.
  induction tbl as [|m rest IH]; intros [|i] n [Hnm Hfirst] Hn;
    cbn [nth_error node_update map] in *; try discriminate.
  - injection Hn as ->. injection Hnm as Hnm.
    apply String.eqb_eq in Hnm. now rewrite Hnm.
  - destruct (String.eqb_spec (name m) nm) as [E|E].
    + exfalso. apply (Hfirst 0%nat); [lia | cbn [nth_error]; now rewrite E].
    + cbn [nth_error]. apply IH; auto. split; [exact Hnm|].
      intros k Hk. apply (Hfirst (S k)). lia.
Qed.

Lemma node_update_unknown (f : power_mgmt_data_t -> power_mgmt_data_t)
  (nm : string) (tbl : node_table) :
  ~ In nm (map name tbl) -> node_update f nm tbl = tbl.
Proof.
  induction tbl as [|n rest IH]; intro Hnot; cbn [node_update];
    [reflexivity|].
  cbn [map In] in Hnot.
  destruct (String.eqb_spec (name n) nm) as [E|E]; [tauto|].
  rewrite IH; [reflexivity | tauto].
Qed.

Lemma capabilities_as_requests (ents : list Ent.t) (tbl : node_table) :
  _get_capabilities ents tbl
  = fold_left capabilities_request (energy_requests ents) tbl.
Proof.
  unfold _get_capabilities, energy_requests. revert tbl.
  induction ents as [|e ents IH]; intro t; cbn [fold_left flat_map];
    [reflexivity|].
  rewrite fold_left_app, IH. f_equal.
  unfold capabilities_entry. generalize (Ent.node_name e) as names.
  intro names. revert t.
  induction names as [|nm names IHn]; intro t; cbn [fold_left map];
    [reflexivity|].
  apply IHn.
Qed.

Lemma capabilities_requests_names (l : list (Ent.t * string)) :
  forall tbl : node_table,
    map name (fold_left capabilities_request l tbl) = map name tbl.
Proof.
  induction l as [|r l IH]; intro tbl; cbn [fold_left]; [reflexivity|].
  rewrite IH. apply node_update_names.
Qed.

Lemma capabilities_requests_other (l : list (Ent.t * string)) :
  forall (tbl : node_table) (i : nat) (n : node_record),
    nth_error tbl i = Some n -> ~ In (name n) (map snd l) ->
    nth_error (fold_left capabilities_request l tbl) i = Some n.
Proof.
  induction l as [|r l IH]; intros tbl i n Hn Hnot; cbn [fold_left];
    [exact Hn|].
  cbn [map In] in Hnot. apply IH; [|tauto].
  apply node_update_other; [exact Hn|]. intro E. apply Hnot. now left.
Qed.

(** A node that the capability response names exactly once, found at
    position [i], gets the node range of the group that names it; every
    other field is kept, and a missing power record is allocated. *)
Theorem capabilities_named_once
  (ents : list Ent.t) (tbl : node_table)
  (l1 l2 : list (Ent.t * string)) (e : Ent.t) (nm : string)
  (i : nat) (n : node_record) :
  energy_requests ents = l1 ++ (e, nm) :: l2 ->
  ~ In nm (map snd l1) -> ~ In nm (map snd l2) ->
  nth_error tbl i = Some n -> first_named tbl nm i ->
  nth_error (_get_capabilities ents tbl) i
  = Some (mk_node nm
            (Some (set_watts_range (Ent.node_min_watts e)
                                   (Ent.node_max_watts e)
                                   (stored_power n)))).
Proof.
  intros Hreq Hl1 Hl2 Hn Hfirst.
  assert (Hname : name n = nm).
  { destruct Hfirst as [H _]. rewrite nth_error_map, Hn in H.
    cbn [option_map] in H. congruence. }
  rewrite capabilities_as_requests, Hreq, fold_left_app.
  cbn [fold_left].
  set (tbl1 := fold_left capabilities_request l1 tbl).
  assert (H1 : nth_error tbl1 i = Some n).
  { apply capabilities_requests_other; [exact Hn | now rewrite Hname]. }
  assert (Hf1 : first_named tbl1 nm i).
  { apply (first_named_names tbl); [|exact Hfirst].
    unfold tbl1. apply capabilities_requests_names. }
  pose proof (node_update_found
                (set_watts_range (Ent.node_min_watts e) (Ent.node_max_watts e))
                nm tbl1 i n Hf1 H1) as H2.
  apply capabilities_requests_other with (l := l2) in H2;
    [| cbn [name set_power]; now rewrite Hname].
  unfold capabilities_request at 2. cbn [fst snd]. rewrite H2.
  unfold set_power. now rewrite Hname.
Qed.

(** Two groups; node 2 is in the second, and has no power record yet. *)
Lemma capabilities_named_once_witness :
  nth_error
    (_get_capabilities
       [Ent.mk 0 0 0 0 350 90 [nid_node_name 1] 0 0;
        Ent.mk 200 0 0 0 400 100 [nid_node_name 2; nid_node_name 3] 0 0]
       [example_node 1 (mk_power 300 250 0 0 0 0 0 1 0);
        mk_node (nid_node_name 2) None]) 1
  = Some (mk_node (nid_node_name 2)
            (Some (set_watts_range 100 400
                     (stored_power (mk_node (nid_node_name 2) None))))).
Proof.
  apply (capabilities_named_once
           [Ent.mk 0 0 0 0 350 90 [nid_node_name 1] 0 0;
            Ent.mk 200 0 0 0 400 100 [nid_node_name 2; nid_node_name 3] 0 0]
           [example_node 1 (mk_power 300 250 0 0 0 0 0 1 0);
            mk_node (nid_node_name 2) None]
           [(Ent.mk 0 0 0 0 350 90 [nid_node_name 1] 0 0, nid_node_name 1)]
           [(Ent.mk 200 0 0 0 400 100 [nid_node_name 2; nid_node_name 3] 0 0,
             nid_node_name 3)]
           (Ent.mk 200 0 0 0 400 100 [nid_node_name 2; nid_node_name 3] 0 0)).
  - reflexivity.
  - vm_compute. intros [H|[]]; discriminate H.
  - vm_compute. intros [H|[]]; discriminate H.
  - reflexivity.
  - split; [reflexivity|]. intros k Hk.
    assert (k = 0%nat) as -> by lia. vm_compute. discriminate.
Defined.

(** A response that names no node of the table changes nothing: unknown
    nodes are passed over. *)
Theorem capabilities_unknown_nodes (ents : list Ent.t) (tbl : node_table) :
  (forall nm, In nm (map snd (energy_requests ents)) -> ~ In nm (map name tbl)) ->
  _get_capabilities ents tbl = tbl.
Proof.
  rewrite capabilities_as_requests.
  induction (energy_requests ents) as [|r l IH]; intro H; cbn [fold_left];
    [reflexivity|].
  unfold capabilities_request at 2.
  rewrite node_update_unknown.
  - apply IH. intros nm Hnm. apply H. cbn [map In]. now right.
  - apply H. cbn [map In]. now left.
Qed.

(** A group for nodes 8 and 9, on a table that holds node 1 only. *)
Lemma capabilities_unknown_nodes_witness :
  _get_capabilities
    [Ent.mk 0 0 0 0 400 100 [nid_node_name 8; nid_node_name 9] 0 0]
    [example_node 1 (mk_power 300 250 0 0 350 90 0 1 0)]
  = [example_node 1 (mk_power 300 250 0 0 350 90 0 1 0)].
Proof.
  apply (capabilities_unknown_nodes
           [Ent.mk 0 0 0 0 400 100 [nid_node_name 8; nid_node_name 9] 0 0]).
  intros nm Hnm. vm_compute in Hnm. vm_compute.
  destruct Hnm as [<-|[<-|[]]]; intros [H|[]]; discriminate H.
Defined.

Lemma node_update_frame (mn mx : Z) (nm : string) (tbl : node_table) :
  forall (i : nat) (n : node_record),
    nth_error tbl i = Some n ->
    nth_error (node_update (set_watts_range mn mx) nm tbl) i = Some n
    \/ nth_error (node_update (set_watts_range mn mx) nm tbl) i
       = Some (mk_node (name n)
                 (Some (set_watts_range mn mx (stored_power n)))).
Proof.
  induction tbl as [|m rest IH]; intros [|i] n Hn;
    cbn [nth_error node_update] in *; try discriminate.
  - injection Hn as ->. destruct (String.eqb (name n) nm);
      cbn [nth_error]; [now right | now left].
  - destruct (String.eqb (name m) nm); cbn [nth_error]; [now left|].
    now apply IH.
Qed.

(** The capability ingest writes nothing but [min_watts] and
    [max_watts]: every node of the table is either untouched, or has the
    fields it had (all zero when its power record was missing) with a
    new range. *)
Theorem capabilities_frame (ents : list Ent.t) (tbl : node_table)
  (i : nat) (n : node_record) :
  nth_error tbl i = Some n ->
  nth_error (_get_capabilities ents tbl) i = Some n
  \/ exists mn mx,
       nth_error (_get_capabilities ents tbl) i
       = Some (mk_node (name n)
                 (Some (set_watts_range mn mx (stored_power n)))).
Proof.
  rewrite capabilities_as_requests. revert tbl n.
  induction (energy_requests ents) as [|r l IH]; intros tbl n Hn;
    cbn [fold_left]; [now left|].
  unfold capabilities_request at 2 4.
  destruct (node_update_frame (Ent.node_min_watts (fst r))
              (Ent.node_max_watts (fst r)) (snd r) tbl i n Hn) as [H|H].
  - apply (IH _ _ H).
  - destruct (IH _ _ H) as [H'|(mn & mx & H')].
    + right. eexists. eexists. exact H'.
    + right. exists mn, mx. exact H'.
Qed.

(** Node 1 is named by two groups. *)
Lemma capabilities_frame_witness :
  nth_error
    (_get_capabilities
       [Ent.mk 0 0 0 0 350 90 [nid_node_name 1] 0 0;
        Ent.mk 0 0 0 0 400 100 [nid_node_name 1] 0 0]
       [example_node 1 (mk_power 300 250 7 0 0 0 0 1 9)]) 0
  = Some (example_node 1 (mk_power 300 250 7 0 0 0 0 1 9))
  \/ exists mn mx,
       nth_error
         (_get_capabilities
            [Ent.mk 0 0 0 0 350 90 [nid_node_name 1] 0 0;
             Ent.mk 0 0 0 0 400 100 [nid_node_name 1] 0 0]
            [example_node 1 (mk_power 300 250 7 0 0 0 0 1 9)]) 0
       = Some (mk_node (name (example_node 1 (mk_power 300 250 7 0 0 0 0 1 9)))
                 (Some (set_watts_range mn mx
                          (stored_power
                             (example_node 1
                                (mk_power 300 250 7 0 0 0 0 1 9)))))).
Proof.
  apply (capabilities_frame
           [Ent.mk 0 0 0 0 350 90 [nid_node_name 1] 0 0;
            Ent.mk 0 0 0 0 400 100 [nid_node_name 1] 0 0]).
  reflexivity.
Defined.

(* ------------------------------------------------------------------ *)
(** ** Readiness ingest *)

Lemma ready_apply_names (e : Ent.t) (nm : string) (tbl : node_table) :
  map name (ready_apply e nm tbl) = map name tbl.
Proof.
  induction tbl as [|n rest IH]; cbn [ready_apply map]; [reflexivity|].
  destruct (String.eqb (name n) nm).
  - destruct (power n); reflexivity.
  - cbn [map]. now rewrite IH.
Qed.

Lemma ready_apply_other (e : Ent.t) (nm : string) (tbl : node_table) :
  forall (i : nat) (n : node_record),
    nth_error tbl i = Some n -> name n <> nm ->
    nth_error (ready_apply e nm tbl) i = Some n.
Proof.
  induction tbl as [|m rest IH]; intros [|i] n Hn Hne;
    cbn [nth_error ready_apply] in *; try discriminate.
  - injection Hn as ->. apply String.eqb_neq in Hne. now rewrite Hne.
  - destruct (String.eqb (name m) nm).
    + destruct (power m); cbn [nth_error]; exact Hn.
    + cbn [nth_error]. now apply IH.
Qed.

Lemma ready_apply_found (e : Ent.t) (nm : string) (tbl : node_table) :
  forall (i : nat) (n : node_record) (p : power_mgmt_data_t),
    first_named tbl nm i -> nth_error tbl i = Some n -> power n = Some p ->
    nth_error (ready_apply e nm tbl) i
    = Some (set_power n (set_state (Ent.state e) p)).
Proof.
  unfold first_named.
  induction tbl as [|m rest IH]; intros [|i] n p [Hnm Hfirst] Hn Hp;
    cbn [nth_error ready_apply map] in *; try discriminate.
  - injection Hn as ->. injection Hnm as Hnm.
    apply String.eqb_eq in Hnm. now rewrite Hnm, Hp.
  - destruct (String.eqb_spec (name m) nm) as [E|E].
    + exfalso. apply (Hfirst 0%nat); [lia | cbn [nth_error]; now rewrite E].
    + cbn [nth_error]. apply IH; auto. split; [exact Hnm|].
      intros k Hk. apply (Hfirst (S k)). lia.
Qed.

Lemma ready_apply_has_power (e : Ent.t) (nm : string) (tbl : node_table) :
  Forall has_power tbl -> Forall has_power (ready_apply e nm tbl).
Proof.
  induction 1 as [|n rest Hn Hrest IH]; cbn [ready_apply]; [constructor|].
  destruct (String.eqb (name n) nm).
  - destruct (power n) eqn:Hp; constructor; auto. discriminate.
  - constructor; auto.
Qed.

Lemma nodes_ready_as_requests (ents : list Ent.t) (tbl : node_table) :
  _get_nodes_ready ents tbl
  = fold_left ready_request (energy_requests ents) (map ready_sweep tbl).
Proof.
  unfold _get_nodes_ready, energy_requests.
  generalize (map ready_sweep tbl) as t.
  induction ents as [|e ents IH]; intro t; cbn [fold_left flat_map];
    [reflexivity|].
  rewrite fold_left_app, IH. f_equal.
  unfold ready_entry. generalize (Ent.node_name e) as names.
  intro names. revert t.
  induction names as [|nm names IHn]; intro t; cbn [fold_left map];
    [reflexivity|].
  apply IHn.
Qed.

Lemma ready_sweep_power (n : node_record) :
  ready_sweep n = mk_node (name n) (Some (set_state 0 (stored_power n))).
Proof.
  unfold ready_sweep, stored_power. destruct (power n); reflexivity.
Qed.

Lemma ready_requests_names (l : list (Ent.t * string)) :
  forall tbl : node_table,
    map name (fold_left ready_request l tbl) = map name tbl.
Proof.
  induction l as [|r l IH]; intro tbl; cbn [fold_left]; [reflexivity|].
  rewrite IH. apply ready_apply_names.
Qed.

Lemma ready_requests_has_power (l : list (Ent.t * string)) :
  forall tbl : node_table,
    Forall has_power tbl -> Forall has_power (fold_left ready_request l tbl).
Proof.
  induction l as [|r l IH]; intros tbl H; cbn [fold_left]; [exact H|].
  apply IH. now apply ready_apply_has_power.
Qed.

(** Whatever the response holds, the readiness ingest keeps the nodes
    and their order, and leaves every node with a power record. *)
Theorem nodes_ready_table_shape (ents : list Ent.t) (tbl : node_table) :
  map name (_get_nodes_ready ents tbl) = map name tbl /\
  Forall has_power (_get_nodes_ready ents tbl).
Proof.
  rewrite nodes_ready_as_requests. split.
  - rewrite ready_requests_names, map_map. apply map_ext.
    intro n. now rewrite ready_sweep_power.
  - apply ready_requests_has_power. apply Forall_forall. intros n Hn.
    apply in_map_iff in Hn as (m & <- & _). rewrite ready_sweep_power.
    discriminate.
Qed.

Lemma ready_requests_state (l : list (Ent.t * string)) (nm : string)
  (i : nat) (p : power_mgmt_data_t) :
  Forall (fun r => Ent.state (fst r) = 1) l ->
  forall (tbl : node_table) (b : bool),
    nth_error tbl i
    = Some (mk_node nm (Some (set_state (if b then 1 else 0) p))) ->
    first_named tbl nm i ->
    nth_error (fold_left ready_request l tbl) i
    = Some (mk_node nm
              (Some (set_state (if b || named_in nm l then 1 else 0) p))).
Proof.
  induction 1 as [|[e nm'] l He Hl IH]; intros tbl b Hn Hfirst;
    cbn [fold_left].
  - unfold named_in. cbn [map existsb]. now rewrite orb_false_r.
  - cbn [fst] in He. unfold named_in. cbn [map snd existsb].
    fold (named_in nm l). unfold ready_request at 2. cbn [fst snd].
    destruct (String.eqb_spec nm nm') as [<-|Hne].
    + rewrite orb_true_r.
      pose proof (ready_apply_found e nm tbl i _ _ Hfirst Hn eq_refl) as H1.
      rewrite He in H1.
      specialize (IH (ready_apply e nm tbl) true H1).
      cbn [orb] in IH. apply IH.
      apply (first_named_names tbl); [apply ready_apply_names | exact Hfirst].
    + cbn [orb]. apply IH.
      * apply ready_apply_other; [exact Hn | cbn [name]; congruence].
      * apply (first_named_names tbl);
          [apply ready_apply_names | exact Hfirst].
Qed.

(** When every entry of the response carries state 1 (the "ready"
    bucket), a node found under its name ends with state 1 if the
    response names it, and with state 0 if it does not; every other
    field is kept. *)
Theorem nodes_ready_state (ents : list Ent.t) (tbl : node_table)
  (nm : string) (i : nat) (n : node_record) :
  Forall (fun e => Ent.state e = 1) ents ->
  nth_error tbl i = Some n -> first_named tbl nm i ->
  nth_error (_get_nodes_ready ents tbl) i
  = Some (mk_node nm
            (Some (set_state
                     (if named_in nm (energy_requests ents) then 1 else 0)
                     (stored_power n)))).
Proof.
  intros Hst Hn Hfirst.
  assert (Hname : name n = nm).
  { destruct Hfirst as [H _]. rewrite nth_error_map, Hn in H.
    cbn [option_map] in H. congruence. }
  rewrite nodes_ready_as_requests.
  apply (ready_requests_state (energy_requests ents) nm i (stored_power n))
    with (b := false).
  - unfold energy_requests. apply Forall_forall. intros [e nm'] Hin.
    apply in_flat_map in Hin as (e' & He' & Hin).
    apply in_map_iff in Hin as (x & E & _). injection E as <- _.
    rewrite Forall_forall in Hst. now apply Hst.
  - rewrite nth_error_map, Hn. cbn [option_map].
    now rewrite ready_sweep_power, Hname.
  - apply (first_named_names tbl); [|exact Hfirst].
    rewrite map_map. apply map_ext. intro m. now rewrite ready_sweep_power.
Qed.

(** Node 1 was ready and is not in the response; node 2 is. *)
Lemma nodes_ready_state_witness :
  nth_error
    (_get_nodes_ready
       [Ent.mk 0 0 0 0 0 0 [nid_node_name 2; nid_node_name 5] 1 0]
       [example_node 1 (mk_power 300 250 0 0 400 100 0 1 0);
        example_node 2 (mk_power 300 250 0 0 400 100 0 0 0)]) 0
  = Some (mk_node (nid_node_name 1)
            (Some (set_state
                     (if named_in (nid_node_name 1)
                           (energy_requests
                              [Ent.mk 0 0 0 0 0 0
                                 [nid_node_name 2; nid_node_name 5] 1 0])
                      then 1 else 0)
                     (stored_power
                        (example_node 1
                           (mk_power 300 250 0 0 400 100 0 1 0)))))).
Proof.
  apply (nodes_ready_state
           [Ent.mk 0 0 0 0 0 0 [nid_node_name 2; nid_node_name 5] 1 0]).
  - repeat constructor.
  - reflexivity.
  - split; [reflexivity | intros k Hk; lia].
Defined.

(* ------------------------------------------------------------------ *)
(** ** Installed caps ingest *)

Lemma get_caps_other (ents : list Ent.t) (i : nat) (n : node_record) :
  Forall (caps_names_other (name n)) ents ->
  forall tbl : node_table,
    nth_error tbl i = Some n ->
    exists tbl',
      _get_caps ents tbl = Some tbl' /\ nth_error tbl' i = Some n.
Proof.
  induction 1 as [|e ents (nm' & more & He & Hne) Hrest IH]; intros tbl Hn;
    cbn [_get_caps].
  - now exists tbl.
  - rewrite He. apply IH. now apply node_update_other.
Qed.

(** When every entry of the response has a name and exactly one of them
    is for the node found at position [i], the ingest succeeds, the
    node's [cap_watts] is that entry's cap and its other fields are
    kept (a missing power record is allocated). *)
Theorem get_caps_named_once
  (ents1 ents2 : list Ent.t) (e : Ent.t) (nm : string) (more : list string)
  (tbl : node_table) (i : nat) (n : node_record) :
  Ent.node_name e = nm :: more ->
  Forall (caps_names_other nm) ents1 ->
  Forall (caps_names_other nm) ents2 ->
  nth_error tbl i = Some n -> first_named tbl nm i ->
  exists tbl',
    _get_caps (ents1 ++ e :: ents2) tbl = Some tbl' /\
    nth_error tbl' i
    = Some (mk_node nm
              (Some (set_cap_watts (stored_power n) (Ent.cap_watts e)))).
Proof.
  intros He H1 H2 Hn Hfirst.
  assert (Hname : name n = nm).
  { destruct Hfirst as [H _]. rewrite nth_error_map, Hn in H.
    cbn [option_map] in H. congruence. }
  revert tbl Hn Hfirst.
  induction H1 as [|e1 ents1 (nm' & more' & He1 & Hne) Hrest IH];
    intros tbl Hn Hfirst; cbn [_get_caps app].
  - rewrite He.
    pose proof (node_update_found
                  (fun p => set_cap_watts p (Ent.cap_watts e)) nm tbl i n
                  Hfirst Hn) as Hu.
    cbv beta in Hu.
    set (n1 := set_power n (set_cap_watts (stored_power n) (Ent.cap_watts e)))
      in *.
    assert (H2' : Forall (caps_names_other (name n1)) ents2)
      by (unfold n1; cbn [name set_power]; now rewrite Hname).
    destruct (get_caps_other ents2 i n1 H2' _ Hu) as (tbl' & Hc & Hi).
    exists tbl'. split; [exact Hc|]. rewrite Hi. unfold n1, set_power.
    now rewrite Hname.
  - rewrite He1. apply IH.
    + apply node_update_other; [exact Hn | congruence].
    + apply (first_named_names tbl);
        [apply node_update_names | exact Hfirst].
Qed.

(** Caps for nodes 1, 2 and an unknown node 7. *)
Lemma get_caps_named_once_witness :
  exists tbl',
    _get_caps
      ([Ent.mk 0 0 250 0 0 0 [nid_node_name 1] 0 0]
       ++ Ent.mk 0 0 300 0 0 0 [nid_node_name 2] 0 0
          :: [Ent.mk 0 0 100 0 0 0 [nid_node_name 7] 0 0])
      [example_node 1 (mk_power 0 0 0 0 400 100 0 1 0);
       example_node 2 (mk_power 0 0 0 0 400 100 0 1 0)] = Some tbl' /\
    nth_error tbl' 1
    = Some (mk_node (nid_node_name 2)
              (Some (set_cap_watts
                       (stored_power
                          (example_node 2 (mk_power 0 0 0 0 400 100 0 1 0)))
                       (Ent.cap_watts
                          (Ent.mk 0 0 300 0 0 0 [nid_node_name 2] 0 0))))).
Proof.
  apply (get_caps_named_once
           [Ent.mk 0 0 250 0 0 0 [nid_node_name 1] 0 0]
           [Ent.mk 0 0 100 0 0 0 [nid_node_name 7] 0 0]
           (Ent.mk 0 0 300 0 0 0 [nid_node_name 2] 0 0)
           (nid_node_name 2) []).
  - reflexivity.
  - repeat constructor. exists (nid_node_name 1), [].
    split; [reflexivity | vm_compute; discriminate].
  - repeat constructor. exists (nid_node_name 7), [].
    split; [reflexivity | vm_compute; discriminate].
  - reflexivity.
  - split; [reflexivity|]. intros k Hk.
    assert (k = 0%nat) as -> by lia. vm_compute. discriminate.
Defined.

(* ------------------------------------------------------------------ *)
(** ** Clearing the caps *)

Lemma cut_last_closing (c : ascii) (s : string) :
  cut_last c (s ++ String c EmptyString) = Some s.
Proof.
  induction s as [|a s IH]; cbn [append cut_last].
  - now rewrite Ascii.eqb_refl.
  - now rewrite IH.
Qed.

Lemma cut_last_absent (s : string) :
  no_bracket s = true -> cut_last "]" s = None.
Proof.
  induction s as [|a s IH]; cbn [no_bracket cut_last]; [reflexivity|].
  intro H. apply andb_true_iff in H as [H Hs].
  apply andb_true_iff in H as [_ Ha]. rewrite (IH Hs).
  now destruct (Ascii.eqb a "]").
Qed.

(** The bracket removal takes off one enclosing pair of brackets,
    whatever they enclose. *)
Theorem strip_brackets_enclosed (s : string) :
  strip_brackets (String "[" (s ++ String "]" EmptyString)) = s.
Proof.
  unfold strip_brackets.
  change (String "[" (s ++ String "]" EmptyString))
    with (String "[" s ++ String "]" EmptyString)%string.
  now rewrite cut_last_closing.
Qed.

(** The bracket removal leaves a text without brackets, such as a
    single nid, as it is. *)
Theorem strip_brackets_plain (s : string) :
  no_bracket s = true -> strip_brackets s = s.
Proof.
  intro H. unfold strip_brackets. rewrite (cut_last_absent s H).
  destruct s as [|a s]; [reflexivity|].
  cbn [no_bracket] in H. apply andb_true_iff in H as [H _].
  apply andb_true_iff in H as [Ha _].
  destruct (Ascii.eqb_spec a "["%char) as [->|Hne]; [discriminate Ha|].
  destruct a as [[] [] [] [] [] [] [] []]; try reflexivity; congruence.
Qed.

(** A single nid. *)
Lemma strip_brackets_plain_witness :
  no_bracket "12" = true /\ strip_brackets "12" = "12"%string.
Proof.
  split; [reflexivity | apply (strip_brackets_plain "12"); reflexivity].
Defined.

Lemma clear_nids_filter (tbl : node_table) :
  clear_nids tbl
  = map (fun n => _node_name2nid (name n)) (filter clearable tbl).
Proof.
  induction tbl as [|n rest IH]; cbn [clear_nids filter map]; [reflexivity|].
  unfold clearable at 1. destruct (power n) as [p|]; [|exact IH].
  destruct (cap_watts p =? 0); cbn [negb andb]; [exact IH|].
  destruct (state p =? 1); cbn [negb map]; [|exact IH].
  now rewrite IH.
Qed.

(** The clearing path lists, in table order, exactly the nodes that have
    a power record, a nonzero installed cap and are ready; it returns no
    list at all exactly when there is no such node. *)
Theorem clear_node_caps_members
  (hostset_ranged_string : list string -> nat -> string)
  (tbl : node_table) :
  clear_nids tbl
  = map (fun n => _node_name2nid (name n)) (filter clearable tbl) /\
  (_clear_node_caps hostset_ranged_string tbl = None
   <-> Forall (fun n => clearable n = false) tbl).
Proof.
  split; [apply clear_nids_filter|].
  unfold _clear_node_caps. rewrite clear_nids_filter.
  split.
  - intro H. apply Forall_forall. intros n Hn.
    destruct (clearable n) eqn:Hc; [|reflexivity].
    assert (Hin : In n (filter clearable tbl)) by (apply filter_In; auto).
    destruct (filter clearable tbl); [destruct Hin | discriminate H].
  - intro H. rewrite Forall_forall in H.
    destruct (filter clearable tbl) as [|n l] eqn:Hf; [reflexivity|].
    assert (Hin : In n (filter clearable tbl)) by (rewrite Hf; now left).
    apply filter_In in Hin as [Hin Hc]. rewrite (H n Hin) in Hc.
    discriminate Hc.
Qed.

(** Handed to the applier, the clearing path dispatches nothing when no
    node is to be cleared, and otherwise one record, with watts 0, in
    the decrease pass, whatever the exit status of the call. *)
Theorem clear_node_caps_dispatch
  (hostset_ranged_string : list string -> nat -> string)
  (run : list power_by_nodes_t -> power_by_nodes_t -> Z)
  (tbl : node_table) :
  (clear_nids tbl = [] /\
   _set_power_caps run (_clear_node_caps hostset_ranged_string tbl) = [])
  \/ (clear_nids tbl <> [] /\
      exists r,
        _set_power_caps run (_clear_node_caps hostset_ranged_string tbl)
        = [r] /\
        alloc_watts r = 0 /\ increase_power r = false /\
        nodes r
        = strip_brackets
            (hostset_ranged_string (clear_nids tbl)
               (List.length (clear_nids tbl) * 6)%nat)).
Proof.
  unfold _clear_node_caps.
  destruct (clear_nids tbl) as [|nid nids] eqn:Hn.
  - left. split; reflexivity.
  - right. split; [discriminate|].
    eexists. split.
    + unfold _set_power_caps. cbn [decrease_pass increase_power negb].
      destruct (negb (run [] _ =? 0)); cbn [increase_pass increase_power negb];
        reflexivity.
    + repeat split.
Qed.

(* ------------------------------------------------------------------ *)
(** ** Time stamps *)

Lemma number_not_blank (ds rest : string) :
  is_number ds -> skip_space (ds ++ rest) = (ds ++ rest)%string.
Proof.
  intros [Hd Hne]. destruct ds as [|c ds]; [congruence|].
  cbn [all_digits] in Hd. apply andb_true_iff in Hd as [Hc _].
  cbn [append skip_space]. now rewrite (is_digit_not_space c Hc).
Qed.

Lemma scan_int_number (ds rest : string) :
  is_number ds -> starts_with_digit rest = false ->
  scan_int (ds ++ rest) = Some (scanned ds, rest).
Proof.
  intros [Hd Hne] Hr. destruct ds as [|c ds]; [congruence|].
  pose proof Hd as Hd'. cbn [all_digits] in Hd'.
  apply andb_true_iff in Hd' as [Hc _].
  unfold scan_int. cbn [append skip_space].
  rewrite (is_digit_not_space c Hc).
  destruct (is_digit_not_sign c Hc) as [Hm Hp].
  assert (Hsign :
    match String c (ds ++ rest) with
    | String "-"%char r => (true, r)
    | String "+"%char r => (false, r)
    | _ => (false, String c (ds ++ rest))
    end = (false, String c (ds ++ rest))).
  { destruct c as [[] [] [] [] [] [] [] []]; try reflexivity; congruence. }
  rewrite Hsign. cbn [starts_with_digit]. rewrite Hc.
  change (String c (ds ++ rest)) with (String c ds ++ rest)%string.
  rewrite read_digits_app by assumption. reflexivity.
Qed.

Lemma scanned_small (ds : string) :
  is_number ds -> digits_value ds 0 < 2147483648 ->
  scanned ds = digits_value ds 0.
Proof.
  intros [Hd _] Hb. unfold scanned.
  pose proof (digits_value_nonneg ds 0 Hd ltac:(lia)).
  rewrite clamp_long_small by (unfold LONG_MIN, LONG_MAX; lia).
  apply to_int_small. lia.
Qed.

Lemma sscanf_int_step (fmt : list directive) (ds rest : string) :
  is_number ds -> starts_with_digit rest = false ->
  sscanf_ints (Dint :: fmt) (ds ++ rest)
  = scanned ds :: sscanf_ints fmt rest.
Proof.
  intros Hd Hr. cbn [sscanf_ints]. now rewrite scan_int_number.
Qed.

Lemma sscanf_lit_step (fmt : list directive) (c : ascii) (rest : string) :
  sscanf_ints (Dlit c :: fmt) (String c rest) = sscanf_ints fmt rest.
Proof. cbn [sscanf_ints]. now rewrite Ascii.eqb_refl. Qed.

Lemma sscanf_blank_step (fmt : list directive) (ds rest : string) :
  is_number ds ->
  sscanf_ints (Dblank :: fmt) (String " " (ds ++ rest))
  = sscanf_ints fmt (ds ++ rest).
Proof.
  intro Hd. cbn [sscanf_ints]. f_equal.
  change (skip_space (String " " (ds ++ rest)))
    with (skip_space (ds ++ rest)).
  now apply number_not_blank.
Qed.

(** The six integers of the date and the time of day, and what the rest
    of the format reads from the tail. *)
Lemma sscanf_time_text (y mo d h mi se tail : string) :
  is_number y -> is_number mo -> is_number d ->
  is_number h -> is_number mi -> is_number se ->
  starts_with_digit tail = false ->
  sscanf_ints time_format (time_text y mo d h mi se tail)
  = scanned y :: scanned mo :: scanned d
    :: scanned h :: scanned mi :: scanned se
    :: sscanf_ints [Dlit "."; Dint; Dlit "-"; Dint] tail.
Proof.
  intros Hy Hmo Hd Hh Hmi Hse Ht. unfold time_format, time_text.
  rewrite sscanf_int_step, sscanf_lit_step by (auto; reflexivity).
  rewrite sscanf_int_step, sscanf_lit_step by (auto; reflexivity).
  rewrite sscanf_int_step by (auto; reflexivity).
  rewrite sscanf_blank_step by auto.
  rewrite sscanf_int_step, sscanf_lit_step by (auto; reflexivity).
  rewrite sscanf_int_step, sscanf_lit_step by (auto; reflexivity).
  rewrite sscanf_int_step by auto.
  reflexivity.
Qed.

Lemma clock_microseconds (hh mm ss uu : Z) :
  0 <= hh < 24 -> 0 <= mm < 60 -> 0 <= ss < 60 -> 0 <= uu < 1000000 ->
  u64 (u64 (u64 (to_int (((hh * 60) + mm) * 60 + ss)) * 1000000) + uu)
  = ((hh * 60 + mm) * 60 + ss) * 1000000 + uu
  /\ ((hh * 60 + mm) * 60 + ss) * 1000000 + uu < 86400000000.
Proof.
  intros Hh Hm Hs Hu.
  rewrite to_int_small by lia.
  rewrite (u64_small ((hh * 60 + mm) * 60 + ss)) by (unfold in_u64; lia).
  rewrite (u64_small (((hh * 60 + mm) * 60 + ss) * 1000000))
    by (unfold in_u64; lia).
  rewrite u64_small by (unfold in_u64; lia). lia.
Qed.

(** A time stamp [Y-M-D h:m:s.u] followed by anything that is not a
    digit, with a valid time of day and fewer than a million
    microseconds, reads as [((h * 60 + m) * 60 + s) * 10^6 + u], which
    is less than a day; the date is not used.  The fraction is read as
    an integer, whatever its number of digits. *)
Theorem time_str2num_clock (y mo d h mi se us rest : string) :
  is_number y -> is_number mo -> is_number d ->
  is_number h -> is_number mi -> is_number se -> is_number us ->
  starts_with_digit rest = false ->
  digits_value h 0 < 24 -> digits_value mi 0 < 60 ->
  digits_value se 0 < 60 -> digits_value us 0 < 1000000 ->
  _time_str2num (time_text y mo d h mi se (String "." (us ++ rest)))
  = ((digits_value h 0 * 60 + digits_value mi 0) * 60 + digits_value se 0)
    * 1000000 + digits_value us 0
  /\ _time_str2num (time_text y mo d h mi se (String "." (us ++ rest)))
     < 86400000000.
Proof.
  intros Hy Hmo Hd Hh Hmi Hse Hus Hr Bh Bm Bs Bu.
  unfold _time_str2num.
  rewrite sscanf_time_text by (auto; reflexivity).
  rewrite sscanf_lit_step, sscanf_int_step by auto.
  cbn [nth List.length Nat.leb].
  rewrite (scanned_small h), (scanned_small mi), (scanned_small se),
    (scanned_small us) by (assumption || lia).
  pose proof (digits_value_nonneg h 0 (proj1 Hh) ltac:(lia)).
  pose proof (digits_value_nonneg mi 0 (proj1 Hmi) ltac:(lia)).
  pose proof (digits_value_nonneg se 0 (proj1 Hse) ltac:(lia)).
  pose proof (digits_value_nonneg us 0 (proj1 Hus) ltac:(lia)).
  assert (Hc := clock_microseconds (digits_value h 0) (digits_value mi 0)
                  (digits_value se 0) (digits_value us 0)
                  ltac:(lia) ltac:(lia) ltac:(lia) ltac:(lia)).
  destruct Hc as [E B]. rewrite E. split; [reflexivity | exact B].
Qed.

(** The time stamp of the source's comment. *)
Lemma time_str2num_clock_witness :
  _time_str2num
    (time_text "2015" "02" "19" "15" "50" "00" (String "." ("581552" ++ "-06")))
  = ((digits_value "15" 0 * 60 + digits_value "50" 0) * 60
     + digits_value "00" 0) * 1000000 + digits_value "581552" 0
  /\ _time_str2num
       (time_text "2015" "02" "19" "15" "50" "00"
          (String "." ("581552" ++ "-06")))
     < 86400000000.
Proof.
  apply (time_str2num_clock "2015" "02" "19" "15" "50" "00" "581552" "-06");
    try (split; [reflexivity | discriminate]); reflexivity.
Defined.

(** A time stamp without a fraction, [Y-M-D h:m:s] followed by anything
    that is neither a digit nor a dot, still reads: as whole seconds. *)
Theorem time_str2num_no_fraction (y mo d h mi se rest : string) :
  is_number y -> is_number mo -> is_number d ->
  is_number h -> is_number mi -> is_number se ->
  starts_with_digit rest = false -> starts_with "." rest = false ->
  digits_value h 0 < 24 -> digits_value mi 0 < 60 ->
  digits_value se 0 < 60 ->
  _time_str2num (time_text y mo d h mi se rest)
  = ((digits_value h 0 * 60 + digits_value mi 0) * 60 + digits_value se 0)
    * 1000000.
Proof.
  intros Hy Hmo Hd Hh Hmi Hse Hr Hdot Bh Bm Bs.
  unfold _time_str2num.
  rewrite sscanf_time_text by auto.
  assert (Htail : sscanf_ints [Dlit "."; Dint; Dlit "-"; Dint] rest = []).
  { cbn [sscanf_ints]. destruct rest as [|a r]; [reflexivity|].
    cbn [starts_with] in Hdot. now rewrite Hdot. }
  rewrite Htail. cbn [nth List.length Nat.leb].
  rewrite (scanned_small h), (scanned_small mi), (scanned_small se)
    by (assumption || lia).
  pose proof (digits_value_nonneg h 0 (proj1 Hh) ltac:(lia)).
  pose proof (digits_value_nonneg mi 0 (proj1 Hmi) ltac:(lia)).
  pose proof (digits_value_nonneg se 0 (proj1 Hse) ltac:(lia)).
  assert (Hc := clock_microseconds (digits_value h 0) (digits_value mi 0)
                  (digits_value se 0) 0
                  ltac:(lia) ltac:(lia) ltac:(lia) ltac:(lia)).
  destruct Hc as [E _]. rewrite E. lia.
Qed.

(** One second before midnight, no fraction, no time zone. *)
Lemma time_str2num_no_fraction_witness :
  _time_str2num (time_text "2015" "02" "19" "23" "59" "59" "")
  = ((digits_value "23" 0 * 60 + digits_value "59" 0) * 60
     + digits_value "59" 0) * 1000000.
Proof.
  apply (time_str2num_no_fraction "2015" "02" "19" "23" "59" "59" "");
    try (split; [reflexivity | discriminate]); reflexivity.
Defined.

(** A fraction of twelve digits does not fit the [int] it is stored
    into: its low 32 bits are added to the 57000 seconds. *)
Lemma time_str2num_long_fraction :
  _time_str2num "2015-02-19 15:50:00.581552123456-06"
  = 57000 * 1000000 + (581552123456 - 135 * 4294967296).
Proof. vm_compute. reflexivity. Qed.
